(** * The frame renderer of the Battlecode client (src/renderer.ts)

  A shallow embedding of the [Renderer] class: every drawing method is a
  function that yields the sequence of calls it issues on the canvas 2D
  context, together with the way it finishes (normal return, or a thrown
  exception).  A JavaScript [number] is an IEEE 754 binary64 value, so it
  is modelled by Rocq's primitive [float]; nothing is idealised into real
  or rational arithmetic. *)

From Stdlib Require Import ZArith Floats Reals Bool String List Sorted Lia Lra.
From stdpp Require Import base option list sorting gmap.
Import ListNotations.

Set Warnings "-inexact-float".

Local Open Scope Z_scope.

(** ** Numbers *)

(** A JavaScript [number]. *)
Abbreviation number := float.

(** Reading [a[i]] where the value is used in arithmetic: a missing element
  is [undefined], which every arithmetic operator converts to NaN. *)
Definition num_at (a : list number) (i : nat) : number :=
  match a !! i with
  | Some v => v
  | None => nan
  end.

(** [a >= b] on numbers (false as soon as one side is NaN). *)
Definition geb (a b : number) : bool := (b <=? a)%float.

(** [SameValueZero] of ECMAScript: numeric equality in which NaN equals
  itself; the two zeros are the same number. *)
Definition sameValueZero (a b : number) : bool :=
  (a =? b)%float || (is_nan a && is_nan b).

(** ** Binary64 values as real numbers

    What the arithmetic of numbers computes is specified by the rounding of
    [SpecFloat]; to reason about the order of its results, a magnitude is
    read as the real number [m * 2^e]. *)

Local Open Scope R_scope.

Definition bpow (e : Z) : R := powerRZ 2 e.
Arguments bpow : simpl never.

(** Where a real [r] lies with respect to the mantissa [m] at exponent [e]:
    on [m * 2^e], or strictly between it and [(m + 1) * 2^e], then below,
    at or above the midpoint.  This is what a [location] records. *)
Definition located (r : R) (m e : Z) (l : location) : Prop :=
  match l with
  | loc_Exact => r = IZR m * bpow e
  | loc_Inexact c =>
      IZR m * bpow e < r < (IZR m + 1) * bpow e
      /\ match c with
         | Lt => r < (IZR m + / 2) * bpow e
         | Eq => r = (IZR m + / 2) * bpow e
         | Gt => (IZR m + / 2) * bpow e < r
         end
  end.

(** [E] is the exponent at which binary64 represents a nonnegative real
    [r]: 53 bits above the first one, and never below -1074. *)
Definition cexp (r : R) (E : Z) : Prop :=
  (-1074 <= E)%Z /\ r < bpow (E + 53)
  /\ (E = (-1074)%Z \/ bpow (E + 52) <= r).

(** The mantissa [q] at exponent [e] is at least as fine as the format. *)
Definition fine_enough (q e : Z) : Prop :=
  (e <= fexp prec emax (Zdigits2 q + e))%Z.

(** [M] is the integer nearest to [r / 2^E], a tie going to the even one. *)
Definition rne_at (r : R) (M E : Z) : Prop :=
  ((IZR M - / 2) * bpow E < r < (IZR M + / 2) * bpow E)
  \/ (r = (IZR M - / 2) * bpow E /\ Z.even M = true)
  \/ (r = (IZR M + / 2) * bpow E /\ Z.even M = true).

(** The binary64 value of sign [s] and magnitude [M * 2^E], for a mantissa
    [M] of at most 53 bits or equal to [2^53]; an exponent above 971 is an
    overflow to infinity. *)
Definition rounded (s : bool) (M E : Z) : spec_float :=
  match M with
  | Z0 => S754_zero s
  | Z.pos m =>
      if (m =? 9007199254740992)%positive then
        if (E + 1 <=? 971)%Z then S754_finite s 4503599627370496 (E + 1)
        else S754_infinity s
      else
        if (E <=? 971)%Z then S754_finite s m E else S754_infinity s
  | Z.neg _ => S754_nan
  end.

(** The order of two rounded magnitudes, read off mantissas and exponents. *)
Definition rounded_order (M1 E1 M2 E2 : Z) : Prop :=
  (E1 = E2 /\ (M1 <= M2)%Z) \/ ((E1 < E2)%Z /\ (2 ^ 52 <= M2)%Z).

(** The number 2 as a binary64 value. *)
Abbreviation SFtwo := (S754_finite false 4503599627370496 (-51)).

(** [2 * h / m] on binary64 values: the width of the health bar's fill. *)
Definition fill_width_SF (h m : spec_float) : spec_float :=
  SF64div (SF64mul SFtwo h) m.

(** The values of sign bit 0, and those of sign bit 1 (NaN is in neither). *)
Definition pos_class (x : spec_float) : Prop :=
  match x with
  | S754_zero false | S754_infinity false | S754_finite false _ _ => True
  | _ => False
  end.

Definition neg_class (x : spec_float) : Prop :=
  match x with
  | S754_zero true | S754_infinity true | S754_finite true _ _ => True
  | _ => False
  end.

Local Close Scope R_scope.

(** ** The data the renderer reads

  Structure-of-arrays collections come from the playback library: a
  logical [length] and one array per attribute.  The arrays are kept as
  lists next to the length, since the loops run to [length] whatever the
  arrays hold.  Type and team codes are small integers. *)

Module Victor.
Record t : Type := { x : number; y : number }.
End Victor.

Module Bodies.
Record t : Type := {
  length : nat;
  type : list Z;
  team : list Z;
  x : list number;
  y : list number;
  health : list number;
  radius : list number
}.
End Bodies.

Module Bullets.
Record t : Type := {
  length : nat;
  x : list number;
  y : list number;
  velX : list number;
  velY : list number;
  spawnedTime : list number
}.
End Bullets.

Module Dots.
Record t : Type := {
  length : nat;
  x : list number;
  y : list number;
  red : list number;
  green : list number;
  blue : list number
}.
End Dots.

Module Lines.
Record t : Type := {
  length : nat;
  startX : list number;
  startY : list number;
  endX : list number;
  endY : list number;
  red : list number;
  green : list number;
  blue : list number
}.
End Lines.

Module GameWorld.
(** [indicatorDots] and [indicatorLines] are the fields whose reads are
    commented out at the head of [renderIndicatorStrings]. *)
Record t : Type := {
  bodies : Bodies.t;
  bullets : Bullets.t;
  minCorner : Victor.t;
  maxCorner : Victor.t;
  turn : number;
  indicatorDots : Dots.t;
  indicatorLines : Lines.t
}.
End GameWorld.

Module NextStep.
(** Of the next step's bodies the renderer reads the [x] and [y] arrays. *)
Record t : Type := {
  bodies_x : list number;
  bodies_y : list number
}.
End NextStep.

Module Metadata.
Record BodyTypeMetadata : Type := { maxHealth : number }.
(** [metadata.types], keyed by body-type code. *)
Record t : Type := { types : gmap Z BodyTypeMetadata }.
End Metadata.

(** The codes of [schema.BodyType] the renderer names; their values belong
  to the schema package. *)
Module Schema.
Record BodyType : Type := {
  ARCHON : Z;
  GARDENER : Z;
  LUMBERJACK : Z;
  RECRUIT : Z;
  SOLDIER : Z;
  TANK : Z;
  SCOUT : Z;
  TREE_BULLET : Z;
  TREE_NEUTRAL : Z
}.
End Schema.

(** ** Constants (renderer.ts, lines 370-381) *)

Definition BULLET_SIZE : number := 0.25%float.
Definition BULLET_SIZE_HALF : number := (BULLET_SIZE / 2)%float.
Definition INDICATOR_DOT_SIZE : number := 0.25%float.
Definition INDICATOR_LINE_WIDTH : number := 0.1%float.
Definition HEALTH_BAR_HEIGHT : number := 0.3%float.
Definition HEALTH_BAR_WIDTH : number := 2%float.
Definition HEALTH_BAR_WIDTH_HALF : number := (HEALTH_BAR_WIDTH / 2)%float.

Definition HIGH_SPEED_THRESH : number := ((2 * 2) - 0.00001)%float.
Definition MED_SPEED_THRESH : number := ((1.5 * 1.5) - 0.00001)%float.

(** [Math.PI] *)
Definition Math_PI : number := 3.141592653589793%float.

(** ** How a method call finishes *)

Inductive JsError : Type := TypeError.

Inductive outcome (A : Type) : Type :=
  | Returned (a : A)
  | Threw (e : JsError).
Arguments Returned {A} a.
Arguments Threw {A} e.

(** ** The canvas 2D context *)

Section Canvas.

(** Handles for decoded images and for the pattern built from one; they
    come from the image loader and from [createPattern]. *)
Context {image : Type}.

Inductive Style : Type :=
  | StyleString (s : string)
  | StylePattern (i : image).

(** One call on (or assignment to a property of) the context. *)
Inductive CtxCall : Type :=
  | Save
  | Restore
  | Scale (sx sy : number)
  | Translate (tx ty : number)
  | SetFillStyle (s : Style)
  | SetStrokeStyle (s : Style)
  | SetLineWidth (w : number)
  | FillRect (x y w h : number)
  | StrokeRect (x y w h : number)
  | DrawImage (img : image) (x y w h : number)
  | BeginPath
  | Arc (x y r a0 a1 : number) (ccw : bool)
  | MoveTo (x y : number)
  | LineTo (x y : number).

(** *** Drawing computations: the calls issued so far and the outcome *)

Definition Draw (A : Type) : Type := (list CtxCall * outcome A)%type.

Definition ret {A} (a : A) : Draw A := ([], Returned a).

Definition bind {A B} (m : Draw A) (f : A -> Draw B) : Draw B :=
  match m with
  | (t, Returned a) => let '(t', r) := f a in (t ++ t', r)
  | (t, Threw e) => (t, Threw e)
  end.

Definition call (c : CtxCall) : Draw unit := ([c], Returned tt).

Definition throw {A} (e : JsError) : Draw A := ([], Threw e).

Definition calls {A} (m : Draw A) : list CtxCall := fst m.
Definition result {A} (m : Draw A) : outcome A := snd m.

(** [for (let i = from; i < from + n; i++) body(i)] *)
Fixpoint for_range (from n : nat) (body : nat -> Draw unit) : Draw unit :=
  match n with
  | O => ret tt
  | S n' => bind (body from) (fun _ => for_range (S from) n' body)
  end.

(** [for (let i = 0; i < length; i++) body(i)] *)
Definition for_upto (length : nat) (body : nat -> Draw unit) : Draw unit :=
  for_range 0 length body.

(** [ctx.drawImage(img, x, y, w, h)]: an [undefined] image is a TypeError. *)
Definition drawImage (img : option image) (x y w h : number) : Draw unit :=
  match img with
  | Some i => call (DrawImage i x y w h)
  | None => throw TypeError
  end.

Notation "m ;; k" := (bind m (fun _ => k))
  (at level 100, k at level 200, right associativity).

(** ** The renderer *)

(** The sprite bundle of the image loader: one image per tree and bullet
    kind, and one table per robot kind, indexed by team. *)
Record AllImages : Type := {
  background : image;
  unknown : image;
  tree_fullHealth : image;
  bullet_fast : image;
  bullet_medium : image;
  bullet_slow : image;
  robot_archon : list image;
  robot_gardener : list image;
  robot_lumberjack : list image;
  robot_recruit : list image;
  robot_soldier : list image;
  robot_tank : list image;
  robot_scout : list image;
  robot_bulletTree : list image
}.

(** [table[team]]: [undefined] unless [team] is an index of the table. *)
Definition sprite_at (table : list image) (team : option Z) : option image :=
  match team with
  | Some t => if 0 <=? t then table !! Z.to_nat t else None
  | None => None
  end.

(** The fields of [this] the drawing methods read; [bgPattern] is the
    image the constructor builds the repeating pattern from. *)
Record Renderer : Type := {
  canvas_width : number;
  imgs : AllImages;
  metadata : Metadata.t;
  bgPattern : image;
  healthBars : bool
}.

(** The constructor, once the 2D context has been obtained. *)
Definition new_Renderer (width : number) (im : AllImages) (md : Metadata.t)
  : Renderer :=
  {| canvas_width := width; imgs := im; metadata := md;
     bgPattern := background im; healthBars := true |}.

Definition toggleHealthBars (this : Renderer) : Renderer :=
  {| canvas_width := canvas_width this; imgs := imgs this;
     metadata := metadata this; bgPattern := bgPattern this;
     healthBars := negb (healthBars this) |}.

(** *** The drawing state and the context

    The drawing state is what [save] pushes and [restore] pops: the current
    transformation, kept as the transformations composed since the
    identity, and the style attributes the renderer assigns. *)

Inductive TransformOp : Type :=
  | TScale (sx sy : number)
  | TTranslate (tx ty : number).

Record DrawState : Type := {
  transform : list TransformOp;
  fillStyle : Style;
  strokeStyle : Style;
  lineWidth : number
}.

Record Ctx : Type := {
  state : DrawState;
  stack : list DrawState;
  path : list CtxCall;
  painted : list (DrawState * CtxCall)
}.

End Canvas.

Arguments Style : clear implicits.
Arguments CtxCall : clear implicits.
Arguments Draw : clear implicits.
Arguments AllImages : clear implicits.
Arguments Renderer : clear implicits.
Arguments DrawState : clear implicits.
Arguments Ctx : clear implicits.

(** ** Sample data

    A schema, a sprite bundle whose images are named by strings, a metadata
    table with entries for the archon (code 0) and the soldier (code 4), and
    a few small worlds. *)

Definition sample_schema : Schema.BodyType :=
  {| Schema.ARCHON := 0; Schema.GARDENER := 1; Schema.LUMBERJACK := 2;
     Schema.RECRUIT := 3; Schema.SOLDIER := 4; Schema.TANK := 5;
     Schema.SCOUT := 6; Schema.TREE_BULLET := 7; Schema.TREE_NEUTRAL := 8 |}.

Definition sample_imgs : AllImages string :=
  {| background := "background"; unknown := "unknown";
     tree_fullHealth := "tree";
     bullet_fast := "bullet_fast"; bullet_medium := "bullet_medium";
     bullet_slow := "bullet_slow";
     robot_archon := ["archon_a"; "archon_b"];
     robot_gardener := ["gardener_a"; "gardener_b"];
     robot_lumberjack := ["lumberjack_a"; "lumberjack_b"];
     robot_recruit := ["recruit_a"; "recruit_b"];
     robot_soldier := ["soldier_a"; "soldier_b"];
     robot_tank := ["tank_a"; "tank_b"];
     robot_scout := ["scout_a"; "scout_b"];
     robot_bulletTree := ["bullet_tree_a"; "bullet_tree_b"] |}%string.

Definition sample_metadata : Metadata.t :=
  {| Metadata.types :=
       {[ 0 := {| Metadata.maxHealth := 400 |};
          4 := {| Metadata.maxHealth := 100 |} ]} |}.

Definition sample_renderer : Renderer string :=
  new_Renderer 800 sample_imgs sample_metadata.

Definition no_bodies : Bodies.t :=
  {| Bodies.length := 0; Bodies.type := []; Bodies.team := [];
     Bodies.x := []; Bodies.y := []; Bodies.health := [];
     Bodies.radius := [] |}.

Definition no_bullets : Bullets.t :=
  {| Bullets.length := 0; Bullets.x := []; Bullets.y := [];
     Bullets.velX := []; Bullets.velY := []; Bullets.spawnedTime := [] |}.

(** The placeholder collections [renderIndicatorStrings] builds in place of
    the world's. *)
Definition no_dots : Dots.t :=
  {| Dots.length := 0; Dots.x := []; Dots.y := [];
     Dots.red := []; Dots.green := []; Dots.blue := [] |}.
Definition no_lines : Lines.t :=
  {| Lines.length := 0; Lines.startX := []; Lines.startY := [];
     Lines.endX := []; Lines.endY := [];
     Lines.red := []; Lines.green := []; Lines.blue := [] |}.

(** A soldier of team 1 at the origin, of radius 1 and health 50, and a body
    of an unknown type (code 42) at [(3,4)]; one projectile spawned at time 0
    at [(1,1)] with velocity [(2,0)]; turn 3. *)
Definition sample_world : GameWorld.t :=
  {| GameWorld.bodies :=
       {| Bodies.length := 2; Bodies.type := [4; 42]; Bodies.team := [1; 0];
          Bodies.x := [0; 3]%float; Bodies.y := [0; 4]%float;
          Bodies.health := [50; 10]%float; Bodies.radius := [1; 2]%float |};
     GameWorld.bullets :=
       {| Bullets.length := 1; Bullets.x := [1%float]; Bullets.y := [1%float];
          Bullets.velX := [2%float]; Bullets.velY := [0%float];
          Bullets.spawnedTime := [0%float] |};
     GameWorld.minCorner := {| Victor.x := 0; Victor.y := 0 |};
     GameWorld.maxCorner := {| Victor.x := 10; Victor.y := 10 |};
     GameWorld.turn := 3;
     GameWorld.indicatorDots := no_dots;
     GameWorld.indicatorLines := no_lines |}.

(** In the next step the soldier has moved to [(10,0)]. *)
Definition sample_next : NextStep.t :=
  {| NextStep.bodies_x := [10; 3]%float; NextStep.bodies_y := [0; 4]%float |}.

(** The sample world with one indicator dot at [(1,2)] in red and one
    indicator line from [(0,0)] to [(3,4)] in blue. *)
Definition annotated_world : GameWorld.t :=
  {| GameWorld.bodies := GameWorld.bodies sample_world;
     GameWorld.bullets := GameWorld.bullets sample_world;
     GameWorld.minCorner := GameWorld.minCorner sample_world;
     GameWorld.maxCorner := GameWorld.maxCorner sample_world;
     GameWorld.turn := GameWorld.turn sample_world;
     GameWorld.indicatorDots :=
       {| Dots.length := 1; Dots.x := [1%float]; Dots.y := [2%float];
          Dots.red := [255%float]; Dots.green := [0%float];
          Dots.blue := [0%float] |};
     GameWorld.indicatorLines :=
       {| Lines.length := 1;
          Lines.startX := [0%float]; Lines.startY := [0%float];
          Lines.endX := [3%float]; Lines.endY := [4%float];
          Lines.red := [0%float]; Lines.green := [0%float];
          Lines.blue := [255%float] |} |}.

(** A next step in which the soldier's [x] coordinate is [Infinity]. *)
Definition runaway_next : NextStep.t :=
  {| NextStep.bodies_x := [infinity; 3]%float;
     NextStep.bodies_y := [0; 4]%float |}.

(** The colour strings a browser accepts, as far as the samples go. *)
Definition sample_valid_color (c : string) : bool :=
  (c =? "green")%string || (c =? "black")%string || (c =? "#000000")%string.

(** A renderer whose metadata gives the soldier a maximum health of -100. *)
Definition inverted_renderer : Renderer string :=
  new_Renderer 800 sample_imgs
    {| Metadata.types := {[ 4 := {| Metadata.maxHealth := -100 |} ]} |}.

Definition sample_view : Victor.t := {| Victor.x := 0; Victor.y := 0 |}.

(** A context in its initial state. *)
Definition sample_ctx : Ctx string :=
  {| state := {| transform := []; fillStyle := StyleString "#000000";
                 strokeStyle := StyleString "#000000"; lineWidth := 1 |};
     stack := []; path := []; painted := [] |}.

(** Three bodies: a soldier of team 1, a soldier of team 5, for which the
    sample bundle has no sprite, and an archon of team 0; no projectile. *)
Definition stray_world : GameWorld.t :=
  {| GameWorld.bodies :=
       {| Bodies.length := 3; Bodies.type := [4; 4; 0];
          Bodies.team := [1; 5; 0];
          Bodies.x := [0; 2; 5]%float; Bodies.y := [0; 2; 5]%float;
          Bodies.health := [50; 60; 300]%float;
          Bodies.radius := [1; 1; 2]%float |};
     GameWorld.bullets := no_bullets;
     GameWorld.minCorner := {| Victor.x := 0; Victor.y := 0 |};
     GameWorld.maxCorner := {| Victor.x := 10; Victor.y := 10 |};
     GameWorld.turn := 3;
     GameWorld.indicatorDots := no_dots;
     GameWorld.indicatorLines := no_lines |}.

(** A world whose collections announce one body and one projectile but
    hold empty arrays. *)
Definition hollow_world : GameWorld.t :=
  {| GameWorld.bodies :=
       {| Bodies.length := 1; Bodies.type := []; Bodies.team := [];
          Bodies.x := []; Bodies.y := []; Bodies.health := [];
          Bodies.radius := [] |};
     GameWorld.bullets :=
       {| Bullets.length := 1; Bullets.x := []; Bullets.y := [];
          Bullets.velX := []; Bullets.velY := [];
          Bullets.spawnedTime := [] |};
     GameWorld.minCorner := {| Victor.x := 0; Victor.y := 0 |};
     GameWorld.maxCorner := {| Victor.x := 10; Victor.y := 10 |};
     GameWorld.turn := 3;
     GameWorld.indicatorDots := no_dots;
     GameWorld.indicatorLines := no_lines |}.

(** The sample world at the turn its projectile is spawned. *)
Definition spawning_world : GameWorld.t :=
  {| GameWorld.bodies := GameWorld.bodies sample_world;
     GameWorld.bullets :=
       {| Bullets.length := 1; Bullets.x := [1%float]; Bullets.y := [1%float];
          Bullets.velX := [2%float]; Bullets.velY := [0%float];
          Bullets.spawnedTime := [3%float] |};
     GameWorld.minCorner := GameWorld.minCorner sample_world;
     GameWorld.maxCorner := GameWorld.maxCorner sample_world;
     GameWorld.turn := 3;
     GameWorld.indicatorDots := no_dots;
     GameWorld.indicatorLines := no_lines |}.

(** A next step in which no body of the sample world has moved. *)
Definition still_next : NextStep.t :=
  {| NextStep.bodies_x := [0; 3]%float; NextStep.bodies_y := [0; 4]%float |}.

(** A renderer whose metadata gives the soldier a maximum health of 0. *)
Definition fragile_renderer : Renderer string :=
  new_Renderer 800 sample_imgs
    {| Metadata.types := {[ 4 := {| Metadata.maxHealth := 0 |} ]} |}.

(** Two projectiles, of velocities [(1,0)] and [(0,2)], and no body. *)
Definition volley_world : GameWorld.t :=
  {| GameWorld.bodies := no_bodies;
     GameWorld.bullets :=
       {| Bullets.length := 2;
          Bullets.x := [1; 2]%float; Bullets.y := [1; 2]%float;
          Bullets.velX := [1; 0]%float; Bullets.velY := [0; 2]%float;
          Bullets.spawnedTime := [0; 1]%float |};
     GameWorld.minCorner := {| Victor.x := 0; Victor.y := 0 |};
     GameWorld.maxCorner := {| Victor.x := 10; Victor.y := 10 |};
     GameWorld.turn := 3;
     GameWorld.indicatorDots := no_dots;
     GameWorld.indicatorLines := no_lines |}.

(** A soldier of team 5, for which the sample bundle has no sprite,
    followed by a body of an unknown type (code 42). *)
Definition blocked_world : GameWorld.t :=
  {| GameWorld.bodies :=
       {| Bodies.length := 2; Bodies.type := [4; 42]; Bodies.team := [5; 0];
          Bodies.x := [0; 3]%float; Bodies.y := [0; 4]%float;
          Bodies.health := [50; 10]%float; Bodies.radius := [1; 2]%float |};
     GameWorld.bullets := no_bullets;
     GameWorld.minCorner := {| Victor.x := 0; Victor.y := 0 |};
     GameWorld.maxCorner := {| Victor.x := 10; Victor.y := 10 |};
     GameWorld.turn := 3;
     GameWorld.indicatorDots := no_dots;
     GameWorld.indicatorLines := no_lines |}.

(** Two projectiles, of velocities [(2,0)] and [(1.999,0)], and no body. *)
Definition paced_world : GameWorld.t :=
  {| GameWorld.bodies := no_bodies;
     GameWorld.bullets :=
       {| Bullets.length := 2;
          Bullets.x := [1; 2]%float; Bullets.y := [1; 2]%float;
          Bullets.velX := [2; 1.999]%float; Bullets.velY := [0; 0]%float;
          Bullets.spawnedTime := [3; 3]%float |};
     GameWorld.minCorner := {| Victor.x := 0; Victor.y := 0 |};
     GameWorld.maxCorner := {| Victor.x := 10; Victor.y := 10 |};
     GameWorld.turn := 3;
     GameWorld.indicatorDots := no_dots;
     GameWorld.indicatorLines := no_lines |}.

(** ** The drawing methods *)

Section Rendering.

Context {image : Type}.

Local Abbreviation Style := (Style image).
Local Abbreviation CtxCall := (CtxCall image).
Local Abbreviation Draw := (Draw image).
Local Abbreviation AllImages := (AllImages image).
Local Abbreviation Renderer := (Renderer image).
Local Abbreviation DrawState := (DrawState image).
Local Abbreviation Ctx := (Ctx image).

Notation "m ;; k" := (bind m (fun _ => k))
  (at level 100, k at level 200, right associativity).

Variable schema : Schema.BodyType.

Definition ARCHON := Schema.ARCHON schema.
Definition GARDENER := Schema.GARDENER schema.
Definition LUMBERJACK := Schema.LUMBERJACK schema.
Definition RECRUIT := Schema.RECRUIT schema.
Definition SOLDIER := Schema.SOLDIER schema.
Definition TANK := Schema.TANK schema.
Definition SCOUT := Schema.SCOUT schema.
Definition TREE_BULLET := Schema.TREE_BULLET schema.
Definition TREE_NEUTRAL := Schema.TREE_NEUTRAL schema.

Variable this : Renderer.

Definition renderBackground (world : GameWorld.t) : Draw unit :=
  call Save ;;
  call (SetFillStyle (StylePattern (bgPattern this))) ;;
  let minX := Victor.x (GameWorld.minCorner world) in
  let minY := Victor.y (GameWorld.minCorner world) in
  let width :=
    (Victor.x (GameWorld.maxCorner world)
     - Victor.x (GameWorld.minCorner world))%float in
  let height :=
    (Victor.y (GameWorld.maxCorner world)
     - Victor.y (GameWorld.minCorner world))%float in
  let scale := 20%float in
  call (Scale (1 / scale) (1 / scale)) ;;
  call (FillRect (minX * scale) (minY * scale)
                 (width * scale) (height * scale)) ;;
  call Restore.

Definition drawHealthBar (x y health : number) (type : option Z)
  : Draw unit :=
  if negb (healthBars this) then ret tt
  else
    match type ≫= (fun k => Metadata.types (metadata this) !! k) with
    | None => ret tt
    | Some bodyType =>
        call (SetFillStyle (StyleString "green")) ;;
        call (FillRect x y
                (HEALTH_BAR_WIDTH * health / Metadata.maxHealth bodyType)
                HEALTH_BAR_HEIGHT) ;;
        call (SetStrokeStyle (StyleString "black")) ;;
        call (SetLineWidth 0.1) ;;
        call (StrokeRect x y HEALTH_BAR_WIDTH HEALTH_BAR_HEIGHT)
    end.

(** Iteration [i] of the loop of [renderBodies].  The [switch] compares
    [types[i]] with the nine codes in the order of its [case] labels. *)
Definition renderBodies_iter (world : GameWorld.t) (i : nat) : Draw unit :=
  let bodies := GameWorld.bodies world in
  let types := Bodies.type bodies in
  let teams := Bodies.team bodies in
  let xs := Bodies.x bodies in
  let ys := Bodies.y bodies in
  let healths := Bodies.health bodies in
  let radii := Bodies.radius bodies in
  let x := num_at xs i in
  let y := num_at ys i in
  let radius := num_at radii i in
  let team := teams !! i in
  let img :=
    match types !! i with
    | Some ty =>
        if ty =? TREE_NEUTRAL then Some (tree_fullHealth (imgs this))
        else if ty =? TREE_BULLET
          then sprite_at (robot_bulletTree (imgs this)) team
        else if ty =? ARCHON
          then sprite_at (robot_archon (imgs this)) team
        else if ty =? GARDENER
          then sprite_at (robot_gardener (imgs this)) team
        else if ty =? LUMBERJACK
          then sprite_at (robot_lumberjack (imgs this)) team
        else if ty =? RECRUIT
          then sprite_at (robot_recruit (imgs this)) team
        else if ty =? SOLDIER
          then sprite_at (robot_soldier (imgs this)) team
        else if ty =? TANK
          then sprite_at (robot_tank (imgs this)) team
        else if ty =? SCOUT
          then sprite_at (robot_scout (imgs this)) team
        else Some (unknown (imgs this))
    | None => Some (unknown (imgs this))
    end in
  drawImage img (x - radius) (y - radius) (radius * 2) (radius * 2) ;;
  drawHealthBar (x - HEALTH_BAR_WIDTH_HALF) (y + radius)
                (num_at healths i) (types !! i).

Definition renderBodies (world : GameWorld.t) : Draw unit :=
  for_upto (Bodies.length (GameWorld.bodies world))
           (renderBodies_iter world).

(** Iteration [i] of the loop of [renderBodiesInterpolated]. *)
Definition renderBodiesInterpolated_iter (world : GameWorld.t)
    (nextStep : NextStep.t) (lerpAmount : number) (i : nat) : Draw unit :=
  let bodies := GameWorld.bodies world in
  let types := Bodies.type bodies in
  let teams := Bodies.team bodies in
  let xs := Bodies.x bodies in
  let ys := Bodies.y bodies in
  let nextXs := NextStep.bodies_x nextStep in
  let nextYs := NextStep.bodies_y nextStep in
  let healths := Bodies.health bodies in
  let radii := Bodies.radius bodies in
  let x := num_at xs i in
  let y := num_at ys i in
  let nextX := num_at nextXs i in
  let nextY := num_at nextYs i in
  let realX := (x + (nextX - x) * lerpAmount)%float in
  let realY := (y + (nextY - y) * lerpAmount)%float in
  let radius := num_at radii i in
  let team := teams !! i in
  let img :=
    match types !! i with
    | Some ty =>
        if ty =? TREE_NEUTRAL then Some (tree_fullHealth (imgs this))
        else if ty =? TREE_BULLET
          then sprite_at (robot_bulletTree (imgs this)) team
        else if ty =? ARCHON
          then sprite_at (robot_archon (imgs this)) team
        else if ty =? GARDENER
          then sprite_at (robot_gardener (imgs this)) team
        else if ty =? LUMBERJACK
          then sprite_at (robot_lumberjack (imgs this)) team
        else if ty =? RECRUIT
          then sprite_at (robot_recruit (imgs this)) team
        else if ty =? SOLDIER
          then sprite_at (robot_soldier (imgs this)) team
        else if ty =? TANK
          then sprite_at (robot_tank (imgs this)) team
        else if ty =? SCOUT
          then sprite_at (robot_scout (imgs this)) team
        else Some (unknown (imgs this))
    | None => Some (unknown (imgs this))
    end in
  drawImage img (realX - radius) (realY - radius)
            (radius * 2) (radius * 2) ;;
  drawHealthBar (realX - HEALTH_BAR_WIDTH_HALF) (realY + radius)
                (num_at healths i) (types !! i).

Definition renderBodiesInterpolated (world : GameWorld.t)
    (nextStep : NextStep.t) (lerpAmount : number) : Draw unit :=
  for_upto (Bodies.length (GameWorld.bodies world))
           (renderBodiesInterpolated_iter world nextStep lerpAmount).

(** Iteration [i] of the loop of [renderBullets]. *)
Definition renderBullets_iter (world : GameWorld.t) (lerpAmount : number)
    (i : nat) : Draw unit :=
  let bullets := GameWorld.bullets world in
  let xs := Bullets.x bullets in
  let ys := Bullets.y bullets in
  let velXs := Bullets.velX bullets in
  let velYs := Bullets.velY bullets in
  let spawnedTimes := Bullets.spawnedTime bullets in
  let velX := num_at velXs i in
  let velY := num_at velYs i in
  let dt :=
    ((GameWorld.turn world + lerpAmount) - num_at spawnedTimes i)%float in
  let x := (num_at xs i + velX * dt)%float in
  let y := (num_at ys i + velY * dt)%float in
  let speedsq := (velX * velX + velY * velY)%float in
  let img :=
    if geb speedsq HIGH_SPEED_THRESH then bullet_fast (imgs this)
    else if geb speedsq MED_SPEED_THRESH then bullet_medium (imgs this)
    else bullet_slow (imgs this) in
  drawImage (Some img) (x - BULLET_SIZE_HALF) (y - BULLET_SIZE_HALF)
            BULLET_SIZE BULLET_SIZE.

Definition renderBullets (world : GameWorld.t) (lerpAmount : number)
  : Draw unit :=
  for_upto (Bullets.length (GameWorld.bullets world))
           (renderBullets_iter world lerpAmount).

(** The two loops of [renderIndicatorStrings], over the collections the
    method binds to [dots] and [lines].  The style string is written in
    single quotes in the source, so it is this text as it stands. *)
Definition renderIndicators (dots : Dots.t) (lines : Lines.t) : Draw unit :=
  let dotsX := Dots.x dots in
  let dotsY := Dots.y dots in
  for_upto (Dots.length dots) (fun i =>
    call BeginPath ;;
    call (Arc (num_at dotsX i) (num_at dotsY i) INDICATOR_DOT_SIZE
              0 (2 * Math_PI) false) ;;
    call (SetFillStyle (StyleString "rgb(${red}, ${green}, ${blue})"))) ;;
  let linesStartX := Lines.startX lines in
  let linesStartY := Lines.startY lines in
  let linesEndX := Lines.endX lines in
  let linesEndY := Lines.endY lines in
  call (SetLineWidth INDICATOR_LINE_WIDTH) ;;
  for_upto (Lines.length lines) (fun i =>
    call BeginPath ;;
    call (MoveTo (num_at linesStartX i) (num_at linesStartY i)) ;;
    call (LineTo (num_at linesEndX i) (num_at linesEndY i)) ;;
    call (SetFillStyle (StyleString "rgb(${red}, ${green}, ${blue})"))).

Definition renderIndicatorStrings (world : GameWorld.t) : Draw unit :=
  let dots := no_dots in
  let lines := no_lines in
  renderIndicators dots lines.

Definition render (world : GameWorld.t) (viewMin : Victor.t)
    (viewWidth : number) (nextStep : option NextStep.t)
    (lerpAmount : option number) : Draw unit :=
  let scale := (canvas_width this / viewWidth)%float in
  call Save ;;
  call (Scale scale scale) ;;
  call (Translate (- Victor.x viewMin) (- Victor.y viewMin)) ;;
  renderBackground world ;;
  match lerpAmount, nextStep with
  | Some lerpAmount, Some nextStep =>
      renderBullets world lerpAmount ;;
      renderBodiesInterpolated world nextStep lerpAmount
  | _, _ =>
      renderBullets world 0 ;;
      renderBodies world
  end ;;
  renderIndicatorStrings world ;;
  call Restore.

(** ** What the context does with the calls

    A setter ignores a value it cannot parse, a transformation ignores
    non-finite arguments, and [restore] on an empty stack does nothing, as
    the canvas specification says.  Which strings are colours is left to
    the browser. *)

Variable valid_color : string -> bool.

Definition valid_style (s : Style) : bool :=
  match s with
  | StyleString c => valid_color c
  | StylePattern _ => true
  end.

Definition with_state (c : Ctx) (s : DrawState) : Ctx :=
  {| state := s; stack := stack c; path := path c; painted := painted c |}.

Definition paint (c : Ctx) (what : CtxCall) : Ctx :=
  {| state := state c; stack := stack c; path := path c;
     painted := painted c ++ [(state c, what)] |}.

Definition extend_path (c : Ctx) (seg : CtxCall) : Ctx :=
  {| state := state c; stack := stack c; path := path c ++ [seg];
     painted := painted c |}.

Definition ctx_step (c : Ctx) (what : CtxCall) : Ctx :=
  let s := state c in
  match what with
  | Save =>
      {| state := s; stack := s :: stack c; path := path c;
         painted := painted c |}
  | Restore =>
      match stack c with
      | top :: rest =>
          {| state := top; stack := rest; path := path c;
             painted := painted c |}
      | [] => c
      end
  | Scale sx sy =>
      if is_finite sx && is_finite sy then
        with_state c
          {| transform := transform s ++ [TScale sx sy];
             fillStyle := fillStyle s; strokeStyle := strokeStyle s;
             lineWidth := lineWidth s |}
      else c
  | Translate tx ty =>
      if is_finite tx && is_finite ty then
        with_state c
          {| transform := transform s ++ [TTranslate tx ty];
             fillStyle := fillStyle s; strokeStyle := strokeStyle s;
             lineWidth := lineWidth s |}
      else c
  | SetFillStyle v =>
      if valid_style v then
        with_state c
          {| transform := transform s; fillStyle := v;
             strokeStyle := strokeStyle s; lineWidth := lineWidth s |}
      else c
  | SetStrokeStyle v =>
      if valid_style v then
        with_state c
          {| transform := transform s; fillStyle := fillStyle s;
             strokeStyle := v; lineWidth := lineWidth s |}
      else c
  | SetLineWidth w =>
      if is_finite w && (0 <? w)%float then
        with_state c
          {| transform := transform s; fillStyle := fillStyle s;
             strokeStyle := strokeStyle s; lineWidth := w |}
      else c
  | FillRect _ _ _ _ | StrokeRect _ _ _ _ | DrawImage _ _ _ _ _ =>
      paint c what
  | BeginPath =>
      {| state := s; stack := stack c; path := []; painted := painted c |}
  | Arc _ _ _ _ _ _ | MoveTo _ _ | LineTo _ _ => extend_path c what
  end.

Definition ctx_run (c : Ctx) (tr : list CtxCall) : Ctx :=
  fold_left ctx_step tr c.

(** ** The passes of a frame *)

Inductive Pass : Type :=
  | ViewSetup | Background | Projectiles | BodiesPass | Overlays | ViewRestore.

Definition pass_rank (p : Pass) : nat :=
  match p with
  | ViewSetup => 0
  | Background => 1
  | Projectiles => 2
  | BodiesPass => 3
  | Overlays => 4
  | ViewRestore => 5
  end%nat.

(** The calls of a method, each labelled with the pass that issued it. *)
Definition issued_by {A} (p : Pass) (m : Draw A) : list (Pass * CtxCall) :=
  map (pair p) (calls m).

(** The frame of [render], pass by pass: what each of the methods it
    calls issues, in the order of the calls in its body.  The overlay pass
    and the final [restore] are reached when the body pass returns. *)
Definition render_passes (world : GameWorld.t) (viewMin : Victor.t)
    (viewWidth : number) (nextStep : option NextStep.t)
    (lerpAmount : option number) : list (Pass * CtxCall) :=
  let scale := (canvas_width this / viewWidth)%float in
  let bodies :=
    match lerpAmount, nextStep with
    | Some lerpAmount, Some nextStep =>
        renderBodiesInterpolated world nextStep lerpAmount
    | _, _ => renderBodies world
    end in
  let bullets :=
    match lerpAmount, nextStep with
    | Some lerpAmount, Some nextStep => renderBullets world lerpAmount
    | _, _ => renderBullets world 0
    end in
  [(ViewSetup, Save); (ViewSetup, Scale scale scale);
   (ViewSetup, Translate (- Victor.x viewMin) (- Victor.y viewMin))]
  ++ issued_by Background (renderBackground world)
  ++ issued_by Projectiles bullets
  ++ issued_by BodiesPass bodies
  ++ match result bodies with
     | Returned _ =>
         issued_by Overlays (renderIndicatorStrings world)
         ++ [(ViewRestore, Restore)]
     | Threw _ => []
     end.

(** ** Comparing two calls as drawings

    Two calls are the same drawing when they are the same operation on
    the same image or style and their numeric arguments are the same
    numbers. *)

Definition same_number (a b : number) : Prop := sameValueZero a b = true.

Definition same_call (c d : CtxCall) : Prop :=
  match c, d with
  | Save, Save | Restore, Restore | BeginPath, BeginPath => True
  | Scale a b, Scale a' b' | Translate a b, Translate a' b'
  | MoveTo a b, MoveTo a' b' | LineTo a b, LineTo a' b' =>
      same_number a a' /\ same_number b b'
  | SetFillStyle s, SetFillStyle s'
  | SetStrokeStyle s, SetStrokeStyle s' => s = s'
  | SetLineWidth w, SetLineWidth w' => same_number w w'
  | FillRect x y w h, FillRect x' y' w' h'
  | StrokeRect x y w h, StrokeRect x' y' w' h' =>
      same_number x x' /\ same_number y y'
      /\ same_number w w' /\ same_number h h'
  | DrawImage i x y w h, DrawImage i' x' y' w' h' =>
      i = i' /\ same_number x x' /\ same_number y y'
      /\ same_number w w' /\ same_number h h'
  | Arc x y r a0 a1 ccw, Arc x' y' r' a0' a1' ccw' =>
      same_number x x' /\ same_number y y' /\ same_number r r'
      /\ same_number a0 a0' /\ same_number a1 a1' /\ ccw = ccw'
  | _, _ => False
  end.

(** Two methods draw the same: the same drawings in the same order, and
    the same way of finishing. *)
Definition same_drawing (m m' : Draw unit) : Prop :=
  Forall2 same_call (calls m) (calls m') /\ result m = result m'.

(** ** Notions the properties are stated with *)

(** The codes the [switch] of the body loops has a [case] for. *)
Definition recognized_codes : list Z :=
  [TREE_NEUTRAL; TREE_BULLET; ARCHON; GARDENER; LUMBERJACK; RECRUIT;
   SOLDIER; TANK; SCOUT].

(** The interpolated draw position of body [i] in the words of the
    specification: [x[i] + (nextX[i]-x[i])*t, y[i] + (nextY[i]-y[i])*t]. *)
Definition lerp_position (world : GameWorld.t) (nextStep : NextStep.t)
    (t : number) (i : nat) : number * number :=
  let x := num_at (Bodies.x (GameWorld.bodies world)) i in
  let y := num_at (Bodies.y (GameWorld.bodies world)) i in
  let nextX := num_at (NextStep.bodies_x nextStep) i in
  let nextY := num_at (NextStep.bodies_y nextStep) i in
  ((x + (nextX - x) * t)%float, (y + (nextY - y) * t)%float).

(** The extrapolated position of projectile [i] in the words of the
    specification: [dt = (turn + t) - spawnedTime[i]], then
    [x[i] + velX[i]*dt, y[i] + velY[i]*dt]. *)
Definition bullet_position (world : GameWorld.t) (t : number) (i : nat)
  : number * number :=
  let bullets := GameWorld.bullets world in
  let dt :=
    ((GameWorld.turn world + t) - num_at (Bullets.spawnedTime bullets) i)%float
  in
  ((num_at (Bullets.x bullets) i + num_at (Bullets.velX bullets) i * dt)%float,
   (num_at (Bullets.y bullets) i + num_at (Bullets.velY bullets) i * dt)%float).

(** The speed tiers of a projectile in the words of the specification:
    squared speed against [4 - 0.00001] and [2.25 - 0.00001], with
    greater-or-equal. *)
Inductive SpeedTier : Type := HighSpeed | MediumSpeed | SlowSpeed.

Definition speed_tier (speedsq : number) : SpeedTier :=
  if geb speedsq (4 - 0.00001) then HighSpeed
  else if geb speedsq (2.25 - 0.00001) then MediumSpeed
  else SlowSpeed.

Definition tier_sprite (tier : SpeedTier) : image :=
  match tier with
  | HighSpeed => bullet_fast (imgs this)
  | MediumSpeed => bullet_medium (imgs this)
  | SlowSpeed => bullet_slow (imgs this)
  end.

(** Two binary64 values that are the same number: equal, or both a zero. *)
Definition sf_same (u v : spec_float) : Prop :=
  u = v \/ (exists s s', u = S754_zero s /\ v = S754_zero s').

(** A labelled call comes no later than another in the back-to-front order
    of the passes. *)
Definition pass_before (a b : Pass * CtxCall) : Prop :=
  (pass_rank a.1 <= pass_rank b.1)%nat.

(** A sequence of calls that leaves the stack of saved states as it finds
    it, from whatever context it starts. *)
Definition stack_neutral (tr : list CtxCall) : Prop :=
  forall c : Ctx, stack (ctx_run c tr) = stack c.

(** A call that neither pushes nor pops the stack of saved states. *)
Definition keeps_stack (c : CtxCall) : bool :=
  match c with
  | Save | Restore => false
  | _ => true
  end.

(** A call that starts or extends the current path. *)
Definition is_path_call (c : CtxCall) : bool :=
  match c with
  | BeginPath | Arc _ _ _ _ _ _ | MoveTo _ _ | LineTo _ _ => true
  | _ => false
  end.

(** A call that paints on the surface. *)
Definition is_paint_call (c : CtxCall) : bool :=
  match c with
  | FillRect _ _ _ _ | StrokeRect _ _ _ _ | DrawImage _ _ _ _ _ => true
  | _ => false
  end.

(** The sprite the [switch] of the body loops selects for body [i], read
    as a function of the world: nothing ([undefined]) when the table of the
    body's kind has no entry for its team. *)
Definition body_sprite (world : GameWorld.t) (i : nat) : option image :=
  let bodies := GameWorld.bodies world in
  let team := Bodies.team bodies !! i in
  match Bodies.type bodies !! i with
  | Some ty =>
      if ty =? TREE_NEUTRAL then Some (tree_fullHealth (imgs this))
      else if ty =? TREE_BULLET
        then sprite_at (robot_bulletTree (imgs this)) team
      else if ty =? ARCHON
        then sprite_at (robot_archon (imgs this)) team
      else if ty =? GARDENER
        then sprite_at (robot_gardener (imgs this)) team
      else if ty =? LUMBERJACK
        then sprite_at (robot_lumberjack (imgs this)) team
      else if ty =? RECRUIT
        then sprite_at (robot_recruit (imgs this)) team
      else if ty =? SOLDIER
        then sprite_at (robot_soldier (imgs this)) team
      else if ty =? TANK
        then sprite_at (robot_tank (imgs this)) team
      else if ty =? SCOUT
        then sprite_at (robot_scout (imgs this)) team
      else Some (unknown (imgs this))
  | None => Some (unknown (imgs this))
  end.

(** The sprite tables the body loops index by team. *)
Definition team_tables : list (list image) :=
  [robot_bulletTree (imgs this); robot_archon (imgs this);
   robot_gardener (imgs this); robot_lumberjack (imgs this);
   robot_recruit (imgs this); robot_soldier (imgs this);
   robot_tank (imgs this); robot_scout (imgs this)].

(** The three projectile sprites. *)
Definition bullet_sprites : list image :=
  [bullet_fast (imgs this); bullet_medium (imgs this);
   bullet_slow (imgs this)].

Definition is_draw_image (c : CtxCall) : bool :=
  match c with
  | DrawImage _ _ _ _ _ => true
  | _ => false
  end.

(** A call that leaves the current transformation and the stack of saved
    states alone. *)
Definition keeps_view (c : CtxCall) : bool :=
  match c with
  | Save | Restore | Scale _ _ | Translate _ _ => false
  | _ => true
  end.

(** The speed tiers from the slowest to the fastest. *)
Definition tier_rank (tier : SpeedTier) : nat :=
  match tier with
  | SlowSpeed => 0
  | MediumSpeed => 1
  | HighSpeed => 2
  end.

(** The bullet pass and the body pass [render] runs, by its arguments. *)
Definition bullet_pass (world : GameWorld.t) (nextStep : option NextStep.t)
    (lerpAmount : option number) : Draw unit :=
  match lerpAmount, nextStep with
  | Some l, Some ns => renderBullets world l
  | _, _ => renderBullets world 0
  end.

Definition body_pass (world : GameWorld.t) (nextStep : option NextStep.t)
    (lerpAmount : option number) : Draw unit :=
  match lerpAmount, nextStep with
  | Some l, Some ns => renderBodiesInterpolated world ns l
  | _, _ => renderBodies world
  end.

(** The transformation in force once [render] has set up the view on the
    context [c]. *)
Definition view_transform (c : Ctx) (viewMin : Victor.t)
    (viewWidth : number) : list TransformOp :=
  let scale := (canvas_width this / viewWidth)%float in
  transform
    (state (ctx_run c [Save; Scale scale scale;
                       Translate (- Victor.x viewMin) (- Victor.y viewMin)])).

(** How many of the [n] bodies from index [from] on a body loop draws:
    those before the first body for which the bundle has no sprite, where
    [drawImage] throws. *)
Fixpoint sprites_found (world : GameWorld.t) (from n : nat) : nat :=
  match n with
  | O => O
  | S n' =>
      match body_sprite world from with
      | Some _ => S (sprites_found world (S from) n')
      | None => O
      end
  end.

Definition bodies_drawn (world : GameWorld.t) : nat :=
  sprites_found world 0 (Bodies.length (GameWorld.bodies world)).

(** The calls that draw body [i] around the position [pos]: its sprite on
    the square of side [radius * 2] centred at [pos], then its health bar
    below it. *)
Definition body_drawing (world : GameWorld.t) (pos : number * number)
    (i : nat) : list CtxCall :=
  let bodies := GameWorld.bodies world in
  let radius := num_at (Bodies.radius bodies) i in
  calls (drawImage (body_sprite world i)
                   (pos.1 - radius) (pos.2 - radius)
                   (radius * 2) (radius * 2) ;;
         drawHealthBar (pos.1 - HEALTH_BAR_WIDTH_HALF) (pos.2 + radius)
                       (num_at (Bodies.health bodies) i)
                       (Bodies.type bodies !! i)).

(** * Properties *)

(** ** Sequencing and loops *)

Lemma calls_bind {A B} (m : Draw A) (f : A -> Draw B) :
  calls (bind m f)
  = calls m ++ match result m with
               | Returned a => calls (f a)
               | Threw _ => []
               end.
Proof.
  destruct m as [t [a | e]]; unfold bind, calls, result; simpl.
  - destruct (f a); reflexivity.
  - now rewrite app_nil_r.
Qed.

Lemma result_bind {A B} (m : Draw A) (f : A -> Draw B) :
  result (bind m f)
  = match result m with
    | Returned a => result (f a)
    | Threw e => Threw e
    end.
Proof.
  destruct m as [t [a | e]]; unfold bind, result; simpl.
  - destruct (f a); reflexivity.
  - reflexivity.
Qed.

Lemma Draw_eta {A} (m : Draw A) : m = (calls m, result m).
Proof. now destruct m. Qed.

Lemma bind_returned {A B} (m : Draw A) (f : A -> Draw B) a :
  result m = Returned a ->
  bind m f = (calls m ++ calls (f a), result (f a)).
Proof.
  intros H. rewrite (Draw_eta (bind m f)), calls_bind, result_bind, H.
  reflexivity.
Qed.

Lemma bind_threw {A B} (m : Draw A) (f : A -> Draw B) e :
  result m = Threw e -> bind m f = (calls m, Threw e).
Proof.
  intros H. rewrite (Draw_eta (bind m f)), calls_bind, result_bind, H.
  now rewrite app_nil_r.
Qed.

(** A loop whose iterations all return issues their calls in turn. *)
Lemma for_range_returns (body : nat -> Draw unit) n : forall from,
  (forall i, (from <= i < from + n)%nat -> result (body i) = Returned tt) ->
  for_range from n body
  = (concat (map (fun i => calls (body i)) (seq from n)), Returned tt).
Proof.
  induction n as [| n IH]; intros from H; simpl.
  - reflexivity.
  - rewrite (bind_returned _ _ tt) by (apply H; lia).
    rewrite IH by (intros i Hi; apply H; lia).
    reflexivity.
Qed.

(** A loop stops at its first iteration that throws. *)
Lemma for_range_throws (body : nat -> Draw unit) e n : forall from k,
  (k < n)%nat ->
  (forall i, (from <= i < from + k)%nat -> result (body i) = Returned tt) ->
  result (body (from + k)%nat) = Threw e ->
  for_range from n body
  = (concat (map (fun i => calls (body i)) (seq from (S k))), Threw e).
Proof.
  induction n as [| n IH]; intros from k Hk Hret Hthrow; [lia |].
  simpl for_range. destruct k as [| k].
  - rewrite Nat.add_0_r in Hthrow.
    rewrite (bind_threw _ _ e) by assumption.
    simpl. now rewrite app_nil_r.
  - rewrite (bind_returned _ _ tt) by (apply Hret; lia).
    rewrite (IH (S from) k); try lia.
    + reflexivity.
    + intros i Hi. apply Hret. lia.
    + now replace (S from + k)%nat with (from + S k)%nat by lia.
Qed.

(** ** Binary64 arithmetic around zero *)

Lemma SFcompare_refl u : u <> S754_nan -> SFcompare u u = Some Eq.
Proof.
  destruct u as [s | s | | s m e]; intros H; try congruence;
    unfold SFcompare.
  - reflexivity.
  - now destruct s.
  - rewrite Z.compare_refl, Pos.compare_cont_refl. now destruct s.
Qed.

Lemma is_nan_SF f : is_nan f = true <-> Prim2SF f = S754_nan.
Proof.
  unfold is_nan. rewrite FloatAxioms.eqb_spec. unfold SFeqb.
  destruct (Prim2SF f) as [s | s | | s m e] eqn:E.
  - simpl. split; discriminate.
  - destruct s; simpl; split; discriminate.
  - simpl. tauto.
  - rewrite SFcompare_refl by discriminate. split; discriminate.
Qed.

Lemma sameValueZero_refl a : sameValueZero a a = true.
Proof. unfold sameValueZero, is_nan. now destruct (a =? a)%float. Qed.

Lemma same_number_SF a b :
  sf_same (Prim2SF a) (Prim2SF b) -> same_number a b.
Proof.
  unfold same_number. intros [E | (s & s' & Ea & Eb)].
  - apply Prim2SF_inj in E. subst. apply sameValueZero_refl.
  - unfold sameValueZero. now rewrite FloatAxioms.eqb_spec, Ea, Eb.
Qed.

Lemma same_number_refl a : same_number a a.
Proof. apply sameValueZero_refl. Qed.

(** A finite number is a zero or a finite nonzero binary64 value. *)
Lemma is_finite_SF f :
  is_finite f = true ->
  (exists s, Prim2SF f = S754_zero s)
  \/ (exists s m e, Prim2SF f = S754_finite s m e).
Proof.
  unfold is_finite. intros H.
  apply negb_true_iff, orb_false_iff in H. destruct H as [Hn Hi].
  unfold is_infinity in Hi.
  rewrite FloatAxioms.eqb_spec, abs_spec in Hi.
  change (Prim2SF infinity) with (S754_infinity false) in Hi.
  destruct (Prim2SF f) as [s | s | | s m e] eqn:E.
  - left; eauto.
  - simpl in Hi. discriminate.
  - apply is_nan_SF in E. congruence.
  - right; eauto.
Qed.

(** Interpolating by a factor of zero over a finite displacement gives
    back the starting coordinate, as a number. *)
Lemma lerp_zero x nx :
  is_finite (nx - x) = true ->
  sf_same (Prim2SF (x + (nx - x) * 0)) (Prim2SF x).
Proof.
  intros H. apply is_finite_SF in H.
  rewrite add_spec, mul_spec.
  change (Prim2SF 0) with (S754_zero false).
  unfold SF64add, SF64mul.
  destruct H as [[s E] | (s & m & e & E)]; rewrite E; simpl SFmul;
    destruct (Prim2SF x) as [sx | sx | | sx mx ex]; simpl;
    try (left; reflexivity);
    destruct sx, s; simpl; try (left; reflexivity); right; eauto.
Qed.

Lemma add_zero_same y : sf_same (Prim2SF (y + 0)) (Prim2SF y).
Proof.
  rewrite add_spec. change (Prim2SF 0) with (S754_zero false).
  unfold SF64add.
  destruct (Prim2SF y) as [s | s | | s m e]; simpl;
    try (left; reflexivity).
  destruct s; [right; eauto | left; reflexivity].
Qed.

Lemma sub_same a b r :
  sf_same (Prim2SF a) (Prim2SF b) ->
  sf_same (Prim2SF (a - r)) (Prim2SF (b - r)).
Proof.
  intros [E | (s & s' & Ea & Eb)].
  - apply Prim2SF_inj in E. subst. now left.
  - rewrite !sub_spec, Ea, Eb. unfold SF64sub.
    destruct (Prim2SF r) as [sr | sr | | sr mr er]; simpl;
      try (left; reflexivity).
    destruct s, s', sr; simpl; try (left; reflexivity); right; eauto.
Qed.

Lemma add_same a b r :
  sf_same (Prim2SF a) (Prim2SF b) ->
  sf_same (Prim2SF (a + r)) (Prim2SF (b + r)).
Proof.
  intros [E | (s & s' & Ea & Eb)].
  - apply Prim2SF_inj in E. subst. now left.
  - rewrite !add_spec, Ea, Eb. unfold SF64add.
    destruct (Prim2SF r) as [sr | sr | | sr mr er]; simpl;
      try (left; reflexivity).
    destruct s, s', sr; simpl; try (left; reflexivity); right; eauto.
Qed.

(** Subtracting a finite nonzero number forgets the sign of a zero. *)
Lemma sub_finite_same a b r s m e :
  Prim2SF r = S754_finite s m e ->
  sf_same (Prim2SF a) (Prim2SF b) ->
  (a - r = b - r)%float.
Proof.
  intros Er [E | (sa & sb & Ea & Eb)].
  - apply Prim2SF_inj in E. now subst.
  - apply Prim2SF_inj. now rewrite !sub_spec, Ea, Eb, Er.
Qed.

(** ** The health bar *)

Lemma drawHealthBar_returns x y health type :
  result (drawHealthBar x y health type) = Returned tt.
Proof.
  unfold drawHealthBar.
  destruct (negb (healthBars this)); [reflexivity |].
  destruct (type ≫= _); reflexivity.
Qed.

(** C5. For a body-type code with no entry in the metadata table,
    [drawHealthBar] issues no call on the context and returns normally,
    whatever the position and the health; the context is left as it was. *)
Theorem drawHealthBar_without_metadata (x y health : number) (type : Z) :
  Metadata.types (metadata this) !! type = None ->
  drawHealthBar x y health (Some type) = ([], Returned tt)
  /\ forall c : Ctx,
       ctx_run c (calls (drawHealthBar x y health (Some type))) = c.
Proof.
  intros Hnone.
  assert (E : drawHealthBar x y health (Some type) = ([], Returned tt)).
  { unfold drawHealthBar. simpl. rewrite Hnone.
    now destruct (negb (healthBars this)). }
  split; [exact E |]. intros c. now rewrite E.
Qed.

(** ** The iterations of the projectile loop *)

Lemma renderBullets_iter_returns world t i :
  result (renderBullets_iter world t i) = Returned tt.
Proof. reflexivity. Qed.

(** ** Interpolating by zero *)

Lemma same_drawing_bind (m m' k k' : Draw unit) :
  same_drawing m m' -> same_drawing k k' ->
  same_drawing (m ;; k) (m' ;; k').
Proof.
  unfold same_drawing. intros [Hc Hr] [Hc' Hr'].
  rewrite !calls_bind, !result_bind, <- Hr.
  destruct (result m) as [[] | e].
  - split; [now apply Forall2_app | assumption].
  - split; [apply Forall2_app; [assumption | constructor] | reflexivity].
Qed.

Lemma same_drawing_for_range (body body' : nat -> Draw unit) n :
  forall from,
  (forall i, (from <= i < from + n)%nat -> same_drawing (body i) (body' i)) ->
  same_drawing (for_range from n body) (for_range from n body').
Proof.
  induction n as [| n IH]; intros from H; simpl.
  - split; [constructor | reflexivity].
  - apply same_drawing_bind; [apply H; lia |].
    apply IH. intros i Hi. apply H. lia.
Qed.

Lemma same_drawing_drawImage img x y w h x' y' :
  same_number x x' -> same_number y y' ->
  same_drawing (drawImage img x y w h) (drawImage img x' y' w h).
Proof.
  intros Hx Hy. destruct img as [im |]; simpl.
  - split; [| reflexivity]. repeat constructor; auto using same_number_refl.
  - split; [constructor | reflexivity].
Qed.

Lemma same_drawing_drawHealthBar x y x' y' health type :
  same_number x x' -> same_number y y' ->
  same_drawing (drawHealthBar x y health type)
               (drawHealthBar x' y' health type).
Proof.
  intros Hx Hy. unfold drawHealthBar.
  destruct (negb (healthBars this)); [split; [constructor | reflexivity] |].
  destruct (type ≫= _) as [bodyType |];
    [| split; [constructor | reflexivity]].
  split; [| reflexivity]. simpl.
  repeat constructor; auto using same_number_refl.
Qed.

Lemma same_drawing_iter_zero world nextStep i :
  is_finite (num_at (NextStep.bodies_x nextStep) i
             - num_at (Bodies.x (GameWorld.bodies world)) i) = true ->
  is_finite (num_at (NextStep.bodies_y nextStep) i
             - num_at (Bodies.y (GameWorld.bodies world)) i) = true ->
  same_drawing (renderBodiesInterpolated_iter world nextStep 0 i)
               (renderBodies_iter world i).
Proof.
  intros Hx Hy. apply lerp_zero in Hx, Hy.
  unfold renderBodiesInterpolated_iter, renderBodies_iter. cbv zeta.
  apply same_drawing_bind.
  - apply same_drawing_drawImage; now apply same_number_SF, sub_same.
  - apply same_drawing_drawHealthBar; apply same_number_SF;
      [now apply sub_same | now apply add_same].
Qed.

(** C1 (as amended). When every body's displacement to the next step is a
    finite number, the interpolated body loop with factor 0 draws what the
    plain body loop draws: the same sprites and health bars at the same
    positions, in the same order. *)
Theorem interpolation_at_zero_is_identity (world : GameWorld.t)
    (nextStep : NextStep.t) :
  (forall i, (i < Bodies.length (GameWorld.bodies world))%nat ->
     is_finite (num_at (NextStep.bodies_x nextStep) i
                - num_at (Bodies.x (GameWorld.bodies world)) i) = true
     /\ is_finite (num_at (NextStep.bodies_y nextStep) i
                   - num_at (Bodies.y (GameWorld.bodies world)) i) = true) ->
  same_drawing (renderBodiesInterpolated world nextStep 0)
               (renderBodies world).
Proof.
  intros Hfin. unfold renderBodiesInterpolated, renderBodies, for_upto.
  apply same_drawing_for_range. intros i Hi.
  destruct (Hfin i) as [Hx Hy]; [lia |].
  now apply same_drawing_iter_zero.
Qed.

(** ** The frame as a whole *)

Lemma renderBackground_eq world :
  renderBackground world
  = ([Save;
      SetFillStyle (StylePattern (bgPattern this));
      Scale (1 / 20) (1 / 20);
      FillRect (Victor.x (GameWorld.minCorner world) * 20)
               (Victor.y (GameWorld.minCorner world) * 20)
               ((Victor.x (GameWorld.maxCorner world)
                 - Victor.x (GameWorld.minCorner world)) * 20)
               ((Victor.y (GameWorld.maxCorner world)
                 - Victor.y (GameWorld.minCorner world)) * 20);
      Restore],
     Returned tt).
Proof. reflexivity. Qed.

Lemma renderBullets_returns world t :
  renderBullets world t
  = (concat (map (fun i => calls (renderBullets_iter world t i))
                 (seq 0 (Bullets.length (GameWorld.bullets world)))),
     Returned tt).
Proof.
  unfold renderBullets, for_upto. apply for_range_returns.
  intros i _. apply renderBullets_iter_returns.
Qed.

Lemma renderIndicatorStrings_eq world :
  renderIndicatorStrings world
  = ([SetLineWidth INDICATOR_LINE_WIDTH], Returned tt).
Proof. reflexivity. Qed.

(** The calls of [render] are those of its passes, one after the other. *)
Lemma render_calls world viewMin viewWidth nextStep lerpAmount :
  calls (render world viewMin viewWidth nextStep lerpAmount)
  = map snd (render_passes world viewMin viewWidth nextStep lerpAmount).
Proof.
  unfold render, render_passes, issued_by. cbv zeta.
  rewrite !map_app, !map_map. simpl map. rewrite !map_id.
  rewrite (bind_returned _ _ tt) by reflexivity.
  rewrite (bind_returned _ _ tt) by reflexivity.
  rewrite (bind_returned _ _ tt) by reflexivity.
  rewrite (bind_returned _ _ tt) by reflexivity.
  unfold calls at 1. simpl fst.
  assert (Hb : forall t, result (renderBullets world t) = Returned tt)
    by (intros t; now rewrite renderBullets_returns).
  destruct lerpAmount as [l |], nextStep as [ns |];
    rewrite !calls_bind, !result_bind, Hb;
    match goal with
    | |- context [result ?m] => destruct (result m) as [[] | e]
    end;
    rewrite ?renderIndicatorStrings_eq; simpl;
    rewrite ?app_nil_r, <- ?app_assoc; reflexivity.
Qed.

Lemma render_result world viewMin viewWidth nextStep lerpAmount :
  result (render world viewMin viewWidth nextStep lerpAmount)
  = result match lerpAmount, nextStep with
           | Some l, Some ns => renderBodiesInterpolated world ns l
           | _, _ => renderBodies world
           end.
Proof.
  unfold render. cbv zeta.
  assert (Hb : forall t, result (renderBullets world t) = Returned tt)
    by (intros t; now rewrite renderBullets_returns).
  rewrite !result_bind. simpl.
  destruct lerpAmount as [l |], nextStep as [ns |];
    rewrite !result_bind, Hb;
    match goal with
    | |- context [result ?m] => destruct (result m) as [[] | e]
    end; reflexivity.
Qed.

(** ** The order of the passes *)

Lemma issued_by_label {A} p (m : Draw A) x : x ∈ issued_by p m -> x.1 = p.
Proof.
  unfold issued_by. intros H. apply list_elem_of_fmap in H.
  destruct H as (c & -> & _). reflexivity.
Qed.

Lemma issued_by_sorted {A} p (m : Draw A) :
  StronglySorted pass_before (issued_by p m).
Proof.
  unfold issued_by. induction (calls m) as [| c l IH]; simpl.
  - constructor.
  - constructor; [assumption |].
    apply Forall_forall. intros x Hx.
    apply list_elem_of_fmap in Hx. destruct Hx as (d & -> & _).
    unfold pass_before. simpl. lia.
Qed.

Lemma sorted_segments (l1 l2 : list (Pass * CtxCall)) k :
  StronglySorted pass_before l1 -> StronglySorted pass_before l2 ->
  (forall x, x ∈ l1 -> (pass_rank x.1 <= k)%nat) ->
  (forall x, x ∈ l2 -> (k <= pass_rank x.1)%nat) ->
  StronglySorted pass_before (l1 ++ l2).
Proof.
  intros H1 H2 Hle Hge. apply StronglySorted_app. repeat split; try assumption.
  intros x1 x2 Hx1 Hx2. unfold pass_before.
  specialize (Hle _ Hx1). specialize (Hge _ Hx2). lia.
Qed.

Lemma render_passes_sorted world viewMin viewWidth nextStep lerpAmount :
  StronglySorted pass_before
    (render_passes world viewMin viewWidth nextStep lerpAmount).
Proof.
  unfold render_passes. cbv zeta.
  set (bodies := match lerpAmount, nextStep with
                 | Some l, Some ns => renderBodiesInterpolated world ns l
                 | _, _ => renderBodies world
                 end).
  set (bullets := match lerpAmount, nextStep with
                  | Some l, Some ns => renderBullets world l
                  | _, _ => renderBullets world 0
                  end).
  assert (Htail : StronglySorted pass_before
                    match result bodies with
                    | Returned _ =>
                        issued_by Overlays (renderIndicatorStrings world)
                        ++ [(ViewRestore, Restore)]
                    | Threw _ => []
                    end
                  /\ forall x, x ∈ match result bodies with
                                   | Returned _ =>
                                       issued_by Overlays
                                         (renderIndicatorStrings world)
                                       ++ [(ViewRestore, Restore)]
                                   | Threw _ => []
                                   end -> (4 <= pass_rank x.1)%nat).
  { destruct (result bodies) as [[] | e].
    - split.
      + apply (sorted_segments _ _ 4); [apply issued_by_sorted | repeat constructor | |].
        * intros x Hx. apply issued_by_label in Hx. rewrite Hx. simpl. lia.
        * intros x Hx. apply list_elem_of_singleton in Hx. subst. simpl. lia.
      + intros x Hx. apply elem_of_app in Hx. destruct Hx as [Hx | Hx].
        * apply issued_by_label in Hx. rewrite Hx. simpl. lia.
        * apply list_elem_of_singleton in Hx. subst. simpl. lia.
    - split; [constructor |]. intros x Hx. inversion Hx. }
  destruct Htail as [Htail Hge4].
  apply (sorted_segments _ _ 0).
  - repeat constructor; unfold pass_before; simpl; lia.
  - apply (sorted_segments _ _ 1); [apply issued_by_sorted | | |].
    + apply (sorted_segments _ _ 2); [apply issued_by_sorted | | |].
      * apply (sorted_segments _ _ 3);
          [apply issued_by_sorted | assumption | |].
        -- intros x Hx. apply issued_by_label in Hx. rewrite Hx. simpl. lia.
        -- intros x Hx. specialize (Hge4 _ Hx). lia.
      * intros x Hx. apply issued_by_label in Hx. rewrite Hx. simpl. lia.
      * intros x Hx. apply elem_of_app in Hx. destruct Hx as [Hx | Hx].
        -- apply issued_by_label in Hx. rewrite Hx. simpl. lia.
        -- specialize (Hge4 _ Hx). lia.
    + intros x Hx. apply issued_by_label in Hx. rewrite Hx. simpl. lia.
    + intros x Hx. repeat (apply elem_of_app in Hx; destruct Hx as [Hx | Hx]);
        try (apply issued_by_label in Hx; rewrite Hx; simpl; lia).
      specialize (Hge4 _ Hx). lia.
  - intros x Hx.
    repeat (apply elem_of_cons in Hx; destruct Hx as [-> | Hx]);
      simpl; try lia. inversion Hx.
  - intros x Hx. lia.
Qed.

Lemma StronglySorted_lookup {A} (R : A -> A -> Prop) (l : list A) :
  StronglySorted R l ->
  forall i j a b, (i < j)%nat -> l !! i = Some a -> l !! j = Some b -> R a b.
Proof.
  induction 1 as [| x l Hl IH Hx]; intros i j a b Hij Ha Hb.
  - discriminate.
  - destruct j as [| j]; [lia |]. simpl in Hb. destruct i as [| i].
    + simpl in Ha. injection Ha as <-.
      rewrite Forall_forall in Hx. apply Hx. eapply list_elem_of_lookup_2, Hb.
    + simpl in Ha. apply (IH i j); [lia | assumption | assumption].
Qed.

(** C8. The calls of [render] are those of its passes in the fixed order:
    view set-up, background, projectiles, bodies (interpolated or not),
    overlays, view restore.  In the sequence of calls no call of a later
    pass comes before a call of an earlier one: an overlay call never
    precedes a body call, nor a body call a projectile or background
    call. *)
Theorem render_draws_back_to_front (world : GameWorld.t) (viewMin : Victor.t)
    (viewWidth : number) (nextStep : option NextStep.t)
    (lerpAmount : option number) :
  let passes := render_passes world viewMin viewWidth nextStep lerpAmount in
  calls (render world viewMin viewWidth nextStep lerpAmount) = map snd passes
  /\ StronglySorted pass_before passes
  /\ forall i j p q c d,
       (i < j)%nat -> passes !! i = Some (p, c) -> passes !! j = Some (q, d) ->
       (pass_rank p <= pass_rank q)%nat.
Proof.
  cbv zeta. split; [apply render_calls | split].
  - apply render_passes_sorted.
  - intros i j p q c d Hij Hi Hj.
    apply (StronglySorted_lookup pass_before _
             (render_passes_sorted world viewMin viewWidth nextStep lerpAmount)
             i j (p, c) (q, d) Hij Hi Hj).
Qed.

(** ** Saving and restoring the drawing state *)

Lemma ctx_run_app c tr tr' :
  ctx_run c (tr ++ tr') = ctx_run (ctx_run c tr) tr'.
Proof. apply fold_left_app. Qed.

Lemma ctx_step_keeps_stack c what :
  keeps_stack what = true -> stack (ctx_step c what) = stack c.
Proof.
  destruct what; simpl; try discriminate; intros _;
    repeat match goal with
           | |- context [if ?b then _ else _] => destruct b
           end; reflexivity.
Qed.

Lemma keeps_stack_neutral tr :
  Forall (fun what => keeps_stack what = true) tr -> stack_neutral tr.
Proof.
  induction 1 as [| what tr Hwhat _ IH]; intros c; simpl.
  - reflexivity.
  - unfold stack_neutral in IH. unfold ctx_run in *. simpl.
    rewrite IH. now apply ctx_step_keeps_stack.
Qed.

Lemma stack_neutral_app tr tr' :
  stack_neutral tr -> stack_neutral tr' -> stack_neutral (tr ++ tr').
Proof.
  intros H H' c. rewrite ctx_run_app, H'. apply H.
Qed.

(** What is drawn between a [save] and the matching [restore] leaves both
    the drawing state and the stack as they were. *)
Lemma save_restore_bracket tr c :
  stack_neutral tr ->
  state (ctx_run c (Save :: tr ++ [Restore])) = state c
  /\ stack (ctx_run c (Save :: tr ++ [Restore])) = stack c.
Proof.
  intros H. change (Save :: tr ++ [Restore]) with ([Save] ++ tr ++ [Restore]).
  rewrite !ctx_run_app.
  set (c1 := ctx_run c [Save]).
  assert (Hs : stack (ctx_run c1 tr) = state c :: stack c) by now rewrite H.
  unfold ctx_run at 1 3. simpl. rewrite Hs. simpl. now split.
Qed.

Lemma bracket_neutral tr :
  stack_neutral tr -> stack_neutral (Save :: tr ++ [Restore]).
Proof. intros H c. now apply save_restore_bracket. Qed.

Lemma for_range_calls_Forall (P : CtxCall -> Prop) (body : nat -> Draw unit)
    n : forall from,
  (forall i, Forall P (calls (body i))) ->
  Forall P (calls (for_range from n body)).
Proof.
  induction n as [| n IH]; intros from H; simpl.
  - constructor.
  - rewrite calls_bind. apply Forall_app. split; [apply H |].
    destruct (result (body from)); [now apply IH | constructor].
Qed.

Lemma drawImage_keeps_stack img x y w h :
  Forall (fun what => keeps_stack what = true) (calls (drawImage img x y w h)).
Proof. destruct img; repeat constructor. Qed.

Lemma drawHealthBar_keeps_stack x y health type :
  Forall (fun what => keeps_stack what = true)
         (calls (drawHealthBar x y health type)).
Proof.
  unfold drawHealthBar.
  destruct (negb (healthBars this)); [constructor |].
  destruct (type ≫= _); repeat constructor.
Qed.

Lemma bind_keeps_stack (m k : Draw unit) :
  Forall (fun what => keeps_stack what = true) (calls m) ->
  Forall (fun what => keeps_stack what = true) (calls k) ->
  Forall (fun what => keeps_stack what = true) (calls (m ;; k)).
Proof.
  intros Hm Hk. rewrite calls_bind. apply Forall_app. split; [assumption |].
  destruct (result m); [assumption | constructor].
Qed.

Lemma renderBodies_neutral world : stack_neutral (calls (renderBodies world)).
Proof.
  apply keeps_stack_neutral, for_range_calls_Forall. intros i.
  apply bind_keeps_stack;
    [apply drawImage_keeps_stack | apply drawHealthBar_keeps_stack].
Qed.

Lemma renderBodiesInterpolated_neutral world nextStep t :
  stack_neutral (calls (renderBodiesInterpolated world nextStep t)).
Proof.
  apply keeps_stack_neutral, for_range_calls_Forall. intros i.
  apply bind_keeps_stack;
    [apply drawImage_keeps_stack | apply drawHealthBar_keeps_stack].
Qed.

Lemma renderBullets_neutral world t :
  stack_neutral (calls (renderBullets world t)).
Proof.
  apply keeps_stack_neutral, for_range_calls_Forall. intros i.
  repeat constructor.
Qed.

Lemma renderBackground_neutral world :
  stack_neutral (calls (renderBackground world)).
Proof.
  rewrite renderBackground_eq. unfold calls. simpl fst.
  apply (bracket_neutral [_; _; _]).
  apply keeps_stack_neutral. repeat constructor.
Qed.

(** What [render] issues between its [save] and its [restore]. *)
Lemma render_calls_returned world viewMin viewWidth nextStep lerpAmount :
  result (render world viewMin viewWidth nextStep lerpAmount) = Returned tt ->
  calls (render world viewMin viewWidth nextStep lerpAmount)
  = Save
    :: ([Scale (canvas_width this / viewWidth) (canvas_width this / viewWidth);
         Translate (- Victor.x viewMin) (- Victor.y viewMin)]
        ++ calls (renderBackground world)
        ++ calls match lerpAmount, nextStep with
                 | Some l, Some ns => renderBullets world l
                 | _, _ => renderBullets world 0
                 end
        ++ calls match lerpAmount, nextStep with
                 | Some l, Some ns => renderBodiesInterpolated world ns l
                 | _, _ => renderBodies world
                 end
        ++ calls (renderIndicatorStrings world))
    ++ [Restore].
Proof.
  intros Hret. rewrite render_result in Hret.
  rewrite render_calls. unfold render_passes, issued_by. cbv zeta.
  rewrite Hret. rewrite !map_app, !map_map. simpl map. rewrite !map_id.
  simpl. rewrite <- ?app_assoc. reflexivity.
Qed.

(** C7. When [render] returns, the drawing state of the context and its
    stack of saved states are what they were before the call: [render]
    issues [save] first and [restore] last, and nothing in between leaves
    the stack changed.  The background pass does the same around its own
    change of scale and fill style. *)
Theorem render_restores_drawing_state (c : Ctx) (world : GameWorld.t)
    (viewMin : Victor.t) (viewWidth : number) (nextStep : option NextStep.t)
    (lerpAmount : option number) :
  result (render world viewMin viewWidth nextStep lerpAmount) = Returned tt ->
  let frame := calls (render world viewMin viewWidth nextStep lerpAmount) in
  let background := calls (renderBackground world) in
  (exists between, frame = Save :: between ++ [Restore])
  /\ state (ctx_run c frame) = state c
  /\ stack (ctx_run c frame) = stack c
  /\ (exists between, background = Save :: between ++ [Restore])
  /\ forall c' : Ctx,
       state (ctx_run c' background) = state c'
       /\ stack (ctx_run c' background) = stack c'.
Proof.
  intros Hret. cbv zeta.
  rewrite (render_calls_returned _ _ _ _ _ Hret).
  match goal with
  | |- context [Save :: ?tr ++ [Restore]] => set (between := tr)
  end.
  assert (Hneutral : stack_neutral between).
  { unfold between.
    apply stack_neutral_app;
      [apply keeps_stack_neutral; repeat constructor |].
    apply stack_neutral_app; [apply renderBackground_neutral |].
    apply stack_neutral_app;
      [destruct lerpAmount, nextStep; apply renderBullets_neutral |].
    apply stack_neutral_app.
    - destruct lerpAmount, nextStep;
        first [apply renderBodiesInterpolated_neutral
              | apply renderBodies_neutral].
    - rewrite renderIndicatorStrings_eq.
      apply keeps_stack_neutral. repeat constructor. }
  split; [now exists between |].
  destruct (save_restore_bracket between c Hneutral) as [Hstate Hstack].
  split; [assumption | split; [assumption |]].
  rewrite renderBackground_eq. unfold calls. simpl fst.
  split; [now eexists [_; _; _] |].
  intros c'. apply (save_restore_bracket [_; _; _]).
  apply keeps_stack_neutral. repeat constructor.
Qed.

(** ** The annotation overlays *)

(** C9 (as amended). The overlay pass reads no dots and no lines from the
    world: it runs its two loops over the empty placeholder collections, so
    for every world its only call sets the line width to
    [INDICATOR_LINE_WIDTH]; it starts no path, paints nothing, and returns
    normally. *)
Theorem overlay_pass_draws_nothing (world : GameWorld.t) :
  renderIndicatorStrings world = renderIndicators no_dots no_lines
  /\ renderIndicatorStrings world
     = ([SetLineWidth INDICATOR_LINE_WIDTH], Returned tt)
  /\ Forall (fun what => is_path_call what = false
                         /\ is_paint_call what = false)
            (calls (renderIndicatorStrings world))
  /\ forall c : Ctx,
       painted (ctx_run c (calls (renderIndicatorStrings world))) = painted c
       /\ path (ctx_run c (calls (renderIndicatorStrings world))) = path c.
Proof.
  split; [reflexivity |].
  rewrite renderIndicatorStrings_eq. split; [reflexivity |].
  unfold calls. simpl fst. split.
  - repeat constructor.
  - intros c. unfold ctx_run. simpl.
    destruct (is_finite INDICATOR_LINE_WIDTH && (0 <? INDICATOR_LINE_WIDTH)%float);
      split; reflexivity.
Qed.

(** ** Rounding in binary64

    The rounding of [SpecFloat] is characterized on real numbers: a located
    magnitude is rounded to the nearest value of the format, ties to even,
    so rounding is monotone.  Doubling and division are then monotone, and
    a quotient above [2 + 2^-52] rounds above 2. *)

Section Binary64Rounding.

Local Open Scope R_scope.

Lemma bpow_gt_0 e : 0 < bpow e.
Proof. apply powerRZ_lt. lra. Qed.

Lemma bpow_add e1 e2 : bpow (e1 + e2) = bpow e1 * bpow e2.
Proof. apply powerRZ_add. lra. Qed.

Lemma bpow_0 : bpow 0 = 1.
Proof. reflexivity. Qed.

Lemma bpow_1 : bpow 1 = 2.
Proof. unfold bpow. simpl. lra. Qed.

Lemma bpow_succ e : bpow (e + 1) = 2 * bpow e.
Proof. rewrite bpow_add, bpow_1. lra. Qed.

Lemma bpow_ge_1 d : (0 <= d)%Z -> 1 <= bpow d.
Proof.
  intros H. pattern d. apply natlike_ind; [rewrite bpow_0; lra | | exact H].
  intros x Hx IH. unfold Z.succ. rewrite bpow_succ. lra.
Qed.

Lemma bpow_le e1 e2 : (e1 <= e2)%Z -> bpow e1 <= bpow e2.
Proof.
  intros H. replace e2 with (e1 + (e2 - e1))%Z by lia.
  rewrite bpow_add.
  pose proof (bpow_ge_1 (e2 - e1) ltac:(lia)).
  pose proof (bpow_gt_0 e1). nra.
Qed.

Lemma bpow_lt e1 e2 : (e1 < e2)%Z -> bpow e1 < bpow e2.
Proof.
  intros H. pose proof (bpow_le (e1 + 1) e2 ltac:(lia)) as H1.
  rewrite bpow_succ in H1. pose proof (bpow_gt_0 e1). lra.
Qed.

Lemma bpow_lt_inv e1 e2 : bpow e1 < bpow e2 -> (e1 < e2)%Z.
Proof.
  intros H. destruct (Z_lt_le_dec e1 e2) as [|Hle]; [assumption |].
  apply bpow_le in Hle. lra.
Qed.

Lemma IZR_pow2 k : (0 <= k)%Z -> IZR (2 ^ k) = bpow k.
Proof.
  intros H. pattern k. apply natlike_ind; [reflexivity | | exact H].
  intros x Hx IH. unfold Z.succ. rewrite Z.pow_add_r, mult_IZR, IH by lia.
  rewrite bpow_succ. simpl. lra.
Qed.

(** digits *)
Lemma digits2_pos_bounds p :
  (2 ^ (Z.pos (digits2_pos p) - 1) <= Z.pos p < 2 ^ Z.pos (digits2_pos p))%Z.
Proof.
  induction p as [p IH | p IH |]; simpl digits2_pos.
  - rewrite Pos2Z.inj_succ. unfold Z.succ.
    replace (Z.pos (digits2_pos p) + 1 - 1)%Z with (Z.pos (digits2_pos p) - 1 + 1)%Z by lia.
    rewrite !Z.pow_add_r by lia. change (2 ^ 1)%Z with 2%Z. lia.
  - rewrite Pos2Z.inj_succ. unfold Z.succ.
    replace (Z.pos (digits2_pos p) + 1 - 1)%Z with (Z.pos (digits2_pos p) - 1 + 1)%Z by lia.
    rewrite !Z.pow_add_r by lia. change (2 ^ 1)%Z with 2%Z. lia.
  - simpl. lia.
Qed.

Lemma Zdigits2_bounds q :
  (0 < q)%Z ->
  bpow (Zdigits2 q - 1) <= IZR q < bpow (Zdigits2 q).
Proof.
  intros H. destruct q as [| p | p]; try lia. simpl Zdigits2.
  pose proof (digits2_pos_bounds p) as [H1 H2].
  rewrite <- !IZR_pow2 by lia. split; [apply IZR_le | apply IZR_lt]; assumption.
Qed.

Lemma shr_1_located r mrs e :
  (0 <= shr_m mrs)%Z ->
  located r (shr_m mrs) e (loc_of_shr_record mrs) ->
  located r (shr_m (shr_1 mrs)) (e + 1) (loc_of_shr_record (shr_1 mrs)).
Proof.
  destruct mrs as [m rb sb]. simpl shr_m. intros Hm.
  destruct m as [| p | p]; [| | exfalso; revert Hm; clear; lia].
  - pose proof (bpow_gt_0 e) as HB. pose proof (bpow_succ e) as HS.
    destruct rb, sb; unfold shr_1, loc_of_shr_record, located, shr_m, orb;
      rewrite HS; set (B := bpow e) in *; intros H; lra.
  - pose proof (bpow_gt_0 e) as HB. pose proof (bpow_succ e) as HS.
    destruct p as [p | p |];
      destruct rb, sb; unfold shr_1, loc_of_shr_record, located, shr_m, orb;
      try rewrite (IZR_POS_xO p); try rewrite (IZR_POS_xI p); rewrite HS;
      set (B := bpow e) in *; intros H; lra.
Qed.

Lemma shr_1_nonneg mrs : (0 <= shr_m mrs)%Z -> (0 <= shr_m (shr_1 mrs))%Z.
Proof.
  destruct mrs as [m r st]. simpl.
  destruct m as [| [p | p |] | p]; simpl; lia.
Qed.

Lemma iter_shr_1_located p : forall r mrs e,
  (0 <= shr_m mrs)%Z ->
  located r (shr_m mrs) e (loc_of_shr_record mrs) ->
  located r (shr_m (SpecFloat.iter_pos shr_1 p mrs)) (e + Z.pos p)
          (loc_of_shr_record (SpecFloat.iter_pos shr_1 p mrs))
  /\ (0 <= shr_m (SpecFloat.iter_pos shr_1 p mrs))%Z.
Proof.
  induction p as [p IH | p IH |]; intros r mrs e Hm H; simpl SpecFloat.iter_pos.
  - destruct (IH r (shr_1 mrs) (e + 1)%Z) as [H1 Hm1];
      [now apply shr_1_nonneg | now apply shr_1_located |].
    destruct (IH r _ _ Hm1 H1) as [H2 Hm2].
    split; [| exact Hm2].
    replace (e + Z.pos p~1)%Z with (e + 1 + Z.pos p + Z.pos p)%Z by lia.
    exact H2.
  - destruct (IH r mrs e Hm H) as [H1 Hm1].
    destruct (IH r _ _ Hm1 H1) as [H2 Hm2].
    split; [| exact Hm2].
    replace (e + Z.pos p~0)%Z with (e + Z.pos p + Z.pos p)%Z by lia.
    exact H2.
  - split; [now apply shr_1_located | now apply shr_1_nonneg].
Qed.

Lemma located_record r m e l :
  located r m e l ->
  located r (shr_m (shr_record_of_loc m l)) e
          (loc_of_shr_record (shr_record_of_loc m l)).
Proof. destruct l as [| []]; exact (fun H => H). Qed.

Lemma shr_m_record m l : shr_m (shr_record_of_loc m l) = m.
Proof. now destruct l as [| []]. Qed.

(** the interval a located real lies in *)
Lemma located_bounds r m e l :
  located r m e l -> IZR m * bpow e <= r < (IZR m + 1) * bpow e.
Proof.
  pose proof (bpow_gt_0 e). destruct l as [| c]; simpl.
  - intros ->. lra.
  - intros [H1 _]. lra.
Qed.

Lemma cexp_le r1 r2 E1 E2 :
  cexp r1 E1 -> cexp r2 E2 -> r1 <= r2 -> (E1 <= E2)%Z.
Proof.
  intros (H1 & H2 & H3) (H4 & H5 & H6) Hr.
  destruct H3 as [-> | H3]; [assumption |].
  assert (bpow (E1 + 52) < bpow (E2 + 53)) by lra.
  apply bpow_lt_inv in H. lia.
Qed.

Lemma fexp_eq x : fexp prec emax x = Z.max (x - 53) (-1074).
Proof. reflexivity. Qed.

Lemma shr_fexp_located r q e l :
  (0 <= q)%Z -> located r q e l -> fine_enough q e ->
  let '(mrs, E) := shr_fexp prec emax q e l in
  located r (shr_m mrs) E (loc_of_shr_record mrs)
  /\ cexp r E /\ (0 <= shr_m mrs)%Z.
Proof.
  intros Hq Hloc Hfine. unfold fine_enough in Hfine. rewrite fexp_eq in Hfine.
  unfold shr_fexp. rewrite fexp_eq.
  set (D := Zdigits2 q) in *.
  set (E := Z.max (D + e - 53) (-1074)) in *.
  pose proof (located_bounds _ _ _ _ Hloc) as Hb.
  assert (Hcexp : cexp r E).
  { unfold cexp. split; [lia |].
    destruct (Z.eq_dec q 0%Z) as [-> | Hq0].
    - simpl in D. subst D. assert (E = (-1074)%Z) by lia.
      split; [| now left].
      simpl in Hb. rewrite Rmult_0_l, Rplus_0_l, Rmult_1_l in Hb.
      assert (bpow e <= bpow (E + 53)) by (apply bpow_le; lia). lra.
    - pose proof (Zdigits2_bounds q ltac:(lia)) as [Hd1 Hd2]. fold D in Hd1, Hd2.
      pose proof (bpow_gt_0 e) as HB.
      assert (HD : IZR q + 1 <= bpow D).
      { assert (Hz : (q + 1 <= 2 ^ D)%Z).
        { assert (Hlt : (q < 2 ^ D)%Z).
          { apply lt_IZR. rewrite IZR_pow2; [exact Hd2 |].
            destruct q; simpl in D; subst D; lia. }
          lia. }
        apply IZR_le in Hz. rewrite plus_IZR, IZR_pow2 in Hz; [exact Hz |].
        destruct q; simpl in D; subst D; lia. }
      split.
      + assert (bpow D * bpow e <= bpow (E + 53)).
        { rewrite <- bpow_add. apply bpow_le. lia. }
        nra.
      + destruct (Z.eq_dec E (-1074)%Z) as [| HE]; [now left | right].
        assert (E = (D + e - 53)%Z) by lia.
        replace (E + 52)%Z with (D - 1 + e)%Z by lia.
        rewrite bpow_add. nra. }
  destruct (E - e)%Z as [| p | p] eqn:Hn; unfold shr.
  - assert (HEe : E = e) by lia. rewrite HEe in Hcexp.
    split; [now apply located_record | split; [exact Hcexp |]].
    now rewrite shr_m_record.
  - destruct (iter_shr_1_located p r (shr_record_of_loc q l) e) as [H1 H2].
    + now rewrite shr_m_record.
    + now apply located_record.
    + replace (e + Z.pos p)%Z with E in * by lia. 
      split; [exact H1 | split; [| exact H2]].
      exact Hcexp.
  - lia.
Qed.

Lemma round_nearest_even_rne r m E l :
  located r m E l -> rne_at r (round_nearest_even m l) E.
Proof.
  pose proof (bpow_gt_0 E) as HB. unfold rne_at.
  destruct l as [| []]; simpl.
  - intros ->. left. lra.
  - intros [H1 H2]. destruct (Z.even m) eqn:Hev.
    + right; right. split; [lra | exact Hev].
    + right; left. rewrite plus_IZR. split; [lra |].
      rewrite Z.even_add, Hev. reflexivity.
  - intros [H1 H2]. left. lra.
  - intros [H1 H2]. left. rewrite plus_IZR. lra.
Qed.

Lemma rne_at_le r1 r2 M1 M2 E :
  rne_at r1 M1 E -> rne_at r2 M2 E -> r1 <= r2 -> (M1 <= M2)%Z.
Proof.
  intros H1 H2 Hr. pose proof (bpow_gt_0 E) as HB.
  destruct (Z_le_gt_dec M1 M2) as [| Hgt]; [assumption | exfalso].
  assert (Hz : (M2 + 1 <= M1)%Z) by lia.
  apply IZR_le in Hz. rewrite plus_IZR in Hz.
  assert (Hmid : (IZR M2 + / 2) * bpow E <= (IZR M1 - / 2) * bpow E) by nra.
  assert (Hr1 : (IZR M1 - / 2) * bpow E <= r1)
    by (destruct H1 as [H1 | [[H1 _] | [H1 _]]]; nra).
  assert (Hr2 : r2 <= (IZR M2 + / 2) * bpow E)
    by (destruct H2 as [H2 | [[H2 _] | [H2 _]]]; nra).
  assert (E1 : r1 = (IZR M1 - / 2) * bpow E) by lra.
  assert (E2 : r2 = (IZR M2 + / 2) * bpow E) by lra.
  assert (Hsame : IZR M1 = IZR M2 + 1) by nra.
  assert (Hm : M1 = (M2 + 1)%Z).
  { apply eq_IZR. now rewrite plus_IZR. }
  assert (Hev1 : Z.even M1 = true)
    by (destruct H1 as [H1 | [[_ H] | [H1 _]]]; [nra | exact H | nra]).
  assert (Hev2 : Z.even M2 = true)
    by (destruct H2 as [H2 | [[H2 _] | [_ H]]]; [nra | nra | exact H]).
  rewrite Hm, Z.even_add, Hev2 in Hev1. discriminate.
Qed.

(** bounds on the rounded mantissa *)
Lemma rne_cexp_bounds r M E :
  0 <= r -> cexp r E -> rne_at r M E ->
  (0 <= M <= 2 ^ 53)%Z /\ (E = (-1074)%Z \/ (2 ^ 52 <= M)%Z).
Proof.
  intros Hr (HE & Hlt & Hge) Hrne. pose proof (bpow_gt_0 E) as HB.
  assert (Hup : r < IZR (2 ^ 53) * bpow E).
  { rewrite IZR_pow2 by lia. rewrite <- bpow_add.
    now replace (53 + E)%Z with (E + 53)%Z by lia. }
  assert (Hlo : (IZR M - / 2) * bpow E <= r)
    by (destruct Hrne as [H | [[H _] | [H _]]]; nra).
  assert (Hhi : r <= (IZR M + / 2) * bpow E)
    by (destruct Hrne as [H | [[H _] | [H _]]]; nra).
  split; [split |].
  - assert (IZR (-1) < IZR M) by (simpl; nra). apply lt_IZR in H. lia.
  - assert (IZR M < IZR (2 ^ 53 + 1)) by (rewrite plus_IZR; simpl IZR at 2; nra).
    apply lt_IZR in H. lia.
  - destruct Hge as [-> | Hge]; [now left | right].
    assert (Hlow : IZR (2 ^ 52) * bpow E <= r).
    { rewrite IZR_pow2 by lia. rewrite <- bpow_add.
      now replace (52 + E)%Z with (E + 52)%Z by lia. }
    assert (IZR (2 ^ 52 - 1) < IZR M) by (rewrite minus_IZR; simpl IZR at 2; nra).
    apply lt_IZR in H. lia.
Qed.

Lemma shr_fexp_exact_small M E :
  (-1074 <= E)%Z -> (0 <= M < 2 ^ 53)%Z ->
  shr_fexp prec emax M E loc_Exact = (shr_record_of_loc M loc_Exact, E).
Proof.
  intros HE HM. unfold shr_fexp. rewrite fexp_eq.
  assert (Hd : (Zdigits2 M <= 53)%Z).
  { destruct M as [| m | m]; simpl; try lia.
    pose proof (digits2_pos_bounds m) as [H1 _].
    destruct (Z_le_gt_dec (Z.pos (digits2_pos m)) 53) as [| Hgt]; [assumption |].
    assert (2 ^ 53 <= 2 ^ (Z.pos (digits2_pos m) - 1))%Z
      by (apply Z.pow_le_mono_r; lia).
    lia. }
  destruct (Z.max (Zdigits2 M + E - 53) (-1074) - E)%Z eqn:Hn;
    unfold shr; try reflexivity. lia.
Qed.

Lemma binary_round_aux_char s r q e l :
  0 <= r -> (0 <= q)%Z -> located r q e l -> fine_enough q e ->
  exists M E,
    cexp r E /\ rne_at r M E
    /\ binary_round_aux prec emax s q e l = rounded s M E.
Proof.
  intros Hr Hq Hloc Hfine. unfold binary_round_aux.
  pose proof (shr_fexp_located r q e l Hq Hloc Hfine) as H1.
  destruct (shr_fexp prec emax q e l) as [mrs' E].
  destruct H1 as (Hloc' & Hcexp & Hm').
  set (M := round_nearest_even (shr_m mrs') (loc_of_shr_record mrs')).
  pose proof (round_nearest_even_rne _ _ _ _ Hloc') as Hrne. fold M in Hrne.
  exists M, E. split; [exact Hcexp | split; [exact Hrne |]].
  destruct (rne_cexp_bounds r M E Hr Hcexp Hrne) as [[HM0 HM1] HMn].
  destruct Hcexp as (HE & _).
  destruct (Z.eq_dec M (2 ^ 53)%Z) as [HM | HM].
  - rewrite HM. unfold shr_fexp. rewrite fexp_eq.
    change (Zdigits2 (2 ^ 53)) with 54%Z.
    replace (Z.max (54 + E - 53) (-1074) - E)%Z with 1%Z by lia.
    reflexivity.
  - rewrite shr_fexp_exact_small by lia. simpl shr_m.
    destruct M as [| m | m]; [reflexivity | | lia].
    unfold rounded.
    destruct (Pos.eqb_spec m 9007199254740992) as [-> | _]; [lia |].
    reflexivity.
Qed.

Lemma SFleb_finite_pos m1 e1 m2 e2 :
  (e1 < e2)%Z \/ (e1 = e2 /\ (m1 <= m2)%positive) ->
  SFleb (S754_finite false m1 e1) (S754_finite false m2 e2) = true.
Proof.
  intros H. unfold SFleb, SFcompare.
  destruct H as [H | [-> H]].
  - apply Z.compare_lt_iff in H. now rewrite H.
  - rewrite Z.compare_refl.
    change (PosDef.Pos.compare_cont Eq m1 m2) with (Pos.compare m1 m2).
    apply Pos.compare_le_iff in H.
    destruct (Pos.compare m1 m2); [reflexivity | reflexivity | congruence].
Qed.

Lemma rounded_leb M1 E1 M2 E2 :
  (0 <= M1 <= 2 ^ 53)%Z -> (0 <= M2 <= 2 ^ 53)%Z ->
  (E1 = E2 /\ (M1 <= M2)%Z) \/ ((E1 < E2)%Z /\ (2 ^ 52 <= M2)%Z) ->
  SFleb (rounded false M1 E1) (rounded false M2 E2) = true.
Proof.
  intros H1 H2 H. unfold rounded.
  destruct M1 as [| m1 | m1]; [| | lia].
  - destruct M2 as [| m2 | m2]; [reflexivity | | lia].
    destruct (m2 =? _)%positive;
      repeat match goal with |- context [(?a <=? ?b)%Z] => destruct (a <=? b)%Z end;
      reflexivity.
  - destruct M2 as [| m2 | m2]; [lia | | lia].
    destruct (Pos.eqb_spec m1 9007199254740992) as [-> | Hm1];
      destruct (Pos.eqb_spec m2 9007199254740992) as [-> | Hm2].
    + destruct H as [[-> _] | [H _]].
      * destruct (E2 + 1 <=? 971)%Z; [| reflexivity].
        apply SFleb_finite_pos. right. split; [reflexivity | lia].
      * destruct (Z.leb_spec (E1 + 1) 971), (Z.leb_spec (E2 + 1) 971);
          try reflexivity; try lia.
        apply SFleb_finite_pos. left. lia.
    + destruct H as [[-> H] | [H H']]; [lia |].
      destruct (Z.leb_spec (E1 + 1) 971), (Z.leb_spec E2 971);
        try reflexivity; try lia.
      apply SFleb_finite_pos.
      destruct (Z.eq_dec (E1 + 1)%Z E2) as [<- | ]; [right | left; lia].
      split; [reflexivity | lia].
    + destruct (Z.leb_spec E1 971), (Z.leb_spec (E2 + 1) 971);
        try reflexivity; try lia.
      * apply SFleb_finite_pos. left. lia.
    + destruct (Z.leb_spec E1 971), (Z.leb_spec E2 971);
        try reflexivity; try lia.
      apply SFleb_finite_pos.
      destruct H as [[-> H] | [H H']]; [right | left; assumption].
      split; [reflexivity | lia].
Qed.

Theorem binary_round_aux_mono r1 q1 e1 l1 r2 q2 e2 l2 :
  0 <= r1 -> r1 <= r2 ->
  (0 <= q1)%Z -> located r1 q1 e1 l1 -> fine_enough q1 e1 ->
  (0 <= q2)%Z -> located r2 q2 e2 l2 -> fine_enough q2 e2 ->
  SFleb (binary_round_aux prec emax false q1 e1 l1)
        (binary_round_aux prec emax false q2 e2 l2) = true.
Proof.
  intros Hr1 Hr Hq1 Hl1 Hf1 Hq2 Hl2 Hf2.
  destruct (binary_round_aux_char false r1 q1 e1 l1 Hr1 Hq1 Hl1 Hf1)
    as (M1 & E1 & Hc1 & Hn1 & ->).
  destruct (binary_round_aux_char false r2 q2 e2 l2 ltac:(lra) Hq2 Hl2 Hf2)
    as (M2 & E2 & Hc2 & Hn2 & ->).
  destruct (rne_cexp_bounds r1 M1 E1 Hr1 Hc1 Hn1) as [HM1 _].
  destruct (rne_cexp_bounds r2 M2 E2 ltac:(lra) Hc2 Hn2) as [HM2 HN2].
  pose proof (cexp_le _ _ _ _ Hc1 Hc2 Hr) as HE.
  apply rounded_leb; try assumption.
  destruct (Z.eq_dec E1 E2) as [<- | HEne].
  - left. split; [reflexivity |]. exact (rne_at_le _ _ _ _ _ Hn1 Hn2 Hr).
  - right. split; [lia |]. destruct Hc1 as (HE1 & _).
    destruct HN2 as [-> | H]; [lia | exact H].
Qed.

(** ** Division *)

Lemma new_location_located my q rem e r :
  (0 < my)%Z -> (0 <= rem < my)%Z ->
  r * IZR my = IZR (my * q + rem) * bpow e ->
  located r q e (new_location my rem).
Proof.
  intros Hmy Hrem Hr. pose proof (bpow_gt_0 e) as HB.
  assert (HY : 0 < IZR my) by (apply IZR_lt; exact Hmy).
  rewrite plus_IZR, mult_IZR in Hr.
  assert (Hrem0 : 0 <= IZR rem) by (apply IZR_le; lia).
  assert (Hrem1 : IZR rem < IZR my) by (apply IZR_lt; lia).
  unfold new_location, new_location_even, new_location_odd.
  destruct (Z.eq_dec rem 0%Z) as [-> | Hne].
  - assert (located r q e loc_Exact) by (simpl; nra).
    now destruct (Z.even my).
  - assert (Hpos : 0 < IZR rem) by (apply IZR_lt; lia).
    clear Hrem0.
    assert (Hin : IZR q * bpow e < r < (IZR q + 1) * bpow e) by (split; nra).
    apply Z.eqb_neq in Hne.
    destruct (Z.even my) eqn:Hev; rewrite Hne.
    + unfold located. split; [exact Hin |].
      destruct (Z.compare_spec (2 * rem) my) as [Hc | Hc | Hc].
      * apply (f_equal IZR) in Hc. rewrite mult_IZR in Hc. nra.
      * apply IZR_lt in Hc. rewrite mult_IZR in Hc. nra.
      * apply IZR_lt in Hc. rewrite mult_IZR in Hc. nra.
    + unfold located. split; [exact Hin |].
      assert (Hodd : (2 * rem <> my)%Z).
      { intros <-. rewrite Z.even_mul in Hev. discriminate. }
      destruct (Z.compare_spec (2 * rem + 1) my) as [Hc | Hc | Hc].
      * assert (Hlt : (2 * rem < my)%Z) by lia.
        apply IZR_lt in Hlt. rewrite mult_IZR in Hlt. nra.
      * assert (Hlt : (2 * rem < my)%Z) by lia.
        apply IZR_lt in Hlt. rewrite mult_IZR in Hlt. nra.
      * assert (Hlt : (my < 2 * rem)%Z) by lia.
        apply IZR_lt in Hlt. rewrite mult_IZR in Hlt. nra.
Qed.

Lemma fexp_mono x y : (x <= y)%Z -> (fexp prec emax x <= fexp prec emax y)%Z.
Proof. rewrite !fexp_eq. lia. Qed.

Lemma Zdigits2_IZR_lt q : (0 <= q)%Z -> IZR q + 1 <= bpow (Zdigits2 q).
Proof.
  intros Hq. destruct q as [| p | p]; [simpl; rewrite bpow_0; lra | | lia].
  simpl Zdigits2. pose proof (digits2_pos_bounds p) as [_ H].
  assert (Hz : (Z.pos p + 1 <= 2 ^ Z.pos (digits2_pos p))%Z) by lia.
  apply IZR_le in Hz. rewrite plus_IZR, IZR_pow2 in Hz by lia. exact Hz.
Qed.

Lemma SFdiv_core_located mx ex my ey :
  let '(q, e', l) := SFdiv_core_binary prec emax (Z.pos mx) ex (Z.pos my) ey in
  let r := (IZR (Z.pos mx) * bpow ex) / (IZR (Z.pos my) * bpow ey) in
  (0 <= q)%Z /\ located r q e' l /\ fine_enough q e'.
Proof.
  unfold SFdiv_core_binary. cbv zeta.
  set (d1 := Zdigits2 (Z.pos mx)). set (d2 := Zdigits2 (Z.pos my)).
  set (e' := Z.min (fexp prec emax (d1 + ex - (d2 + ey))) (ex - ey)).
  set (s := (ex - ey - e')%Z).
  assert (Hs : (0 <= s)%Z) by (unfold s, e'; lia).
  set (m' := match s with
             | Z.pos _ => Z.shiftl (Z.pos mx) s
             | 0%Z => Z.pos mx
             | Z.neg _ => 0%Z
             end).
  assert (Hm' : m' = (Z.pos mx * 2 ^ s)%Z).
  { unfold m'. destruct s as [| p | p]; [simpl; lia | | lia].
    now rewrite Z.shiftl_mul_pow2 by lia. }
  pose proof (Z_div_mod m' (Z.pos my) ltac:(lia)) as Hdiv.
  destruct (Z.div_eucl m' (Z.pos my)) as [q rem]. destruct Hdiv as [Hdm Hrem].
  set (X := IZR (Z.pos mx) * bpow ex). set (Y := IZR (Z.pos my) * bpow ey).
  set (r := X / Y).
  pose proof (bpow_gt_0 ex) as HBx. pose proof (bpow_gt_0 ey) as HBy.
  pose proof (bpow_gt_0 e') as HBe.
  assert (HmxR : 0 < IZR (Z.pos mx)) by (apply IZR_lt; lia).
  assert (HmyR : 0 < IZR (Z.pos my)) by (apply IZR_lt; lia).
  assert (HX : 0 < X) by (unfold X; nra).
  assert (HY : 0 < Y) by (unfold Y; nra).
  assert (HrY : r * Y = X) by (unfold r; field; lra).
  assert (Hr0 : 0 < r) by (unfold r; apply Rdiv_lt_0_compat; assumption).
  assert (Hq : (0 <= q)%Z).
  { assert (0 <= m')%Z by (rewrite Hm'; apply Z.mul_nonneg_nonneg; [lia | apply Z.pow_nonneg; lia]).
    destruct (Z_lt_le_dec q 0) as [Hneg |]; [exfalso | assumption].
    assert (Z.pos my * q <= - Z.pos my)%Z by nia. lia. }
  assert (Hloc : located r q e' (new_location (Z.pos my) rem)).
  { apply new_location_located; [lia | exact Hrem |].
    rewrite <- Hdm, Hm', mult_IZR, IZR_pow2 by lia.
    assert (Hex : bpow ex = bpow s * bpow e' * bpow ey).
    { rewrite <- !bpow_add. f_equal. unfold s. lia. }
    assert (r * IZR (Z.pos my) * bpow ey = IZR (Z.pos mx) * bpow ex)
      by (fold X; rewrite <- HrY; unfold Y; ring).
    rewrite Hex in H.
    apply (Rmult_eq_reg_r (bpow ey)); [| lra]. rewrite H. ring. }
  split; [exact Hq | split; [exact Hloc |]].
  (* fineness *)
  pose proof (located_bounds _ _ _ _ Hloc) as [_ Hhi].
  assert (Hlow : bpow (d1 + ex - (d2 + ey) - 1) < r).
  { pose proof (Zdigits2_bounds (Z.pos mx) ltac:(lia)) as [Hx1 _]. fold d1 in Hx1.
    pose proof (Zdigits2_bounds (Z.pos my) ltac:(lia)) as [_ Hy2]. fold d2 in Hy2.
    destruct (Rlt_le_dec (bpow (d1 + ex - (d2 + ey) - 1)) r) as [| Hle];
      [assumption | exfalso].
    assert (HYlt : Y < bpow (d2 + ey)) by (rewrite bpow_add; unfold Y; nra).
    assert (HXge : bpow (d1 - 1 + ex) <= X) by (rewrite bpow_add; unfold X; nra).
    assert (Hprod : bpow (d1 + ex - (d2 + ey) - 1) * bpow (d2 + ey)
                    = bpow (d1 - 1 + ex)).
    { rewrite <- bpow_add. f_equal. lia. }
    pose proof (bpow_gt_0 (d1 + ex - (d2 + ey) - 1)).
    pose proof (bpow_gt_0 (d2 + ey)).
    nra. }
  unfold fine_enough.
  assert (He' : (e' <= fexp prec emax (d1 + ex - (d2 + ey)))%Z) by (unfold e'; lia).
  pose proof (Zdigits2_IZR_lt q Hq) as HDq.
  assert (Hup : r < bpow (Zdigits2 q + e')).
  { rewrite bpow_add. nra. }
  assert (Hlt : bpow (d1 + ex - (d2 + ey) - 1) < bpow (Zdigits2 q + e')) by lra.
  apply bpow_lt_inv in Hlt.
  destruct (Z.eq_dec q 0%Z) as [-> | Hq0].
  - simpl Zdigits2 in *. rewrite fexp_eq in *. lia.
  - etransitivity; [exact He' |]. apply fexp_mono. lia.
Qed.

(** ** Values and order of rounded results *)

Lemma rounded_order_value M1 E1 M2 E2 :
  (0 <= M1 <= 2 ^ 53)%Z -> rounded_order M1 E1 M2 E2 ->
  IZR M1 * bpow E1 <= IZR M2 * bpow E2.
Proof.
  intros HM1 [[-> H] | [HE HM2]].
  - pose proof (bpow_gt_0 E2). apply IZR_le in H. nra.
  - pose proof (bpow_gt_0 E1) as HB1.
    pose proof (bpow_le (E1 + 1) E2 ltac:(lia)) as HB. rewrite bpow_succ in HB.
    assert (H1 : IZR M1 <= IZR (2 ^ 53)) by (apply IZR_le; lia).
    assert (H2 : IZR (2 ^ 52) <= IZR M2) by (apply IZR_le; lia).
    change (2 ^ 53)%Z with 9007199254740992%Z in H1.
    change (2 ^ 52)%Z with 4503599627370496%Z in H2.
    assert (0 <= IZR M1) by (apply IZR_le; lia).
    nra.
Qed.

Lemma rounded_pair r1 q1 e1 l1 r2 q2 e2 l2 :
  0 <= r1 -> r1 <= r2 ->
  (0 <= q1)%Z -> located r1 q1 e1 l1 -> fine_enough q1 e1 ->
  (0 <= q2)%Z -> located r2 q2 e2 l2 -> fine_enough q2 e2 ->
  exists M1 E1 M2 E2,
    binary_round_aux prec emax false q1 e1 l1 = rounded false M1 E1
    /\ binary_round_aux prec emax false q2 e2 l2 = rounded false M2 E2
    /\ (0 <= M1 <= 2 ^ 53)%Z /\ (0 <= M2 <= 2 ^ 53)%Z
    /\ rounded_order M1 E1 M2 E2
    /\ cexp r1 E1 /\ rne_at r1 M1 E1 /\ cexp r2 E2 /\ rne_at r2 M2 E2.
Proof.
  intros Hr1 Hr Hq1 Hl1 Hf1 Hq2 Hl2 Hf2.
  destruct (binary_round_aux_char false r1 q1 e1 l1 Hr1 Hq1 Hl1 Hf1)
    as (M1 & E1 & Hc1 & Hn1 & ->).
  destruct (binary_round_aux_char false r2 q2 e2 l2 ltac:(lra) Hq2 Hl2 Hf2)
    as (M2 & E2 & Hc2 & Hn2 & ->).
  destruct (rne_cexp_bounds r1 M1 E1 Hr1 Hc1 Hn1) as [HM1 _].
  destruct (rne_cexp_bounds r2 M2 E2 ltac:(lra) Hc2 Hn2) as [HM2 HN2].
  pose proof (cexp_le _ _ _ _ Hc1 Hc2 Hr) as HE.
  exists M1, E1, M2, E2.
  refine (conj eq_refl (conj eq_refl (conj HM1 (conj HM2
           (conj _ (conj Hc1 (conj Hn1 (conj Hc2 Hn2)))))))).
  unfold rounded_order. destruct (Z.eq_dec E1 E2) as [<- | HEne].
  - left. split; [reflexivity |]. exact (rne_at_le _ _ _ _ _ Hn1 Hn2 Hr).
  - right. split; [lia |]. destruct Hc1 as (HE1 & _).
    destruct HN2 as [-> | H]; [lia | exact H].
Qed.

Lemma rounded_cases M E :
  (0 <= M)%Z ->
  (M = 0%Z /\ rounded false M E = S754_zero false)
  \/ (exists mx ex, rounded false M E = S754_finite false mx ex
                    /\ IZR (Z.pos mx) * bpow ex = IZR M * bpow E)
  \/ ((0 < M)%Z /\ rounded false M E = S754_infinity false).
Proof.
  intros HM. destruct M as [| m | m]; [now left | right | lia].
  unfold rounded. destruct (Pos.eqb_spec m 9007199254740992) as [-> | Hm].
  - destruct (E + 1 <=? 971)%Z; [left | right; split; [lia | reflexivity]].
    eexists _, _. split; [reflexivity |]. rewrite bpow_succ. lra.
  - destruct (E <=? 971)%Z; [left | right; split; [lia | reflexivity]].
    eexists _, _. split; reflexivity.
Qed.

Lemma zero_leb_rounded M E :
  (0 <= M)%Z -> SFleb (S754_zero false) (rounded false M E) = true.
Proof.
  intros HM. destruct (rounded_cases M E HM) as [[_ ->] | [(mx & ex & -> & _) | [_ ->]]];
    reflexivity.
Qed.

Lemma rounded_leb_inf M E :
  (0 <= M)%Z -> SFleb (rounded false M E) (S754_infinity false) = true.
Proof.
  intros HM. destruct (rounded_cases M E HM) as [[_ ->] | [(mx & ex & -> & _) | [_ ->]]];
    reflexivity.
Qed.

(** ** Doubling *)

Lemma double_located mh eh :
  located (2 * (IZR (Z.pos mh) * bpow eh))
          (Z.pos (4503599627370496 * mh)) (-51 + eh) loc_Exact
  /\ fine_enough (Z.pos (4503599627370496 * mh)) (-51 + eh).
Proof.
  split.
  - unfold located. rewrite Pos2Z.inj_mul, mult_IZR, bpow_add.
    assert (H : IZR 4503599627370496 * bpow (-51) = 2).
    { change 4503599627370496%Z with (2 ^ 52)%Z. rewrite IZR_pow2 by lia.
      rewrite <- bpow_add. exact bpow_1. }
    rewrite <- H. ring.
  - unfold fine_enough. rewrite fexp_eq.
    assert (Hd : (53 <= Zdigits2 (Z.pos (4503599627370496 * mh)))%Z).
    { unfold Zdigits2.
      pose proof (digits2_pos_bounds (4503599627370496 * mh)) as [_ H].
      rewrite Pos2Z.inj_mul in H.
      destruct (Z_le_gt_dec 53 (Z.pos (digits2_pos (4503599627370496 * mh))))
        as [| Hgt]; [assumption | exfalso].
      assert (2 ^ Z.pos (digits2_pos (4503599627370496 * mh)) <= 2 ^ 52)%Z
        by (apply Z.pow_le_mono_r; lia).
      lia. }
    lia.
Qed.

Lemma SFleb_inf_l x :
  SFleb (S754_infinity false) x = true -> x = S754_infinity false.
Proof.
  destruct x as [s | s | | s m e]; try discriminate;
    destruct s; try discriminate; reflexivity.
Qed.

Lemma fill_width_SF_mono_pos mh1 eh1 mh2 eh2 mm em :
  IZR (Z.pos mh1) * bpow eh1 <= IZR (Z.pos mh2) * bpow eh2 ->
  SFleb (fill_width_SF (S754_finite false mh1 eh1) (S754_finite false mm em))
        (fill_width_SF (S754_finite false mh2 eh2) (S754_finite false mm em)) = true.
Proof.
  intros Hle. unfold fill_width_SF, SF64mul, SFmul. simpl xorb.
  destruct (double_located mh1 eh1) as [Hl1 Hf1].
  destruct (double_located mh2 eh2) as [Hl2 Hf2].
  assert (Hp1 : 0 < IZR (Z.pos mh1) * bpow eh1).
  { apply Rmult_lt_0_compat; [apply IZR_lt; lia | apply bpow_gt_0]. }
  assert (Hr1 : 0 <= 2 * (IZR (Z.pos mh1) * bpow eh1)) by lra.
  assert (Hr12 : 2 * (IZR (Z.pos mh1) * bpow eh1)
                 <= 2 * (IZR (Z.pos mh2) * bpow eh2)) by lra.
  destruct (rounded_pair _ _ _ _ _ _ _ _ Hr1 Hr12
              (Pos2Z.is_nonneg _) Hl1 Hf1 (Pos2Z.is_nonneg _) Hl2 Hf2)
    as (M1 & E1 & M2 & E2 & -> & -> & HM1 & HM2 & Hord & _).
  pose proof (rounded_leb M1 E1 M2 E2 HM1 HM2 Hord) as HX.
  pose proof (rounded_order_value _ _ _ _ HM1 Hord) as HV.
  pose proof (bpow_gt_0 em) as HBm.
  assert (HmR : 0 < IZR (Z.pos mm)) by (apply IZR_lt; lia).
  set (Y := IZR (Z.pos mm) * bpow em).
  assert (HY : 0 < Y) by (unfold Y; nra).
  destruct (rounded_cases M1 E1 ltac:(lia))
    as [[HM10 E1'] | [(mx1 & ex1 & E1' & V1) | [HM10 E1']]]; rewrite E1' in *.
  - (* first product is zero *)
    destruct (rounded_cases M2 E2 ltac:(lia))
      as [[_ E2'] | [(mx2 & ex2 & E2' & V2) | [_ E2']]]; rewrite E2';
      try reflexivity.
    unfold SF64div, SFdiv. simpl xorb.
    pose proof (SFdiv_core_located mx2 ex2 mm em) as Hd.
    destruct (SFdiv_core_binary prec emax (Z.pos mx2) ex2 (Z.pos mm) em)
      as [[q e'] l]. cbv zeta in Hd. destruct Hd as (Hq & Hl & Hf).
    assert (Hr : 0 <= IZR (Z.pos mx2) * bpow ex2 / (IZR (Z.pos mm) * bpow em)).
    { apply Rlt_le, Rdiv_lt_0_compat; [| exact HY].
      apply Rmult_lt_0_compat; [apply IZR_lt; lia | apply bpow_gt_0]. }
    destruct (binary_round_aux_char false _ q e' l Hr Hq Hl Hf)
      as (M & E & Hc & Hn & ->).
    apply zero_leb_rounded. now destruct (rne_cexp_bounds _ M E Hr Hc Hn) as [[? _] _].
  - destruct (rounded_cases M2 E2 ltac:(lia))
      as [[HM20 E2'] | [(mx2 & ex2 & E2' & V2) | [_ E2']]]; rewrite E2' in *.
    + discriminate HX.
    + (* both finite *)
      unfold SF64div, SFdiv. simpl xorb.
      pose proof (SFdiv_core_located mx1 ex1 mm em) as Hd1.
      destruct (SFdiv_core_binary prec emax (Z.pos mx1) ex1 (Z.pos mm) em)
        as [[q1 e1'] l1]. cbv zeta in Hd1. destruct Hd1 as (Hq1 & Hl1' & Hf1').
      pose proof (SFdiv_core_located mx2 ex2 mm em) as Hd2.
      destruct (SFdiv_core_binary prec emax (Z.pos mx2) ex2 (Z.pos mm) em)
        as [[q2 e2'] l2]. cbv zeta in Hd2. destruct Hd2 as (Hq2 & Hl2' & Hf2').
      fold Y in Hl1', Hl2'.
      assert (HX1 : 0 < IZR (Z.pos mx1) * bpow ex1).
      { apply Rmult_lt_0_compat; [apply IZR_lt; lia | apply bpow_gt_0]. }
      apply (binary_round_aux_mono
               (IZR (Z.pos mx1) * bpow ex1 / Y) q1 e1' l1
               (IZR (Z.pos mx2) * bpow ex2 / Y) q2 e2' l2);
        try assumption.
      * apply Rlt_le, Rdiv_lt_0_compat; assumption.
      * unfold Rdiv. apply Rmult_le_compat_r; [| lra].
        apply Rlt_le, Rinv_0_lt_compat, HY.
    + unfold SF64div, SFdiv. simpl xorb.
      pose proof (SFdiv_core_located mx1 ex1 mm em) as Hd.
      destruct (SFdiv_core_binary prec emax (Z.pos mx1) ex1 (Z.pos mm) em)
        as [[q e'] l]. cbv zeta in Hd. destruct Hd as (Hq & Hl & Hf).
      assert (Hr : 0 <= IZR (Z.pos mx1) * bpow ex1 / (IZR (Z.pos mm) * bpow em)).
      { apply Rlt_le, Rdiv_lt_0_compat; [| exact HY].
        apply Rmult_lt_0_compat; [apply IZR_lt; lia | apply bpow_gt_0]. }
      destruct (binary_round_aux_char false _ q e' l Hr Hq Hl Hf)
        as (M & E & Hc & Hn & ->).
      apply rounded_leb_inf. now destruct (rne_cexp_bounds _ M E Hr Hc Hn) as [[? _] _].
  - apply SFleb_inf_l in HX. rewrite HX. reflexivity.
Qed.

(** ** Valid binary64 values *)

Lemma valid_finite s m e :
  valid_binary (S754_finite s m e) = true ->
  (-1074 <= e <= 971)%Z /\ (Z.pos m < 2 ^ 53)%Z
  /\ (e = (-1074)%Z \/ (2 ^ 52 <= Z.pos m)%Z).
Proof.
  unfold SpecFloat.valid_binary, bounded, canonical_mantissa.
  intros H. apply andb_true_iff in H. destruct H as [Hc Hb].
  apply Z.eqb_eq in Hc. apply Z.leb_le in Hb. rewrite fexp_eq in Hc.
  change (emax - prec)%Z with 971%Z in Hb.
  pose proof (digits2_pos_bounds m) as [Hd1 Hd2].
  set (d := Z.pos (digits2_pos m)) in *.
  assert (Hd : (d <= 53)%Z) by lia.
  split; [lia | split].
  - assert (2 ^ d <= 2 ^ 53)%Z by (apply Z.pow_le_mono_r; lia). lia.
  - destruct (Z.eq_dec e (-1074)%Z) as [| He]; [now left | right].
    assert (d = 53%Z) by lia. subst d. rewrite H in Hd1. exact Hd1.
Qed.

Lemma SFleb_rounded_order m1 e1 m2 e2 :
  valid_binary (S754_finite false m1 e1) = true ->
  valid_binary (S754_finite false m2 e2) = true ->
  SFleb (S754_finite false m1 e1) (S754_finite false m2 e2) = true ->
  rounded_order (Z.pos m1) e1 (Z.pos m2) e2.
Proof.
  intros H1 H2 H. apply valid_finite in H1, H2.
  unfold SFleb, SFcompare in H. unfold rounded_order.
  destruct (Z.compare_spec e1 e2) as [-> | Hlt | Hgt].
  - left. split; [reflexivity |].
    change (PosDef.Pos.compare_cont Eq m1 m2) with (Pos.compare m1 m2) in H.
    destruct (Pos.compare_spec m1 m2); [lia | lia | discriminate].
  - right. split; [exact Hlt | lia].
  - discriminate.
Qed.

Lemma SFleb_value m1 e1 m2 e2 :
  valid_binary (S754_finite false m1 e1) = true ->
  valid_binary (S754_finite false m2 e2) = true ->
  SFleb (S754_finite false m1 e1) (S754_finite false m2 e2) = true ->
  IZR (Z.pos m1) * bpow e1 <= IZR (Z.pos m2) * bpow e2.
Proof.
  intros H1 H2 H. apply rounded_order_value.
  - apply valid_finite in H1. lia.
  - now apply SFleb_rounded_order.
Qed.

(** ** Signs *)

Lemma binary_round_aux_opp s q e l :
  binary_round_aux prec emax (negb s) q e l
  = SFopp (binary_round_aux prec emax s q e l).
Proof.
  unfold binary_round_aux.
  destruct (shr_fexp prec emax q e l) as [mrs' e'].
  destruct (shr_fexp prec emax _ e' loc_Exact) as [mrs'' e''].
  destruct (shr_m mrs'') as [| m | m]; try reflexivity.
  now destruct (e'' <=? emax - prec)%Z.
Qed.

Lemma SFcompare_opp a b :
  SFcompare (SFopp a) (SFopp b) = SFcompare b a.
Proof.
  destruct a as [sa | sa | | sa ma ea], b as [sb | sb | | sb mb eb];
    try reflexivity; try (destruct sa, sb; reflexivity);
    try (destruct sa; reflexivity); try (destruct sb; reflexivity).
  unfold SFopp, SFcompare.
  rewrite (Z.compare_antisym ea eb).
  change (PosDef.Pos.compare_cont Eq mb ma) with (Pos.compare mb ma).
  change (PosDef.Pos.compare_cont Eq ma mb) with (Pos.compare ma mb).
  rewrite (Pos.compare_antisym ma mb).
  destruct sa, sb; simpl; try reflexivity;
    destruct (ea ?= eb)%Z; simpl; try reflexivity;
    destruct (ma ?= mb)%positive; reflexivity.
Qed.

Lemma SFleb_opp a b : SFleb (SFopp a) (SFopp b) = SFleb b a.
Proof. unfold SFleb. now rewrite SFcompare_opp. Qed.

Lemma neg_leb_pos a b : neg_class a -> pos_class b -> SFleb a b = true.
Proof.
  destruct a as [[] | [] | | [] ma ea]; try contradiction;
    destruct b as [[] | [] | | [] mb eb]; try contradiction; reflexivity.
Qed.

Lemma pos_class_opp x : pos_class x -> neg_class (SFopp x).
Proof. destruct x as [[] | [] | | [] m e]; simpl; tauto. Qed.

Lemma neg_class_opp x : neg_class x -> pos_class (SFopp x).
Proof. destruct x as [[] | [] | | [] m e]; simpl; tauto. Qed.

Lemma SFopp_involutive x : SFopp (SFopp x) = x.
Proof. destruct x as [[] | [] | | [] m e]; reflexivity. Qed.

Lemma SFdiv_opp_l x mm em :
  SF64div (SFopp x) (S754_finite false mm em)
  = SFopp (SF64div x (S754_finite false mm em)).
Proof.
  destruct x as [[] | [] | | s mx ex]; try reflexivity.
  unfold SF64div, SFdiv, SFopp.
  destruct (SFdiv_core_binary prec emax (Z.pos mx) ex (Z.pos mm) em)
    as [[q e'] l].
  rewrite !xorb_false_r. apply binary_round_aux_opp.
Qed.

Lemma fill_width_SF_opp h mm em :
  fill_width_SF (SFopp h) (S754_finite false mm em)
  = SFopp (fill_width_SF h (S754_finite false mm em)).
Proof.
  unfold fill_width_SF. rewrite <- SFdiv_opp_l. f_equal.
  destruct h as [[] | [] | | s mh eh]; try reflexivity.
  unfold SF64mul, SFmul, SFopp. simpl xorb. apply binary_round_aux_opp.
Qed.

Lemma fill_width_SF_pos_class h mm em :
  pos_class h -> pos_class (fill_width_SF h (S754_finite false mm em)).
Proof.
  destruct h as [[] | [] | | [] mh eh]; try contradiction; intros _;
    try exact I.
  unfold fill_width_SF, SF64mul, SFmul. simpl xorb.
  destruct (double_located mh eh) as [Hl Hf].
  assert (Hr : 0 <= 2 * (IZR (Z.pos mh) * bpow eh)).
  { assert (0 < IZR (Z.pos mh) * bpow eh)
      by (apply Rmult_lt_0_compat; [apply IZR_lt; lia | apply bpow_gt_0]).
    lra. }
  destruct (binary_round_aux_char false _ _ _ _ Hr (Pos2Z.is_nonneg _) Hl Hf)
    as (M & E & Hc & Hn & ->).
  destruct (rne_cexp_bounds _ M E Hr Hc Hn) as [[HM _] _].
  destruct (rounded_cases M E HM) as [[_ ->] | [(mx & ex & -> & _) | [_ ->]]];
    try exact I.
  unfold SF64div, SFdiv. simpl xorb.
  pose proof (SFdiv_core_located mx ex mm em) as Hd.
  destruct (SFdiv_core_binary prec emax (Z.pos mx) ex (Z.pos mm) em)
    as [[q e'] l]. cbv zeta in Hd. destruct Hd as (Hq & Hl' & Hf').
  assert (Hr' : 0 <= IZR (Z.pos mx) * bpow ex / (IZR (Z.pos mm) * bpow em)).
  { apply Rlt_le, Rdiv_lt_0_compat;
      apply Rmult_lt_0_compat; try (apply IZR_lt; lia); apply bpow_gt_0. }
  destruct (binary_round_aux_char false _ q e' l Hr' Hq Hl' Hf')
    as (M' & E' & Hc' & Hn' & ->).
  destruct (rne_cexp_bounds _ M' E' Hr' Hc' Hn') as [[HM' _] _].
  destruct (rounded_cases M' E' HM') as [[_ ->] | [(mx' & ex' & -> & _) | [_ ->]]];
    exact I.
Qed.

Lemma pos_leb_inf x : pos_class x -> SFleb x (S754_infinity false) = true.
Proof. destruct x as [[] | [] | | [] m e]; try contradiction; reflexivity. Qed.

Lemma zero_leb_pos x : pos_class x -> SFleb (S754_zero false) x = true.
Proof. destruct x as [[] | [] | | [] m e]; try contradiction; reflexivity. Qed.

Lemma fill_width_SF_mono_nonneg h1 h2 mm em :
  pos_class h1 -> pos_class h2 ->
  valid_binary h1 = true -> valid_binary h2 = true ->
  SFleb h1 h2 = true ->
  SFleb (fill_width_SF h1 (S754_finite false mm em)) (fill_width_SF h2 (S754_finite false mm em))
  = true.
Proof.
  intros Hp1 Hp2 Hv1 Hv2 Hle.
  pose proof (fill_width_SF_pos_class h2 mm em Hp2) as HW2.
  pose proof (fill_width_SF_pos_class h1 mm em Hp1) as HW1.
  destruct h1 as [[] | [] | | [] m1 e1]; try contradiction.
  - now apply zero_leb_pos.
  - apply SFleb_inf_l in Hle. subst h2. reflexivity.
  - destruct h2 as [[] | [] | | [] m2 e2]; try contradiction.
    + discriminate Hle.
    + now apply pos_leb_inf.
    + apply fill_width_SF_mono_pos. now apply SFleb_value.
Qed.

Lemma class_cases x : x <> S754_nan -> pos_class x \/ neg_class x.
Proof. destruct x as [[] | [] | | [] m e]; simpl; tauto. Qed.

Lemma valid_opp x : valid_binary (SFopp x) = valid_binary x.
Proof. destruct x as [[] | [] | | [] m e]; reflexivity. Qed.

Theorem fill_width_SF_mono h1 h2 mm em :
  valid_binary h1 = true -> valid_binary h2 = true ->
  SFleb h1 h2 = true ->
  SFleb (fill_width_SF h1 (S754_finite false mm em)) (fill_width_SF h2 (S754_finite false mm em))
  = true.
Proof.
  intros Hv1 Hv2 Hle.
  assert (Hn1 : h1 <> S754_nan) by (intros ->; discriminate).
  assert (Hn2 : h2 <> S754_nan)
    by (intros ->; destruct h1 as [[] | [] | | [] m e]; discriminate).
  destruct (class_cases h1 Hn1) as [Hp1 | Hg1],
           (class_cases h2 Hn2) as [Hp2 | Hg2].
  - now apply fill_width_SF_mono_nonneg.
  - (* nonnegative below nonpositive: both are zeros *)
    destruct h1 as [[] | [] | | [] m1 e1]; try contradiction;
      destruct h2 as [[] | [] | | [] m2 e2]; try contradiction;
      try discriminate Hle.
    reflexivity.
  - apply neg_leb_pos.
    + replace h1 with (SFopp (SFopp h1)) by apply SFopp_involutive.
      rewrite (fill_width_SF_opp (SFopp h1)).
      apply pos_class_opp, fill_width_SF_pos_class, neg_class_opp, Hg1.
    + now apply fill_width_SF_pos_class.
  - replace h1 with (SFopp (SFopp h1)) at 1 by apply SFopp_involutive.
    replace h2 with (SFopp (SFopp h2)) at 1 by apply SFopp_involutive.
    rewrite (fill_width_SF_opp (SFopp h1)), (fill_width_SF_opp (SFopp h2)), SFleb_opp.
    apply fill_width_SF_mono_nonneg.
    + now apply neg_class_opp.
    + now apply neg_class_opp.
    + now rewrite valid_opp.
    + now rewrite valid_opp.
    + now rewrite SFleb_opp.
Qed.

(** the primitive-float statement *)
Theorem fill_width_monotone (h1 h2 m : float) :
  (0 <? m)%float = true -> is_finite m = true ->
  (h1 <=? h2)%float = true ->
  (HEALTH_BAR_WIDTH * h1 / m <=? HEALTH_BAR_WIDTH * h2 / m)%float = true.
Proof.
  intros Hpos Hfin Hle.
  rewrite leb_spec in Hle |- *. rewrite !div_spec, !mul_spec.
  change (Prim2SF HEALTH_BAR_WIDTH) with SFtwo.
  assert (Hm : exists mm em, Prim2SF m = S754_finite false mm em).
  { rewrite ltb_spec in Hpos. change (Prim2SF 0) with (S754_zero false) in Hpos.
    unfold is_finite, is_nan, is_infinity in Hfin.
    rewrite !FloatAxioms.eqb_spec, abs_spec in Hfin.
    change (Prim2SF infinity) with (S754_infinity false) in Hfin.
    destruct (Prim2SF m) as [[] | [] | | [] mm em]; try discriminate; eauto. }
  destruct Hm as (mm & em & ->).
  apply (fill_width_SF_mono (Prim2SF h1) (Prim2SF h2) mm em);
    [apply Prim2SF_valid | apply Prim2SF_valid | exact Hle].
Qed.

(** ** A health above the maximum *)

Lemma rne_at_exact K M E : rne_at (IZR K * bpow E) M E -> M = K.
Proof.
  intros H. pose proof (bpow_gt_0 E) as HB.
  assert (H1 : IZR (M - 1) < IZR K)
    by (rewrite minus_IZR; destruct H as [H | [[H _] | [H _]]]; nra).
  assert (H2 : IZR K < IZR (M + 1))
    by (rewrite plus_IZR; destruct H as [H | [[H _] | [H _]]]; nra).
  apply lt_IZR in H1, H2. lia.
Qed.

Lemma double_exact mh eh :
  valid_binary (S754_finite false mh eh) = true ->
  exists K E,
    SF64mul SFtwo (S754_finite false mh eh) = rounded false K E
    /\ (0 < K)%Z
    /\ IZR K * bpow E = 2 * (IZR (Z.pos mh) * bpow eh).
Proof.
  intros Hv. apply valid_finite in Hv. destruct Hv as (He & Hm & _).
  unfold SF64mul, SFmul. simpl xorb.
  destruct (double_located mh eh) as [Hl Hf].
  set (r := 2 * (IZR (Z.pos mh) * bpow eh)) in *.
  assert (Hmh : 0 < IZR (Z.pos mh)) by (apply IZR_lt; lia).
  pose proof (bpow_gt_0 eh) as HBh.
  assert (Hr : 0 < r) by (unfold r; nra).
  destruct (binary_round_aux_char false r _ _ _ (Rlt_le _ _ Hr)
              (Pos2Z.is_nonneg _) Hl Hf) as (M & E & Hc & Hn & ->).
  assert (HE : (E <= eh + 1)%Z).
  { destruct Hc as (_ & _ & [-> | Hge]); [lia |].
    assert (Hlt : r < bpow (eh + 54)).
    { replace (eh + 54)%Z with (53 + (eh + 1))%Z by lia.
      rewrite bpow_add, bpow_succ, <- IZR_pow2 by lia.
      apply IZR_lt in Hm. unfold r. nra. }
    assert (Hb : bpow (E + 52) < bpow (eh + 54)) by lra.
    apply bpow_lt_inv in Hb. lia. }
  set (K := (Z.pos mh * 2 ^ (eh + 1 - E))%Z).
  assert (HK : IZR K * bpow E = r).
  { unfold K, r. rewrite mult_IZR, IZR_pow2 by lia.
    rewrite Rmult_assoc, <- bpow_add.
    replace (eh + 1 - E + E)%Z with (eh + 1)%Z by lia.
    rewrite bpow_succ. ring. }
  rewrite <- HK in Hn. apply rne_at_exact in Hn. subst M.
  exists K, E. split; [reflexivity | split; [| exact HK]].
  unfold K. apply Z.mul_pos_pos; [lia | apply Z.pow_pos_nonneg; lia].
Qed.

Lemma two_ltb_rounded M E :
  (2 ^ 52 <= M <= 2 ^ 53)%Z ->
  (-51 < E)%Z \/ (E = (-51)%Z /\ (2 ^ 52 < M)%Z) ->
  SFltb SFtwo (rounded false M E) = true.
Proof.
  intros HM H. unfold rounded.
  destruct M as [| m | m]; [lia | | lia].
  assert (Hlt : forall m' e', (-51 < e')%Z ->
            SFltb SFtwo (S754_finite false m' e') = true).
  { intros m' e' He. unfold SFltb, SFcompare.
    apply Z.compare_lt_iff in He. now rewrite He. }
  destruct (Pos.eqb_spec m 9007199254740992) as [-> | Hm].
  - destruct (E + 1 <=? 971)%Z; [| reflexivity]. apply Hlt. lia.
  - destruct (E <=? 971)%Z; [| reflexivity].
    destruct H as [H | [-> H]]; [now apply Hlt |].
    unfold SFltb, SFcompare. rewrite Z.compare_refl.
    change (PosDef.Pos.compare_cont Eq 4503599627370496 m)
      with (Pos.compare 4503599627370496 m).
    assert (Hc : (4503599627370496 < m)%positive) by lia.
    apply Pos.compare_lt_iff in Hc. now rewrite Hc.
Qed.

Lemma SFltb_gap mm em mh eh :
  valid_binary (S754_finite false mm em) = true ->
  valid_binary (S754_finite false mh eh) = true ->
  SFltb (S754_finite false mm em) (S754_finite false mh eh) = true ->
  IZR (Z.pos mm) * bpow em + bpow em <= IZR (Z.pos mh) * bpow eh
  /\ IZR (Z.pos mm) < IZR (2 ^ 53).
Proof.
  intros Hvm Hvh Hlt. apply valid_finite in Hvm, Hvh.
  destruct Hvm as (Hem & Hmm & _). destruct Hvh as (Heh & Hmh & Hnh).
  pose proof (bpow_gt_0 em) as HB.
  split; [| apply IZR_lt; exact Hmm].
  unfold SFltb, SFcompare in Hlt.
  destruct (Z.compare_spec em eh) as [-> | He | He]; [| | discriminate].
  - change (PosDef.Pos.compare_cont Eq mm mh) with (Pos.compare mm mh) in Hlt.
    destruct (Pos.compare_spec mm mh) as [| Hc |]; try discriminate.
    assert (Hz : (Z.pos mm + 1 <= Z.pos mh)%Z) by lia.
    apply IZR_le in Hz. rewrite plus_IZR in Hz. nra.
  - destruct Hnh as [-> | Hn]; [lia |].
    pose proof (bpow_le (em + 1) eh ltac:(lia)) as Hb. rewrite bpow_succ in Hb.
    assert (Hz : (Z.pos mm + 1 <= 2 ^ 53)%Z) by lia.
    apply IZR_le in Hz. rewrite plus_IZR in Hz.
    apply IZR_le in Hn.
    change (2 ^ 53)%Z with 9007199254740992%Z in Hz.
    change (2 ^ 52)%Z with 4503599627370496%Z in Hn.
    nra.
Qed.

Lemma bpow_m51 : IZR 4503599627370496 * bpow (-51) = 2.
Proof.
  change 4503599627370496%Z with (2 ^ 52)%Z. rewrite IZR_pow2 by lia.
  rewrite <- bpow_add. exact bpow_1.
Qed.

Lemma fill_width_SF_above mh eh mm em :
  valid_binary (S754_finite false mm em) = true ->
  valid_binary (S754_finite false mh eh) = true ->
  SFltb (S754_finite false mm em) (S754_finite false mh eh) = true ->
  SFltb SFtwo (fill_width_SF (S754_finite false mh eh) (S754_finite false mm em)) = true.
Proof.
  intros Hvm Hvh Hlt.
  destruct (SFltb_gap _ _ _ _ Hvm Hvh Hlt) as [Hgap Hmm].
  destruct (double_exact mh eh Hvh) as (K & E & HX & HK & HV).
  unfold fill_width_SF. rewrite HX.
  pose proof (bpow_gt_0 em) as HBm. pose proof (bpow_gt_0 eh) as HBh.
  assert (HmR : 0 < IZR (Z.pos mm)) by (apply IZR_lt; lia).
  set (Y := IZR (Z.pos mm) * bpow em) in *.
  set (H := IZR (Z.pos mh) * bpow eh) in *.
  assert (HY : 0 < Y) by (unfold Y; nra).
  destruct (rounded_cases K E ltac:(lia))
    as [[HK0 _] | [(mx & ex & -> & V) | [_ ->]]]; [lia | | reflexivity].
  unfold SF64div, SFdiv. simpl xorb.
  pose proof (SFdiv_core_located mx ex mm em) as Hd.
  destruct (SFdiv_core_binary prec emax (Z.pos mx) ex (Z.pos mm) em)
    as [[q e'] l]. cbv zeta in Hd. destruct Hd as (Hq & Hl & Hf).
  fold Y in Hl. rewrite V, HV in Hl.
  set (r := 2 * H / Y) in *.
  assert (HrY : r * Y = 2 * H) by (unfold r; field; lra).
  pose proof bpow_m51 as Hc. set (c := bpow (-51)) in *.
  change (2 ^ 53)%Z with 9007199254740992%Z in Hmm.
  assert (Hr : (IZR 4503599627370496 + / 2) * c < r).
  { apply (Rmult_lt_reg_r Y); [exact HY |]. rewrite HrY.
    assert (Hc4 : c * IZR 9007199254740992 = 4) by lra.
    assert (HYlt : Y < IZR 9007199254740992 * bpow em) by (unfold Y; nra).
    assert (0 < c) by (apply bpow_gt_0).
    nra. }
  assert (Hr0 : 0 <= r).
  { assert (0 < c) by (apply bpow_gt_0). nra. }
  destruct (binary_round_aux_char false r q e' l Hr0 Hq Hl Hf)
    as (M' & E' & Hc' & Hn' & ->).
  destruct (rne_cexp_bounds r M' E' Hr0 Hc' Hn') as [HM' HN'].
  assert (HE' : (-51 <= E')%Z).
  { destruct Hc' as (_ & Hlt' & _).
    assert (Hb : bpow 1 < bpow (E' + 53)).
    { rewrite bpow_1. assert (0 < c) by (apply bpow_gt_0). nra. }
    apply bpow_lt_inv in Hb. lia. }
  apply two_ltb_rounded.
  - destruct HN' as [-> | HN']; lia.
  - destruct (Z.eq_dec E' (-51)%Z) as [-> | HE'']; [right | left; lia].
    split; [reflexivity |].
    unfold rne_at in Hn'. fold c in Hn'.
    assert (Hc0 : 0 < c) by apply bpow_gt_0.
    assert (Hup : r <= (IZR M' + / 2) * c)
      by (destruct Hn' as [Hn' | [[Hn' _] | [Hn' _]]]; lra).
    assert (HMlt : IZR 4503599627370496 < IZR M') by nra.
    apply lt_IZR in HMlt. exact HMlt.
Qed.

Theorem fill_width_exceeds (h m : float) :
  (0 <? m)%float = true -> (m <? h)%float = true ->
  (HEALTH_BAR_WIDTH <? HEALTH_BAR_WIDTH * h / m)%float = true.
Proof.
  intros Hpos Hlt.
  rewrite ltb_spec in Hpos, Hlt |- *. rewrite div_spec, mul_spec.
  change (Prim2SF HEALTH_BAR_WIDTH) with SFtwo.
  change (Prim2SF 0) with (S754_zero false) in Hpos.
  pose proof (Prim2SF_valid m) as Hvm. pose proof (Prim2SF_valid h) as Hvh.
  destruct (Prim2SF m) as [[] | [] | | [] mm em]; try discriminate.
  - destruct (Prim2SF h) as [[] | [] | | [] mh eh]; discriminate.
  - destruct (Prim2SF h) as [[] | [] | | [] mh eh]; try discriminate.
    + reflexivity.
    + now apply fill_width_SF_above.
Qed.

End Binary64Rounding.

(** ** The width of the health bar *)

Lemma fill_width_of_zero maxHealth :
  (0 <? maxHealth)%float = true -> is_finite maxHealth = true ->
  (HEALTH_BAR_WIDTH * 0 / maxHealth)%float = 0%float.
Proof.
  intros Hpos Hfin. apply Prim2SF_inj. rewrite div_spec.
  change (Prim2SF (HEALTH_BAR_WIDTH * 0)) with (S754_zero false).
  rewrite ltb_spec in Hpos.
  change (Prim2SF 0) with (S754_zero false) in Hpos |- *.
  apply is_finite_SF in Hfin.
  destruct Hfin as [[s E] | (s & mm & em & E)]; rewrite E in Hpos |- *.
  - discriminate.
  - destruct s; [discriminate | reflexivity].
Qed.

Lemma ltb_leb (a b : number) : (a <? b)%float = true -> (a <=? b)%float = true.
Proof.
  rewrite ltb_spec, leb_spec. unfold SFltb, SFleb.
  now destruct (SFcompare (Prim2SF a) (Prim2SF b)) as [[] |].
Qed.

(** C10 (as amended). With health bars enabled and metadata for the type,
    [drawHealthBar] fills a rectangle whose width is the number
    [HEALTH_BAR_WIDTH * health / maxHealth] as computed, with no clamping,
    before it strokes the outline of width [HEALTH_BAR_WIDTH].  For a
    positive finite [maxHealth] this width never decreases when the health
    grows, it is greater than [HEALTH_BAR_WIDTH] for a health greater than
    [maxHealth], and it is negative or zero for a negative health. *)
Theorem health_bar_fill_is_unclamped (x y health : number) (type : Z)
    (bodyType : Metadata.BodyTypeMetadata) :
  healthBars this = true ->
  Metadata.types (metadata this) !! type = Some bodyType ->
  let maxHealth := Metadata.maxHealth bodyType in
  let width h := (HEALTH_BAR_WIDTH * h / maxHealth)%float in
  drawHealthBar x y health (Some type)
  = ([SetFillStyle (StyleString "green");
      FillRect x y (width health) HEALTH_BAR_HEIGHT;
      SetStrokeStyle (StyleString "black");
      SetLineWidth 0.1;
      StrokeRect x y HEALTH_BAR_WIDTH HEALTH_BAR_HEIGHT],
     Returned tt)
  /\ ((0 <? maxHealth)%float = true -> is_finite maxHealth = true ->
      (forall h1 h2, (h1 <=? h2)%float = true ->
                     (width h1 <=? width h2)%float = true)
      /\ ((maxHealth <? health)%float = true ->
          (HEALTH_BAR_WIDTH <? width health)%float = true)
      /\ ((health <? 0)%float = true -> (width health <=? 0)%float = true)).
Proof.
  intros Hon Hmeta. cbv zeta. split.
  - unfold drawHealthBar. rewrite Hon. simpl. now rewrite Hmeta.
  - intros Hpos Hfin. split; [| split].
    + intros h1 h2 Hle. now apply fill_width_monotone.
    + intros Hgt. now apply fill_width_exceeds.
    + intros Hneg.
      pose proof (fill_width_monotone health 0 _ Hpos Hfin (ltb_leb _ _ Hneg))
        as Hle.
      now rewrite fill_width_of_zero in Hle.
Qed.

(** * Further properties of the drawing methods *)

(** ** The body loops and the sprites they find *)

Lemma renderBodies_iter_sprite world i :
  let bodies := GameWorld.bodies world in
  let x := num_at (Bodies.x bodies) i in
  let y := num_at (Bodies.y bodies) i in
  let radius := num_at (Bodies.radius bodies) i in
  renderBodies_iter world i
  = (drawImage (body_sprite world i)
               (x - radius) (y - radius) (radius * 2) (radius * 2) ;;
     drawHealthBar (x - HEALTH_BAR_WIDTH_HALF) (y + radius)
                   (num_at (Bodies.health bodies) i)
                   (Bodies.type bodies !! i)).
Proof. reflexivity. Qed.

Lemma renderBodiesInterpolated_iter_sprite world nextStep t i :
  let bodies := GameWorld.bodies world in
  let radius := num_at (Bodies.radius bodies) i in
  let pos := lerp_position world nextStep t i in
  renderBodiesInterpolated_iter world nextStep t i
  = (drawImage (body_sprite world i)
               (pos.1 - radius) (pos.2 - radius) (radius * 2) (radius * 2) ;;
     drawHealthBar (pos.1 - HEALTH_BAR_WIDTH_HALF) (pos.2 + radius)
                   (num_at (Bodies.health bodies) i)
                   (Bodies.type bodies !! i)).
Proof. reflexivity. Qed.

(** Drawing a sprite and then a health bar returns when there is a sprite,
    and otherwise throws before any call. *)
Lemma sprite_then_bar img x y w h hx hy health type :
  result (drawImage img x y w h ;; drawHealthBar hx hy health type)
  = match img with
    | Some _ => Returned tt
    | None => Threw TypeError
    end
  /\ (img = None ->
      calls (drawImage img x y w h ;; drawHealthBar hx hy health type) = []).
Proof.
  rewrite result_bind, calls_bind. destruct img as [im |]; simpl.
  - split; [apply drawHealthBar_returns | discriminate].
  - split; reflexivity.
Qed.

Lemma renderBodies_iter_result world i :
  result (renderBodies_iter world i)
  = match body_sprite world i with
    | Some _ => Returned tt
    | None => Threw TypeError
    end.
Proof. rewrite renderBodies_iter_sprite. apply sprite_then_bar. Qed.

Lemma renderBodiesInterpolated_iter_result world nextStep t i :
  result (renderBodiesInterpolated_iter world nextStep t i)
  = match body_sprite world i with
    | Some _ => Returned tt
    | None => Threw TypeError
    end.
Proof. rewrite renderBodiesInterpolated_iter_sprite. apply sprite_then_bar. Qed.

(** A loop returns exactly when every iteration does. *)
Lemma for_range_result (body : nat -> Draw unit) n : forall from,
  result (for_range from n body) = Returned tt
  <-> forall i, (from <= i < from + n)%nat -> result (body i) = Returned tt.
Proof.
  induction n as [| n IH]; intros from; simpl.
  - split; [intros _ i Hi; lia | reflexivity].
  - rewrite result_bind. split.
    + intros H i Hi. destruct (result (body from)) as [[] |] eqn:E;
        [| discriminate].
      destruct (decide (i = from)) as [-> | Hne]; [assumption |].
      apply (proj1 (IH (S from)) H). lia.
    + intros H. rewrite (H from) by lia. apply IH. intros i Hi. apply H. lia.
Qed.

Lemma body_pass_result world nextStep lerpAmount :
  result (body_pass world nextStep lerpAmount) = Returned tt
  <-> forall i, (i < Bodies.length (GameWorld.bodies world))%nat ->
                body_sprite world i <> None.
Proof.
  assert (Hcase : forall o : option image,
            match o with Some _ => Returned tt | None => Threw TypeError end
            = Returned tt <-> o <> None)
    by (intros [im |]; split; congruence).
  unfold body_pass.
  destruct lerpAmount as [l |], nextStep as [ns |];
    unfold renderBodiesInterpolated, renderBodies, for_upto;
    rewrite for_range_result; split; intros H i Hi;
    first [ apply Hcase; rewrite <- renderBodiesInterpolated_iter_result with (nextStep := ns) (t := l);
            apply H; lia
          | apply Hcase; rewrite <- renderBodies_iter_result; apply H; lia
          | rewrite renderBodiesInterpolated_iter_result; apply Hcase, H; lia
          | rewrite renderBodies_iter_result; apply Hcase, H; lia ].
Qed.

Lemma render_result_pass world viewMin viewWidth nextStep lerpAmount :
  result (render world viewMin viewWidth nextStep lerpAmount)
  = result (body_pass world nextStep lerpAmount).
Proof. apply render_result. Qed.

(** X5. The body loops stop at the first body for which the sprite bundle
    has no image: the bodies before it are drawn in full, the [drawImage]
    of that body throws a TypeError, and nothing is issued for it or for
    any later body. *)
Theorem body_loop_stops_at_missing_sprite (world : GameWorld.t)
    (nextStep : NextStep.t) (t : number) (k : nat) :
  (k < Bodies.length (GameWorld.bodies world))%nat ->
  (forall i, (i < k)%nat -> body_sprite world i <> None) ->
  body_sprite world k = None ->
  renderBodies world
  = (concat (map (fun i => calls (renderBodies_iter world i)) (seq 0 k)),
     Threw TypeError)
  /\ renderBodiesInterpolated world nextStep t
     = (concat (map (fun i =>
                       calls (renderBodiesInterpolated_iter world nextStep t i))
                    (seq 0 k)),
        Threw TypeError).
Proof.
  intros Hk Hbefore Hmissing.
  assert (Hsome : forall i, (i < k)%nat ->
            match body_sprite world i with
            | Some _ => Returned tt
            | None => Threw TypeError
            end = Returned tt).
  { intros i Hi. specialize (Hbefore i Hi).
    now destruct (body_sprite world i). }
  split.
  - unfold renderBodies, for_upto.
    rewrite (for_range_throws _ TypeError _ 0 k Hk).
    + rewrite seq_S, map_app, concat_app. simpl.
      rewrite renderBodies_iter_sprite. cbv zeta.
      rewrite (proj2 (sprite_then_bar _ _ _ _ _ _ _ _ _) Hmissing).
      now rewrite !app_nil_r.
    + intros i Hi. rewrite renderBodies_iter_result. apply Hsome. lia.
    + simpl. now rewrite renderBodies_iter_result, Hmissing.
  - unfold renderBodiesInterpolated, for_upto.
    rewrite (for_range_throws _ TypeError _ 0 k Hk).
    + rewrite seq_S, map_app, concat_app. simpl.
      rewrite renderBodiesInterpolated_iter_sprite. cbv zeta.
      rewrite (proj2 (sprite_then_bar _ _ _ _ _ _ _ _ _) Hmissing).
      now rewrite !app_nil_r.
    + intros i Hi. rewrite renderBodiesInterpolated_iter_result.
      apply Hsome. lia.
    + simpl. now rewrite renderBodiesInterpolated_iter_result, Hmissing.
Qed.

(** X6. [render] returns normally exactly when the sprite bundle has an
    image for every body of the world; the background, the projectiles
    and the overlays never throw. *)
Theorem render_returns_iff_every_sprite (world : GameWorld.t)
    (viewMin : Victor.t) (viewWidth : number) (nextStep : option NextStep.t)
    (lerpAmount : option number) :
  result (render world viewMin viewWidth nextStep lerpAmount) = Returned tt
  <-> forall i, (i < Bodies.length (GameWorld.bodies world))%nat ->
                body_sprite world i <> None.
Proof. rewrite render_result_pass. apply body_pass_result. Qed.

Lemma sprite_at_in_range (table : list image) (n t : Z) :
  n <= Z.of_nat (length table) -> 0 <= t < n ->
  sprite_at table (Some t) <> None.
Proof.
  intros Hn Ht. unfold sprite_at.
  destruct (Z.leb_spec 0 t); [| lia].
  destruct (lookup_lt_is_Some_2 table (Z.to_nat t)) as [im E]; [lia |].
  now rewrite E.
Qed.

(** X7. When every team-indexed sprite table has at least [n] images and
    every body of a recognized kind other than the neutral tree has a team
    in [0, n), [render] returns normally; neutral trees and bodies of an
    unknown kind need no team. *)
Theorem render_returns_with_team_sprites (n : Z) (world : GameWorld.t)
    (viewMin : Victor.t) (viewWidth : number) (nextStep : option NextStep.t)
    (lerpAmount : option number) :
  Forall (fun table => n <= Z.of_nat (length table)) team_tables ->
  (forall i ty,
     (i < Bodies.length (GameWorld.bodies world))%nat ->
     Bodies.type (GameWorld.bodies world) !! i = Some ty ->
     In ty recognized_codes -> ty <> TREE_NEUTRAL ->
     exists t, Bodies.team (GameWorld.bodies world) !! i = Some t
               /\ 0 <= t < n) ->
  result (render world viewMin viewWidth nextStep lerpAmount) = Returned tt.
Proof.
  intros Htables Hteams.
  rewrite render_result_pass. apply body_pass_result. intros i Hi.
  unfold team_tables in Htables.
  repeat match goal with
         | H : Forall _ (_ :: _) |- _ => apply Forall_cons in H; destruct H
         end.
  unfold body_sprite. cbv zeta.
  destruct (Bodies.type (GameWorld.bodies world) !! i) as [ty |] eqn:Ety;
    [| discriminate].
  destruct (Z.eqb_spec ty TREE_NEUTRAL) as [| Htree]; [discriminate |].
  assert (Hrec : forall c, In c recognized_codes -> ty = c ->
            exists t, Bodies.team (GameWorld.bodies world) !! i = Some t
                      /\ 0 <= t < n).
  { intros c Hc Heq. subst c. now apply (Hteams i ty). }
  unfold recognized_codes in Hrec.
  repeat match goal with
         | |- context [Z.eqb ty ?c] =>
             destruct (Z.eqb_spec ty c) as [Heq | ?];
             [ destruct (Hrec c ltac:(simpl; auto 12) Heq) as (t & Et & Ht);
               rewrite Et; now apply (sprite_at_in_range _ n) |]
         end.
  discriminate.
Qed.

(** ** The bodies a loop reaches *)

(** A loop whose first [k] iterations return goes on with iteration [k]
    and the iterations after it. *)
Lemma for_range_reaches (body : nat -> Draw unit) n : forall from k,
  (k < n)%nat ->
  (forall i, (from <= i < from + k)%nat -> result (body i) = Returned tt) ->
  let rest :=
    (body (from + k)%nat ;; for_range (S (from + k)) (n - S k) body) in
  for_range from n body
  = (concat (map (fun i => calls (body i)) (seq from k)) ++ calls rest,
     result rest).
Proof.
  induction n as [| n IH]; intros from k Hk Hret; [lia |].
  cbv zeta. destruct k as [| k].
  - rewrite Nat.add_0_r. simpl. rewrite Nat.sub_0_r. apply Draw_eta.
  - simpl for_range. rewrite (bind_returned _ _ tt) by (apply Hret; lia).
    rewrite (IH (S from) k) by (try lia; intros i Hi; apply Hret; lia).
    cbv zeta. replace (S from + k)%nat with (from + S k)%nat by lia.
    unfold calls at 2, result at 1. simpl fst; simpl snd.
    simpl. now rewrite app_assoc.
Qed.

(** The calls of a body iteration that has a sprite, and of what follows. *)
Lemma sprite_then_bar_calls img x y w h hx hy health type (rest : Draw unit) :
  calls ((drawImage (Some img) x y w h ;;
          drawHealthBar hx hy health type) ;; rest)
  = DrawImage img x y w h
    :: calls (drawHealthBar hx hy health type) ++ calls rest.
Proof.
  rewrite !calls_bind, result_bind. simpl.
  now rewrite drawHealthBar_returns.
Qed.

Lemma sprite_result (o : option image) :
  o <> None ->
  match o with Some _ => Returned tt | None => Threw TypeError end
  = (Returned tt : outcome unit).
Proof. now destruct o. Qed.

(** A body of an unrecognized kind has the placeholder sprite. *)
Lemma unrecognized_sprite world i ty :
  Bodies.type (GameWorld.bodies world) !! i = Some ty ->
  ~ In ty recognized_codes ->
  body_sprite world i = Some (unknown (imgs this)).
Proof.
  intros Hty Hnot. unfold recognized_codes in Hnot. simpl in Hnot.
  assert (Hne : forall c, c <> ty -> (ty =? c) = false)
    by (intros c Hc; apply Z.eqb_neq; congruence).
  unfold body_sprite. cbv zeta. rewrite Hty.
  now rewrite !Hne by tauto.
Qed.

(** C6 (as amended). A body whose type code is none of the nine recognized
    codes has the unknown-placeholder sprite in both body loops, and it
    never raises an error: when every other body has a sprite, both loops
    return normally.  When every earlier body has a sprite, both loops draw
    it with the placeholder, after the earlier bodies and before the later
    ones. *)
Theorem unrecognized_type_draws_placeholder (world : GameWorld.t)
    (nextStep : NextStep.t) (lerpAmount : number) (i : nat) (ty : Z) :
  let bodies := GameWorld.bodies world in
  let n := Bodies.length bodies in
  let x := num_at (Bodies.x bodies) i in
  let y := num_at (Bodies.y bodies) i in
  let radius := num_at (Bodies.radius bodies) i in
  let health := num_at (Bodies.health bodies) i in
  let pos := lerp_position world nextStep lerpAmount i in
  (i < n)%nat ->
  Bodies.type bodies !! i = Some ty ->
  ~ In ty recognized_codes ->
  body_sprite world i = Some (unknown (imgs this))
  /\ ((forall j, (j < i)%nat -> body_sprite world j <> None) ->
      calls (renderBodies world)
      = concat (map (fun j => calls (renderBodies_iter world j)) (seq 0 i))
        ++ DrawImage (unknown (imgs this))
             (x - radius) (y - radius) (radius * 2) (radius * 2)
           :: calls (drawHealthBar (x - HEALTH_BAR_WIDTH_HALF) (y + radius)
                                   health (Some ty))
           ++ calls (for_range (S i) (n - S i) (renderBodies_iter world))
      /\ calls (renderBodiesInterpolated world nextStep lerpAmount)
         = concat (map (fun j =>
                          calls (renderBodiesInterpolated_iter
                                   world nextStep lerpAmount j))
                       (seq 0 i))
           ++ DrawImage (unknown (imgs this))
                (pos.1 - radius) (pos.2 - radius) (radius * 2) (radius * 2)
              :: calls (drawHealthBar (pos.1 - HEALTH_BAR_WIDTH_HALF)
                                      (pos.2 + radius) health (Some ty))
              ++ calls (for_range (S i) (n - S i)
                          (renderBodiesInterpolated_iter
                             world nextStep lerpAmount)))
  /\ ((forall j, (j < n)%nat -> j <> i -> body_sprite world j <> None) ->
      result (renderBodies world) = Returned tt
      /\ result (renderBodiesInterpolated world nextStep lerpAmount)
         = Returned tt).
Proof.
  cbv zeta. intros Hi Hty Hnot.
  pose proof (unrecognized_sprite world i ty Hty Hnot) as Hsprite.
  split; [exact Hsprite | split].
  - intros Hbefore. split.
    + unfold renderBodies, for_upto.
      rewrite (for_range_reaches _ _ 0 i Hi)
        by (intros j Hj; rewrite renderBodies_iter_result;
            apply sprite_result, Hbefore; lia).
      cbv zeta. unfold calls at 1. simpl fst. f_equal. simpl Nat.add.
      rewrite renderBodies_iter_sprite. cbv zeta.
      rewrite Hsprite, Hty. apply sprite_then_bar_calls.
    + unfold renderBodiesInterpolated, for_upto.
      rewrite (for_range_reaches _ _ 0 i Hi)
        by (intros j Hj; rewrite renderBodiesInterpolated_iter_result;
            apply sprite_result, Hbefore; lia).
      cbv zeta. unfold calls at 1. simpl fst. f_equal. simpl Nat.add.
      rewrite renderBodiesInterpolated_iter_sprite. cbv zeta.
      rewrite Hsprite, Hty. apply sprite_then_bar_calls.
  - intros Hothers.
    assert (Hall : forall j,
              (j < Bodies.length (GameWorld.bodies world))%nat ->
              body_sprite world j <> None).
    { intros j Hj. destruct (decide (j = i)) as [-> | Hne].
      - now rewrite Hsprite.
      - now apply Hothers. }
    split.
    + now apply (body_pass_result world None None).
    + now apply (body_pass_result world (Some nextStep) (Some lerpAmount)).
Qed.

(** The calls of a body loop are those of the bodies it draws. *)
Lemma for_range_drawn (body : nat -> Draw unit) world n : forall from,
  (forall i, result (body i)
             = match body_sprite world i with
               | Some _ => Returned tt
               | None => Threw TypeError
               end) ->
  (forall i, body_sprite world i = None -> calls (body i) = []) ->
  calls (for_range from n body)
  = concat (map (fun i => calls (body i))
                (seq from (sprites_found world from n))).
Proof.
  induction n as [| n IH]; intros from Hres Hnone; simpl.
  - reflexivity.
  - rewrite calls_bind, Hres.
    destruct (body_sprite world from) as [img |] eqn:E; simpl.
    + now rewrite IH.
    + now rewrite (Hnone from E).
Qed.

Lemma sprites_found_spec world n : forall from i,
  (i < sprites_found world from n)%nat
  <-> (i < n)%nat
      /\ forall j, (j <= i)%nat -> body_sprite world (from + j)%nat <> None.
Proof.
  induction n as [| n IH]; intros from i; simpl.
  - split; [lia | intros [H _]; lia].
  - destruct (body_sprite world from) as [img |] eqn:E.
    + destruct i as [| i].
      * split; [| lia]. intros _. split; [lia |].
        intros j Hj. replace j with 0%nat by lia.
        rewrite Nat.add_0_r. congruence.
      * rewrite <- Nat.succ_lt_mono, (IH (S from) i). split.
        -- intros [Hi H]. split; [lia |]. intros [| j] Hj.
           ++ rewrite Nat.add_0_r. congruence.
           ++ replace (from + S j)%nat with (S from + j)%nat by lia.
              apply H. lia.
        -- intros [Hi H]. split; [lia |]. intros j Hj.
           replace (S from + j)%nat with (from + S j)%nat by lia.
           apply H. lia.
    + split; [lia |]. intros [_ H]. exfalso.
      apply (H 0%nat); [lia |]. now rewrite Nat.add_0_r.
Qed.

(** C2. The interpolated body loop draws each body it reaches around the
    position [(x[i] + (nextX[i]-x[i])*t, y[i] + (nextY[i]-y[i])*t)]: its
    calls are, body by body, the sprite and the health bar of the body
    placed at that position.  The bodies it reaches are those up to which
    every body has a sprite.  For [t = 0.5] and a body at [(0,0)] whose
    next position is [(10,0)] that position is [(5,0)]. *)
Theorem interpolated_draw_position (world : GameWorld.t)
    (nextStep : NextStep.t) (t : number) :
  let bodies := GameWorld.bodies world in
  calls (renderBodiesInterpolated world nextStep t)
  = concat (map (fun i =>
                   body_drawing world (lerp_position world nextStep t i) i)
                (seq 0 (bodies_drawn world)))
  /\ (forall i,
        (i < bodies_drawn world)%nat
        <-> (i < Bodies.length bodies)%nat
            /\ forall j, (j <= i)%nat -> body_sprite world j <> None)
  /\ (forall i img (pos : number * number),
        body_sprite world i = Some img ->
        let radius := num_at (Bodies.radius bodies) i in
        body_drawing world pos i
        = DrawImage img (pos.1 - radius) (pos.2 - radius)
                    (radius * 2) (radius * 2)
          :: calls (drawHealthBar (pos.1 - HEALTH_BAR_WIDTH_HALF)
                                  (pos.2 + radius)
                                  (num_at (Bodies.health bodies) i)
                                  (Bodies.type bodies !! i)))
  /\ (forall i,
        num_at (Bodies.x bodies) i = 0%float ->
        num_at (Bodies.y bodies) i = 0%float ->
        num_at (NextStep.bodies_x nextStep) i = 10%float ->
        num_at (NextStep.bodies_y nextStep) i = 0%float ->
        lerp_position world nextStep 0.5 i = (5%float, 0%float)).
Proof.
  cbv zeta. split; [| split; [| split]].
  - unfold renderBodiesInterpolated, for_upto, bodies_drawn.
    rewrite (for_range_drawn _ world).
    + reflexivity.
    + intros i. apply renderBodiesInterpolated_iter_result.
    + intros i Hnone. rewrite renderBodiesInterpolated_iter_sprite.
      cbv zeta. now apply sprite_then_bar.
  - intros i. unfold bodies_drawn. apply sprites_found_spec.
  - intros i img pos Hsprite. unfold body_drawing. cbv zeta.
    rewrite Hsprite, calls_bind. reflexivity.
  - intros i Hx Hy Hnx Hny. unfold lerp_position.
    now rewrite Hx, Hy, Hnx, Hny.
Qed.

(** ** What a frame paints, and under which transformation *)

Lemma render_calls_split world viewMin viewWidth nextStep lerpAmount :
  calls (render world viewMin viewWidth nextStep lerpAmount)
  = [Save;
     Scale (canvas_width this / viewWidth) (canvas_width this / viewWidth);
     Translate (- Victor.x viewMin) (- Victor.y viewMin)]
    ++ calls (renderBackground world)
    ++ (calls (bullet_pass world nextStep lerpAmount)
        ++ calls (body_pass world nextStep lerpAmount))
    ++ match result (body_pass world nextStep lerpAmount) with
       | Returned _ => calls (renderIndicatorStrings world) ++ [Restore]
       | Threw _ => []
       end.
Proof.
  rewrite render_calls. unfold render_passes, issued_by, bullet_pass, body_pass.
  cbv zeta. rewrite !map_app, !map_map. simpl map. rewrite !map_id.
  rewrite <- !app_assoc.
  destruct lerpAmount as [l |], nextStep as [ns |];
    match goal with
    | |- context [result ?m] => destruct (result m) as [[] | e]
    end;
    rewrite ?map_app, ?map_map; simpl map; rewrite ?map_id; reflexivity.
Qed.

Lemma ctx_step_keeps_view c what :
  keeps_view what = true ->
  transform (state (ctx_step c what)) = transform (state c)
  /\ stack (ctx_step c what) = stack c
  /\ painted (ctx_step c what)
     = painted c ++ (if is_paint_call what then [(state c, what)] else []).
Proof.
  destruct what; simpl; try discriminate; intros _;
    repeat match goal with
           | |- context [if ?b then _ else _] => destruct b
           end; simpl; rewrite ?app_nil_r; auto.
Qed.

(** Calls that leave the view alone paint under the transformation they
    start from. *)
Lemma ctx_run_keeps_view tr :
  Forall (fun what => keeps_view what = true) tr ->
  forall c,
    transform (state (ctx_run c tr)) = transform (state c)
    /\ stack (ctx_run c tr) = stack c
    /\ exists new,
         painted (ctx_run c tr) = painted c ++ new
         /\ map snd new = List.filter is_paint_call tr
         /\ Forall (fun p => transform p.1 = transform (state c)) new.
Proof.
  induction 1 as [| what tr Hwhat _ IH]; intros c.
  - split; [reflexivity | split; [reflexivity |]].
    exists []. now rewrite app_nil_r.
  - change (ctx_run c (what :: tr)) with (ctx_run (ctx_step c what) tr).
    destruct (ctx_step_keeps_view c what Hwhat) as (Ht & Hs & Hp).
    destruct (IH (ctx_step c what)) as (Ht' & Hs' & new & Hp' & Hmap & Hall).
    split; [congruence | split; [congruence |]].
    rewrite Hp', Hp, Ht in *. simpl List.filter.
    destruct (is_paint_call what).
    + exists ((state c, what) :: new). rewrite <- app_assoc. simpl.
      split; [reflexivity | split; [now rewrite Hmap |]].
      now constructor.
    + exists new. now rewrite app_nil_r.
Qed.

Lemma ctx_run_paints_nothing tr :
  Forall (fun what => is_paint_call what = false) tr ->
  forall c, painted (ctx_run c tr) = painted c.
Proof.
  induction 1 as [| what tr Hwhat _ IH]; intros c; [reflexivity |].
  change (ctx_run c (what :: tr)) with (ctx_run (ctx_step c what) tr).
  rewrite IH. destruct what; simpl in *; try discriminate;
    repeat match goal with
           | |- context [if ?b then _ else _] => destruct b
           | |- context [match ?l with [] => _ | _ :: _ => _ end] =>
               destruct l
           end; reflexivity.
Qed.

Lemma bind_calls_Forall (P : CtxCall -> Prop) (m k : Draw unit) :
  Forall P (calls m) -> Forall P (calls k) -> Forall P (calls (m ;; k)).
Proof.
  intros Hm Hk. rewrite calls_bind. apply Forall_app. split; [assumption |].
  destruct (result m); [assumption | constructor].
Qed.

Lemma drawImage_keeps_view img x y w h :
  Forall (fun what => keeps_view what = true) (calls (drawImage img x y w h)).
Proof. destruct img; repeat constructor. Qed.

Lemma drawHealthBar_keeps_view x y health type :
  Forall (fun what => keeps_view what = true)
         (calls (drawHealthBar x y health type)).
Proof.
  unfold drawHealthBar.
  destruct (negb (healthBars this)); [constructor |].
  destruct (type ≫= _); repeat constructor.
Qed.

Lemma passes_keep_view world nextStep lerpAmount :
  Forall (fun what => keeps_view what = true)
         (calls (bullet_pass world nextStep lerpAmount)
          ++ calls (body_pass world nextStep lerpAmount)).
Proof.
  apply Forall_app. split.
  - unfold bullet_pass.
    destruct lerpAmount, nextStep;
      apply for_range_calls_Forall; intros i; repeat constructor.
  - unfold body_pass.
    destruct lerpAmount, nextStep;
      apply for_range_calls_Forall; intros i;
      (apply bind_calls_Forall;
       [apply drawImage_keeps_view | apply drawHealthBar_keeps_view]).
Qed.

(** The context after the view set-up of [render]. *)
Lemma view_setup_run c viewMin viewWidth :
  let c1 :=
    ctx_run c [Save;
               Scale (canvas_width this / viewWidth)
                     (canvas_width this / viewWidth);
               Translate (- Victor.x viewMin) (- Victor.y viewMin)] in
  transform (state c1) = view_transform c viewMin viewWidth
  /\ stack c1 = state c :: stack c
  /\ painted c1 = painted c.
Proof.
  cbv zeta. split; [reflexivity |].
  unfold ctx_run. simpl.
  repeat match goal with
         | |- context [if ?b then _ else _] => destruct b
         end; split; reflexivity.
Qed.

(** The context after the background pass. *)
Lemma background_run c world :
  ctx_run c (calls (renderBackground world))
  = {| state := state c; stack := stack c; path := path c;
       painted :=
         painted c
         ++ [({| transform := transform (state c) ++ [TScale (1 / 20) (1 / 20)];
                 fillStyle := StylePattern (bgPattern this);
                 strokeStyle := strokeStyle (state c);
                 lineWidth := lineWidth (state c) |},
              FillRect (Victor.x (GameWorld.minCorner world) * 20)
                       (Victor.y (GameWorld.minCorner world) * 20)
                       ((Victor.x (GameWorld.maxCorner world)
                         - Victor.x (GameWorld.minCorner world)) * 20)
                       ((Victor.y (GameWorld.maxCorner world)
                         - Victor.y (GameWorld.minCorner world)) * 20))] |}.
Proof.
  rewrite renderBackground_eq. unfold calls, ctx_run. simpl.
  change (is_finite (1 / 20) && is_finite (1 / 20)) with true.
  reflexivity.
Qed.

(** X9. What [render] paints on a context: first the background
    rectangle, filled with the background pattern in units of a twentieth
    of the view's, then the sprites of the projectiles and the sprites and
    health bars of the bodies, in the order of their calls and all under
    the view transformation; the overlay pass paints nothing. *)
Theorem render_paints_background_then_view (c : Ctx) (world : GameWorld.t)
    (viewMin : Victor.t) (viewWidth : number) (nextStep : option NextStep.t)
    (lerpAmount : option number) :
  let frame := calls (render world viewMin viewWidth nextStep lerpAmount) in
  let view := view_transform c viewMin viewWidth in
  exists bg rest,
    painted (ctx_run c frame) = painted c ++ bg :: rest
    /\ bg.2 = FillRect (Victor.x (GameWorld.minCorner world) * 20)
                       (Victor.y (GameWorld.minCorner world) * 20)
                       ((Victor.x (GameWorld.maxCorner world)
                         - Victor.x (GameWorld.minCorner world)) * 20)
                       ((Victor.y (GameWorld.maxCorner world)
                         - Victor.y (GameWorld.minCorner world)) * 20)
    /\ transform bg.1 = view ++ [TScale (1 / 20) (1 / 20)]
    /\ fillStyle bg.1 = StylePattern (bgPattern this)
    /\ map snd rest
       = List.filter is_paint_call
           (calls (bullet_pass world nextStep lerpAmount)
            ++ calls (body_pass world nextStep lerpAmount))
    /\ Forall (fun p => transform p.1 = view) rest.
Proof.
  cbv zeta. rewrite render_calls_split. do 3 rewrite ctx_run_app.
  destruct (view_setup_run c viewMin viewWidth) as (Hview & _ & Hpainted).
  cbv zeta in Hview, Hpainted.
  set (c1 := ctx_run c _) in *.
  rewrite background_run. set (c2 := Build_Ctx _ _ _ _).
  destruct (ctx_run_keeps_view _ (passes_keep_view world nextStep lerpAmount)
              c2) as (_ & _ & rest & Hrest & Hmap & Hall).
  set (c3 := ctx_run c2 _) in *.
  assert (Htail : painted (ctx_run c3
            match result (body_pass world nextStep lerpAmount) with
            | Returned _ => calls (renderIndicatorStrings world) ++ [Restore]
            | Threw _ => []
            end) = painted c3).
  { apply ctx_run_paints_nothing.
    destruct (result (body_pass world nextStep lerpAmount));
      rewrite ?renderIndicatorStrings_eq; repeat constructor. }
  eexists _, rest. rewrite Htail, Hrest. unfold c2 at 1. simpl painted.
  rewrite Hpainted, <- app_assoc. simpl.
  split; [reflexivity |].
  split; [reflexivity |].
  split; [now rewrite Hview |].
  split; [reflexivity |].
  split; [assumption |].
  unfold c2 in Hall. simpl in Hall. now rewrite <- Hview.
Qed.

(** X8. When [render] throws, the context is left inside the frame: the
    state saved by the opening [save] is still on the stack, no [restore]
    having been issued for it, and the view transformation is still in
    force. *)
Theorem render_throw_leaves_view_in_force (c : Ctx) (world : GameWorld.t)
    (viewMin : Victor.t) (viewWidth : number) (nextStep : option NextStep.t)
    (lerpAmount : option number) (e : JsError) :
  result (render world viewMin viewWidth nextStep lerpAmount) = Threw e ->
  let c' :=
    ctx_run c (calls (render world viewMin viewWidth nextStep lerpAmount)) in
  stack c' = state c :: stack c
  /\ transform (state c') = view_transform c viewMin viewWidth.
Proof.
  intros Hthrow. cbv zeta. rewrite render_result_pass in Hthrow.
  rewrite render_calls_split, Hthrow, app_nil_r.
  do 2 rewrite ctx_run_app.
  destruct (view_setup_run c viewMin viewWidth) as (Hview & Hstack & _).
  cbv zeta in Hview, Hstack.
  set (c1 := ctx_run c _) in *.
  rewrite background_run. set (c2 := Build_Ctx _ _ _ _).
  destruct (ctx_run_keeps_view _ (passes_keep_view world nextStep lerpAmount)
              c2) as (Ht & Hs & _).
  rewrite Ht, Hs. now split.
Qed.

(** ** The projectile loop *)

Lemma lookup_map_seq {B} (f : nat -> B) n : forall from i,
  (i < n)%nat -> map f (seq from n) !! i = Some (f (from + i)%nat).
Proof.
  induction n as [| n IH]; intros from i Hi; [lia |].
  destruct i as [| i]; simpl.
  - now rewrite Nat.add_0_r.
  - rewrite IH by lia. f_equal. f_equal. lia.
Qed.

Lemma concat_singletons {A B} (f : A -> B) (l : list A) :
  concat (map (fun i => [f i]) l) = map f l.
Proof. induction l as [| a l IH]; simpl; [reflexivity | now rewrite IH]. Qed.

(** The one call of iteration [i] of the projectile loop. *)
Lemma renderBullets_iter_tier world t i :
  let bullets := GameWorld.bullets world in
  let velX := num_at (Bullets.velX bullets) i in
  let velY := num_at (Bullets.velY bullets) i in
  let pos := bullet_position world t i in
  renderBullets_iter world t i
  = ([DrawImage (tier_sprite (speed_tier (velX * velX + velY * velY)))
        (pos.1 - BULLET_SIZE_HALF) (pos.2 - BULLET_SIZE_HALF)
        BULLET_SIZE BULLET_SIZE],
     Returned tt).
Proof.
  cbv zeta. unfold renderBullets_iter, bullet_position, drawImage, call.
  cbv zeta. simpl fst; simpl snd. unfold speed_tier, tier_sprite.
  change (4 - 0.00001)%float with HIGH_SPEED_THRESH.
  change (2.25 - 0.00001)%float with MED_SPEED_THRESH.
  destruct (geb _ HIGH_SPEED_THRESH); [reflexivity |].
  destruct (geb _ MED_SPEED_THRESH); reflexivity.
Qed.

Lemma tier_sprite_in tier : In (tier_sprite tier) bullet_sprites.
Proof. destruct tier; simpl; auto. Qed.

(** Call [i] of a loop whose iterations each issue one call and return. *)
Lemma for_range_lookup (body : nat -> Draw unit) n : forall from i c,
  (i < n)%nat ->
  (forall j, exists d, body j = ([d], Returned tt)) ->
  body (from + i)%nat = ([c], Returned tt) ->
  calls (for_range from n body) !! i = Some c.
Proof.
  induction n as [| n IH]; intros from i c Hi Hone Hc; [lia |].
  simpl for_range. rewrite calls_bind. destruct i as [| i].
  - rewrite Nat.add_0_r in Hc. now rewrite Hc.
  - destruct (Hone from) as [d Hd]. rewrite Hd.
    unfold calls at 1, result. simpl.
    apply IH; [lia | assumption |].
    now replace (S from + i)%nat with (from + S i)%nat by lia.
Qed.

(** Call [i] of the projectile loop is the call of its iteration [i]. *)
Lemma renderBullets_lookup world t i c :
  (i < Bullets.length (GameWorld.bullets world))%nat ->
  renderBullets_iter world t i = ([c], Returned tt) ->
  calls (renderBullets world t) !! i = Some c.
Proof.
  intros Hi Hc. unfold renderBullets, for_upto.
  apply for_range_lookup; [assumption | | assumption].
  intros j. eexists. reflexivity.
Qed.

Lemma renderBullets_result world t :
  result (renderBullets world t) = Returned tt.
Proof. now rewrite renderBullets_returns. Qed.

(** C3. The projectile loop returns, and for every projectile index [i]
    its call [i] draws a projectile sprite around the position extrapolated
    from the spawn time and the velocity of projectile [i]:
    [dt = (turn + t) - spawnedTime[i]], then
    [(x[i] + velX[i]*dt, y[i] + velY[i]*dt)].  A projectile spawned at time
    0 with velocity [(2,0)], drawn at turn 3 with [t = 0], is drawn at
    [(x0 + 6, y0)]. *)
Theorem projectile_draw_position (world : GameWorld.t) (t : number)
    (i : nat) :
  let bullets := GameWorld.bullets world in
  let x0 := num_at (Bullets.x bullets) i in
  let y0 := num_at (Bullets.y bullets) i in
  let pos := bullet_position world t i in
  (i < Bullets.length bullets)%nat ->
  result (renderBullets world t) = Returned tt
  /\ (exists img,
        In img bullet_sprites
        /\ calls (renderBullets world t) !! i
           = Some (DrawImage img (pos.1 - BULLET_SIZE_HALF)
                             (pos.2 - BULLET_SIZE_HALF)
                             BULLET_SIZE BULLET_SIZE))
  /\ (num_at (Bullets.spawnedTime bullets) i = 0%float ->
      num_at (Bullets.velX bullets) i = 2%float ->
      num_at (Bullets.velY bullets) i = 0%float ->
      GameWorld.turn world = 3%float ->
      (bullet_position world 0 i).1 = (x0 + 6)%float
      /\ same_number (bullet_position world 0 i).2 y0
      /\ calls (renderBullets world 0) !! i
         = Some (DrawImage (bullet_fast (imgs this))
                   (x0 + 6 - BULLET_SIZE_HALF) (y0 - BULLET_SIZE_HALF)
                   BULLET_SIZE BULLET_SIZE)).
Proof.
  cbv zeta. intros Hi.
  split; [apply renderBullets_result | split].
  - eexists. split; [apply tier_sprite_in |].
    apply renderBullets_lookup; [assumption |].
    apply renderBullets_iter_tier.
  - intros Hs Hvx Hvy Hturn.
    assert (Hpos : bullet_position world 0 i
                   = ((num_at (Bullets.x (GameWorld.bullets world)) i + 6)%float,
                      (num_at (Bullets.y (GameWorld.bullets world)) i + 0)%float)).
    { unfold bullet_position. cbv zeta. now rewrite Hs, Hvx, Hvy, Hturn. }
    rewrite Hpos. simpl fst; simpl snd.
    split; [reflexivity | split].
    + apply same_number_SF, add_zero_same.
    + apply renderBullets_lookup; [assumption |].
      rewrite renderBullets_iter_tier. cbv zeta.
      rewrite Hpos, Hvx, Hvy. simpl fst; simpl snd.
      set (y0 := num_at (Bullets.y (GameWorld.bullets world)) i).
      rewrite (sub_finite_same (y0 + 0) y0 BULLET_SIZE_HALF
                 false 4503599627370496 (-55));
        [reflexivity | reflexivity | apply add_zero_same].
Qed.

(** C4. For every projectile index [i], the sprite of call [i] of the
    projectile loop is chosen by the squared speed [velX^2 + velY^2] of
    projectile [i] against the thresholds [4 - 0.00001] (high speed) and
    [2.25 - 0.00001] (medium speed), compared with greater-or-equal.  A
    squared speed of exactly 4 (velocity magnitude 2) selects the
    high-speed sprite, and a velocity of magnitude 1.999 the medium-speed
    one. *)
Theorem projectile_sprite_tier (world : GameWorld.t) (t : number)
    (i : nat) :
  let bullets := GameWorld.bullets world in
  let velX := num_at (Bullets.velX bullets) i in
  let velY := num_at (Bullets.velY bullets) i in
  let speedsq := (velX * velX + velY * velY)%float in
  let pos := bullet_position world t i in
  let drawn_with img :=
    calls (renderBullets world t) !! i
    = Some (DrawImage img (pos.1 - BULLET_SIZE_HALF)
                      (pos.2 - BULLET_SIZE_HALF) BULLET_SIZE BULLET_SIZE) in
  (i < Bullets.length bullets)%nat ->
  HIGH_SPEED_THRESH = (4 - 0.00001)%float
  /\ MED_SPEED_THRESH = (2.25 - 0.00001)%float
  /\ drawn_with (if geb speedsq HIGH_SPEED_THRESH then bullet_fast (imgs this)
                 else if geb speedsq MED_SPEED_THRESH
                   then bullet_medium (imgs this)
                 else bullet_slow (imgs this))
  /\ drawn_with (tier_sprite (speed_tier speedsq))
  /\ (speedsq = 4%float -> drawn_with (bullet_fast (imgs this)))
  /\ (speedsq = (1.999 * 1.999)%float ->
      drawn_with (bullet_medium (imgs this)))
  /\ speed_tier (2 * 2 + 0 * 0) = HighSpeed
  /\ speed_tier (0 * 0 + 2 * 2) = HighSpeed
  /\ speed_tier (1.999 * 1.999 + 0 * 0) = MediumSpeed
  /\ speed_tier (0 * 0 + 1.999 * 1.999) = MediumSpeed.
Proof.
  cbv zeta. intros Hi.
  assert (Htier :
    calls (renderBullets world t) !! i
    = Some (DrawImage
              (tier_sprite
                 (speed_tier
                    (num_at (Bullets.velX (GameWorld.bullets world)) i
                     * num_at (Bullets.velX (GameWorld.bullets world)) i
                     + num_at (Bullets.velY (GameWorld.bullets world)) i
                       * num_at (Bullets.velY (GameWorld.bullets world)) i)))
              ((bullet_position world t i).1 - BULLET_SIZE_HALF)
              ((bullet_position world t i).2 - BULLET_SIZE_HALF)
              BULLET_SIZE BULLET_SIZE)).
  { apply renderBullets_lookup; [assumption |].
    apply renderBullets_iter_tier. }
  split; [reflexivity | split; [reflexivity | split; [| split]]].
  - apply renderBullets_lookup; [assumption |]. reflexivity.
  - exact Htier.
  - split; [| split].
    + intros E. rewrite Htier, E. reflexivity.
    + intros E. rewrite Htier, E. reflexivity.
    + repeat split; reflexivity.
Qed.

(** X10. The projectile loop never throws and issues exactly one
    [drawImage] per projectile, in index order: call [i] draws one of the
    three projectile sprites on a square of side [BULLET_SIZE] around the
    extrapolated position of projectile [i]. *)
Theorem renderBullets_draws_each_projectile (world : GameWorld.t)
    (t : number) :
  let bullets := GameWorld.bullets world in
  result (renderBullets world t) = Returned tt
  /\ length (calls (renderBullets world t)) = Bullets.length bullets
  /\ forall i, (i < Bullets.length bullets)%nat ->
       exists img,
         In img bullet_sprites
         /\ calls (renderBullets world t) !! i
            = Some (DrawImage img
                      ((bullet_position world t i).1 - BULLET_SIZE_HALF)
                      ((bullet_position world t i).2 - BULLET_SIZE_HALF)
                      BULLET_SIZE BULLET_SIZE).
Proof.
  cbv zeta.
  set (f := fun i =>
         DrawImage
           (tier_sprite
              (speed_tier
                 (num_at (Bullets.velX (GameWorld.bullets world)) i
                  * num_at (Bullets.velX (GameWorld.bullets world)) i
                  + num_at (Bullets.velY (GameWorld.bullets world)) i
                    * num_at (Bullets.velY (GameWorld.bullets world)) i)))
           ((bullet_position world t i).1 - BULLET_SIZE_HALF)
           ((bullet_position world t i).2 - BULLET_SIZE_HALF)
           BULLET_SIZE BULLET_SIZE).
  assert (E : renderBullets world t
              = (map f (seq 0 (Bullets.length (GameWorld.bullets world))),
                 Returned tt)).
  { rewrite renderBullets_returns, <- (concat_singletons f). do 2 f_equal.
    apply map_ext. intros i. now rewrite renderBullets_iter_tier. }
  rewrite E. unfold calls, result. simpl fst; simpl snd.
  split; [reflexivity | split].
  - now rewrite length_map, length_seq.
  - intros i Hi. eexists. split; [apply tier_sprite_in |].
    now rewrite lookup_map_seq.
Qed.

(** A sum of squares one of whose terms is NaN is below every threshold. *)
Lemma nan_speed_below (velX velY thresh : number) :
  is_nan velX = true \/ is_nan velY = true ->
  geb (velX * velX + velY * velY) thresh = false.
Proof.
  intros H. unfold geb.
  assert (E : Prim2SF (velX * velX + velY * velY) = S754_nan).
  { rewrite add_spec, !mul_spec.
    destruct H as [H | H]; apply is_nan_SF in H; rewrite H.
    - reflexivity.
    - simpl SF64mul. unfold SF64add.
      now destruct (SF64mul (Prim2SF velX) (Prim2SF velX)). }
  rewrite leb_spec, E. unfold SFleb.
  now destruct (Prim2SF thresh).
Qed.

(** X11. A projectile one of whose velocity components is NaN, as it is
    when the velocity arrays have no entry at its index, is drawn by the
    projectile loop with the slow sprite: every comparison of its squared
    speed with a threshold is false, and no error is raised. *)
Theorem projectile_without_velocity_is_slow (world : GameWorld.t)
    (t : number) (i : nat) :
  let bullets := GameWorld.bullets world in
  (i < Bullets.length bullets)%nat ->
  is_nan (num_at (Bullets.velX bullets) i) = true
  \/ is_nan (num_at (Bullets.velY bullets) i) = true ->
  result (renderBullets world t) = Returned tt
  /\ calls (renderBullets world t) !! i
     = Some (DrawImage (bullet_slow (imgs this))
               ((bullet_position world t i).1 - BULLET_SIZE_HALF)
               ((bullet_position world t i).2 - BULLET_SIZE_HALF)
               BULLET_SIZE BULLET_SIZE).
Proof.
  cbv zeta. intros Hi H. split; [apply renderBullets_result |].
  apply renderBullets_lookup; [assumption |].
  unfold renderBullets_iter, bullet_position, drawImage, call. cbv zeta.
  now rewrite !nan_speed_below.
Qed.

(** A finite number minus itself is [+0]. *)
Lemma sub_self_zero a :
  is_finite a = true -> Prim2SF (a - a) = S754_zero false.
Proof.
  intros H. apply is_finite_SF in H. rewrite sub_spec.
  destruct H as [[s E] | (s & m & e & E)]; rewrite E.
  - now destruct s.
  - unfold SF64sub, SFsub. now rewrite Z.min_id, Z.sub_diag.
Qed.

(** A finite number times a zero is a zero. *)
Lemma mul_zero_finite v z s :
  is_finite v = true -> Prim2SF z = S754_zero s ->
  exists s', Prim2SF (v * z) = S754_zero s'.
Proof.
  intros H Ez. apply is_finite_SF in H. rewrite mul_spec, Ez.
  destruct H as [[sv E] | (sv & m & e & E)]; rewrite E; simpl; eauto.
Qed.

(** Adding a zero of either sign gives back the same number. *)
Lemma add_signed_zero_same y z s :
  Prim2SF z = S754_zero s -> sf_same (Prim2SF (y + z)) (Prim2SF y).
Proof.
  intros Ez. rewrite add_spec, Ez. unfold SF64add.
  destruct (Prim2SF y) as [sy | sy | | sy m e]; simpl;
    try (left; reflexivity).
  destruct sy, s; simpl; try (left; reflexivity); right; eauto.
Qed.

(** X12. A projectile of finite velocity drawn at the very time it was
    spawned, [turn + t = spawnedTime], is drawn by the projectile loop
    around its recorded position [(x, y)]: the extrapolation adds a
    zero. *)
Theorem projectile_at_spawn_time (world : GameWorld.t) (t : number)
    (i : nat) :
  let bullets := GameWorld.bullets world in
  let x0 := num_at (Bullets.x bullets) i in
  let y0 := num_at (Bullets.y bullets) i in
  let velX := num_at (Bullets.velX bullets) i in
  let velY := num_at (Bullets.velY bullets) i in
  (i < Bullets.length bullets)%nat ->
  (GameWorld.turn world + t)%float = num_at (Bullets.spawnedTime bullets) i ->
  is_finite (num_at (Bullets.spawnedTime bullets) i) = true ->
  is_finite velX = true ->
  is_finite velY = true ->
  result (renderBullets world t) = Returned tt
  /\ calls (renderBullets world t) !! i
     = Some (DrawImage (tier_sprite (speed_tier (velX * velX + velY * velY)))
               (x0 - BULLET_SIZE_HALF) (y0 - BULLET_SIZE_HALF)
               BULLET_SIZE BULLET_SIZE).
Proof.
  cbv zeta. intros Hi Hspawn Hfin Hvx Hvy.
  split; [apply renderBullets_result |].
  apply renderBullets_lookup; [assumption |].
  rewrite renderBullets_iter_tier. cbv zeta.
  unfold bullet_position. cbv zeta. simpl fst; simpl snd.
  rewrite Hspawn.
  pose proof (sub_self_zero _ Hfin) as Hdt.
  destruct (mul_zero_finite _ _ _ Hvx Hdt) as [sx Hx].
  destruct (mul_zero_finite _ _ _ Hvy Hdt) as [sy Hy].
  rewrite (sub_finite_same _ (num_at (Bullets.x (GameWorld.bullets world)) i)
             BULLET_SIZE_HALF false 4503599627370496 (-55) eq_refl
             (add_signed_zero_same _ _ _ Hx)).
  rewrite (sub_finite_same _ (num_at (Bullets.y (GameWorld.bullets world)) i)
             BULLET_SIZE_HALF false 4503599627370496 (-55) eq_refl
             (add_signed_zero_same _ _ _ Hy)).
  reflexivity.
Qed.

(** The order of binary64 values is transitive. *)
Lemma SFleb_trans a b c :
  SFleb a b = true -> SFleb b c = true -> SFleb a c = true.
Proof.
  unfold SFleb, SFcompare.
  destruct a as [sa | sa | | sa ma ea], b as [sb | sb | | sb mb eb],
    c as [sc | sc | | sc mc ec];
    try discriminate; try reflexivity;
    try (destruct sa); try (destruct sb); try (destruct sc);
    try discriminate; try reflexivity;
    change (Pos.compare_cont Eq ma mb) with (ma ?= mb)%positive;
    change (Pos.compare_cont Eq mb mc) with (mb ?= mc)%positive;
    change (Pos.compare_cont Eq ma mc) with (ma ?= mc)%positive;
    destruct (Z.compare_spec ea eb), (Z.compare_spec eb ec),
      (Z.compare_spec ea ec); try lia; try discriminate; try reflexivity;
    destruct (Pos.compare_spec ma mb), (Pos.compare_spec mb mc),
      (Pos.compare_spec ma mc); simpl; try lia; try discriminate;
    try reflexivity.
Qed.

Lemma leb_trans (a b c : number) :
  (a <=? b)%float = true -> (b <=? c)%float = true -> (a <=? c)%float = true.
Proof. rewrite !leb_spec. apply SFleb_trans. Qed.

Lemma speed_tier_monotone (s1 s2 : number) :
  (s1 <=? s2)%float = true ->
  (tier_rank (speed_tier s1) <= tier_rank (speed_tier s2))%nat.
Proof.
  intros Hle. unfold speed_tier, geb.
  assert (Hthresh : (2.25 - 0.00001 <=? 4 - 0.00001)%float = true)
    by reflexivity.
  destruct (4 - 0.00001 <=? s1)%float eqn:Hhigh.
  - now rewrite (leb_trans _ _ _ Hhigh Hle).
  - destruct (2.25 - 0.00001 <=? s1)%float eqn:Hmed.
    + rewrite (leb_trans _ _ _ Hmed Hle).
      destruct (4 - 0.00001 <=? s2)%float; simpl; lia.
    + simpl. lia.
Qed.

(** X13. Of two projectiles the one with the greater or equal squared
    speed never gets the sprite of a slower tier: the two thresholds are
    in increasing order and the comparisons are transitive. *)
Theorem faster_projectile_sprite_not_slower (world : GameWorld.t)
    (t : number) (i j : nat) :
  let bullets := GameWorld.bullets world in
  let speedsq k :=
    (num_at (Bullets.velX bullets) k * num_at (Bullets.velX bullets) k
     + num_at (Bullets.velY bullets) k * num_at (Bullets.velY bullets) k)%float
  in
  let drawn k :=
    ([DrawImage (tier_sprite (speed_tier (speedsq k)))
        ((bullet_position world t k).1 - BULLET_SIZE_HALF)
        ((bullet_position world t k).2 - BULLET_SIZE_HALF)
        BULLET_SIZE BULLET_SIZE],
     Returned tt) in
  (speedsq i <=? speedsq j)%float = true ->
  renderBullets_iter world t i = drawn i
  /\ renderBullets_iter world t j = drawn j
  /\ (tier_rank (speed_tier (speedsq i))
      <= tier_rank (speed_tier (speedsq j)))%nat.
Proof.
  cbv zeta. intros Hle. rewrite !renderBullets_iter_tier. cbv zeta.
  split; [reflexivity | split; [reflexivity |]].
  now apply speed_tier_monotone.
Qed.

(** ** Interpolation of bodies that stand still, and by a factor of zero *)

Lemma same_call_refl (c : CtxCall) : same_call c c.
Proof. destruct c; simpl; repeat split; apply same_number_refl. Qed.

Lemma same_drawing_refl (m : Draw unit) : same_drawing m m.
Proof.
  split; [| reflexivity].
  induction (calls m); constructor; [apply same_call_refl | assumption].
Qed.

(** An interpolated iteration whose position is the body's own, as
    numbers, draws what the plain iteration draws. *)
Lemma same_drawing_iter_at world nextStep t i :
  sf_same (Prim2SF (lerp_position world nextStep t i).1)
          (Prim2SF (num_at (Bodies.x (GameWorld.bodies world)) i)) ->
  sf_same (Prim2SF (lerp_position world nextStep t i).2)
          (Prim2SF (num_at (Bodies.y (GameWorld.bodies world)) i)) ->
  same_drawing (renderBodiesInterpolated_iter world nextStep t i)
               (renderBodies_iter world i).
Proof.
  intros Hx Hy.
  rewrite renderBodiesInterpolated_iter_sprite, renderBodies_iter_sprite.
  cbv zeta. apply same_drawing_bind.
  - apply same_drawing_drawImage; now apply same_number_SF, sub_same.
  - apply same_drawing_drawHealthBar; apply same_number_SF;
      [now apply sub_same | now apply add_same].
Qed.

(** A zero times a finite number is a zero. *)
Lemma zero_mul_finite z v s :
  Prim2SF z = S754_zero s -> is_finite v = true ->
  exists s', Prim2SF (z * v) = S754_zero s'.
Proof.
  intros Ez H. apply is_finite_SF in H. rewrite mul_spec, Ez.
  destruct H as [[sv E] | (sv & m & e & E)]; rewrite E; simpl; eauto.
Qed.

Lemma lerp_stationary x t :
  is_finite x = true -> is_finite t = true ->
  sf_same (Prim2SF (x + (x - x) * t)) (Prim2SF x).
Proof.
  intros Hx Ht.
  destruct (zero_mul_finite _ t _ (sub_self_zero x Hx) Ht) as [s Hs].
  now apply (add_signed_zero_same _ _ s).
Qed.

(** X14. Bodies that stand still are drawn where they are for every finite
    interpolation factor: when every body's next position is its finite
    current position, the interpolated body loop draws what the plain body
    loop draws. *)
Theorem stationary_bodies_are_drawn_in_place (world : GameWorld.t)
    (nextStep : NextStep.t) (t : number) :
  is_finite t = true ->
  (forall i, (i < Bodies.length (GameWorld.bodies world))%nat ->
     num_at (NextStep.bodies_x nextStep) i
     = num_at (Bodies.x (GameWorld.bodies world)) i
     /\ num_at (NextStep.bodies_y nextStep) i
        = num_at (Bodies.y (GameWorld.bodies world)) i
     /\ is_finite (num_at (Bodies.x (GameWorld.bodies world)) i) = true
     /\ is_finite (num_at (Bodies.y (GameWorld.bodies world)) i) = true) ->
  same_drawing (renderBodiesInterpolated world nextStep t)
               (renderBodies world).
Proof.
  intros Ht Hstill. unfold renderBodiesInterpolated, renderBodies, for_upto.
  apply same_drawing_for_range. intros i Hi.
  destruct (Hstill i) as (Ex & Ey & Hx & Hy); [lia |].
  apply same_drawing_iter_at; unfold lerp_position; cbv zeta;
    simpl fst; simpl snd; rewrite ?Ex, ?Ey; now apply lerp_stationary.
Qed.

(** X4. A frame rendered with a next step and an interpolation factor of
    0 is the same drawing as the frame rendered without interpolation, when
    every body's displacement to the next step is finite. *)
Theorem render_lerp_zero_same_frame (world : GameWorld.t)
    (viewMin : Victor.t) (viewWidth : number) (nextStep : NextStep.t) :
  (forall i, (i < Bodies.length (GameWorld.bodies world))%nat ->
     is_finite (num_at (NextStep.bodies_x nextStep) i
                - num_at (Bodies.x (GameWorld.bodies world)) i) = true
     /\ is_finite (num_at (NextStep.bodies_y nextStep) i
                   - num_at (Bodies.y (GameWorld.bodies world)) i) = true) ->
  same_drawing (render world viewMin viewWidth (Some nextStep) (Some 0%float))
               (render world viewMin viewWidth None None).
Proof.
  intros Hfin. unfold render. cbv zeta.
  repeat (apply same_drawing_bind; [apply same_drawing_refl |]).
  apply same_drawing_bind; [| apply same_drawing_refl].
  apply same_drawing_bind; [apply same_drawing_refl |].
  unfold renderBodiesInterpolated, renderBodies, for_upto.
  apply same_drawing_for_range. intros i Hi.
  destruct (Hfin i) as [Hx Hy]; [lia |].
  apply same_drawing_iter_at; unfold lerp_position; cbv zeta;
    simpl fst; simpl snd; now apply lerp_zero.
Qed.

(** X3. [render] interpolates only when it is given both a next step and
    an interpolation factor.  Given one without the other it renders the
    plain frame: a factor without a next step is ignored for the
    projectiles too, which are drawn at factor 0. *)
Theorem render_ignores_partial_interpolation (world : GameWorld.t)
    (viewMin : Victor.t) (viewWidth : number) (nextStep : option NextStep.t)
    (lerpAmount : option number) :
  render world viewMin viewWidth None lerpAmount
  = render world viewMin viewWidth None None
  /\ render world viewMin viewWidth nextStep None
     = render world viewMin viewWidth None None
  /\ calls (bullet_pass world None lerpAmount) = calls (renderBullets world 0)
  /\ calls (body_pass world nextStep None) = calls (renderBodies world).
Proof.
  destruct lerpAmount, nextStep; repeat split; reflexivity.
Qed.

(** ** A body type whose maximum health is zero *)

Lemma eqb_zero_SF (a : number) :
  (a =? 0)%float = true -> exists s, Prim2SF a = S754_zero s.
Proof.
  rewrite FloatAxioms.eqb_spec. change (Prim2SF 0) with (S754_zero false).
  destruct (Prim2SF a) as [s | s | | s m e]; try discriminate; eauto.
  - now destruct s.
  - now destruct s.
Qed.

(** Twice a nonzero number is an infinity or a finite nonzero number. *)
Lemma double_nonzero s m e :
  valid_binary (S754_finite s m e) = true ->
  SF64mul SFtwo (S754_finite s m e) = S754_infinity s
  \/ exists m' e', SF64mul SFtwo (S754_finite s m e) = S754_finite s m' e'.
Proof.
  intros Hv.
  assert (Hpos : SF64mul SFtwo (S754_finite false m e) = S754_infinity false
                 \/ exists m' e',
                      SF64mul SFtwo (S754_finite false m e)
                      = S754_finite false m' e').
  { destruct (double_exact m e) as (K & E & -> & HK & _).
    - rewrite <- Hv. now destruct s.
    - destruct (rounded_cases K E) as [[H0 _] | [(mx & ex & -> & _) | [_ ->]]];
        [lia | lia | eauto | now left]. }
  destruct s; [| exact Hpos].
  assert (Eopp : SF64mul SFtwo (S754_finite true m e)
                 = SFopp (SF64mul SFtwo (S754_finite false m e))).
  { unfold SF64mul, SFmul. simpl xorb. apply (binary_round_aux_opp false). }
  rewrite Eopp.
  destruct Hpos as [-> | (m' & e' & ->)]; [now left | right; simpl; eauto].
Qed.

(** X15. The fill width is not guarded against a maximum health of zero:
    for such a body type the width is NaN when the health is zero, and an
    infinity when the health is positive or negative. *)
Theorem health_bar_fill_with_zero_maxHealth (x y health : number) (type : Z)
    (bodyType : Metadata.BodyTypeMetadata) :
  healthBars this = true ->
  Metadata.types (metadata this) !! type = Some bodyType ->
  (Metadata.maxHealth bodyType =? 0)%float = true ->
  let width := (HEALTH_BAR_WIDTH * health / Metadata.maxHealth bodyType)%float
  in
  calls (drawHealthBar x y health (Some type)) !! 1%nat
  = Some (FillRect x y width HEALTH_BAR_HEIGHT)
  /\ ((health =? 0)%float = true -> is_nan width = true)
  /\ ((0 <? health)%float = true \/ (health <? 0)%float = true ->
      is_infinity width = true).
Proof.
  intros Hon Hmeta Hzero. cbv zeta. split; [| split].
  - unfold drawHealthBar. rewrite Hon. simpl. now rewrite Hmeta.
  - intros Hh. apply eqb_zero_SF in Hzero, Hh.
    destruct Hzero as [sm Em], Hh as [sh Eh].
    apply is_nan_SF. rewrite div_spec, mul_spec, Em, Eh. reflexivity.
  - intros Hh. apply eqb_zero_SF in Hzero. destruct Hzero as [sm Em].
    unfold is_infinity.
    rewrite FloatAxioms.eqb_spec, abs_spec, div_spec, mul_spec, Em.
    change (Prim2SF HEALTH_BAR_WIDTH) with SFtwo.
    change (Prim2SF infinity) with (S754_infinity false).
    pose proof (Prim2SF_valid health) as Hv.
    rewrite !ltb_spec in Hh. change (Prim2SF 0) with (S754_zero false) in Hh.
    destruct (Prim2SF health) as [sh | sh | | sh mh eh].
    + destruct Hh; discriminate.
    + now destruct sh.
    + destruct Hh; discriminate.
    + destruct (double_nonzero sh mh eh Hv) as [-> | (m' & e' & ->)];
        reflexivity.
Qed.

(** ** A body index beyond the arrays *)

Lemma nan_sub (r : number) : (nan - r)%float = nan.
Proof. apply Prim2SF_inj. now rewrite sub_spec. Qed.

(** X16. The body loop runs to [bodies.length] whatever the arrays hold.
    When every earlier body has a sprite, a body index for which the type
    array has no entry is drawn with the unknown-placeholder sprite and no
    health bar, after the earlier bodies and before the later ones; where
    the coordinate arrays have no entry either, the sprite is drawn at
    NaN. *)
Theorem body_beyond_arrays_is_unknown (world : GameWorld.t) (i : nat) :
  let bodies := GameWorld.bodies world in
  let n := Bodies.length bodies in
  let x := num_at (Bodies.x bodies) i in
  let y := num_at (Bodies.y bodies) i in
  let radius := num_at (Bodies.radius bodies) i in
  let before :=
    concat (map (fun j => calls (renderBodies_iter world j)) (seq 0 i)) in
  let after := calls (for_range (S i) (n - S i) (renderBodies_iter world)) in
  (i < n)%nat ->
  Bodies.type bodies !! i = None ->
  (forall j, (j < i)%nat -> body_sprite world j <> None) ->
  calls (renderBodies world)
  = before
    ++ DrawImage (unknown (imgs this))
         (x - radius) (y - radius) (radius * 2) (radius * 2)
       :: after
  /\ (Bodies.x bodies !! i = None -> Bodies.y bodies !! i = None ->
      calls (renderBodies world)
      = before
        ++ DrawImage (unknown (imgs this)) nan nan (radius * 2) (radius * 2)
           :: after).
Proof.
  cbv zeta. intros Hi Hty Hbefore.
  assert (Hsprite : body_sprite world i = Some (unknown (imgs this))).
  { unfold body_sprite. cbv zeta. now rewrite Hty. }
  assert (E : calls (renderBodies world)
              = concat (map (fun j => calls (renderBodies_iter world j))
                            (seq 0 i))
                ++ DrawImage (unknown (imgs this))
                     (num_at (Bodies.x (GameWorld.bodies world)) i
                      - num_at (Bodies.radius (GameWorld.bodies world)) i)
                     (num_at (Bodies.y (GameWorld.bodies world)) i
                      - num_at (Bodies.radius (GameWorld.bodies world)) i)
                     (num_at (Bodies.radius (GameWorld.bodies world)) i * 2)
                     (num_at (Bodies.radius (GameWorld.bodies world)) i * 2)
                   :: calls (for_range (S i)
                               (Bodies.length (GameWorld.bodies world) - S i)
                               (renderBodies_iter world))).
  { unfold renderBodies, for_upto.
    rewrite (for_range_reaches _ _ 0 i Hi)
      by (intros j Hj; rewrite renderBodies_iter_result;
          apply sprite_result, Hbefore; lia).
    cbv zeta. unfold calls at 1. simpl fst. f_equal. simpl Nat.add.
    rewrite renderBodies_iter_sprite. cbv zeta.
    rewrite Hsprite, Hty, sprite_then_bar_calls.
    unfold drawHealthBar. simpl.
    now destruct (negb (healthBars this)). }
  split; [exact E |].
  intros Hx Hy. rewrite E. unfold num_at at 1 3. rewrite Hx, Hy.
  now rewrite !nan_sub.
Qed.

(** ** Health between zero and the maximum *)

Section FullHealth.

Local Open Scope R_scope.

Lemma cexp_two E : cexp 2 E -> E = (-51)%Z.
Proof.
  intros (HE & Hlt & Hge).
  rewrite <- bpow_1 in Hlt. apply bpow_lt_inv in Hlt.
  destruct Hge as [-> | Hge]; [lia |].
  destruct (Z_lt_le_dec 1 (E + 52)) as [H | H]; [| lia].
  apply bpow_lt in H. rewrite bpow_1 in H. lra.
Qed.

(** Twice a number that does not overflow, divided by that number, is 2. *)
Lemma fill_width_SF_full mm em mx ex :
  valid_binary (S754_finite false mm em) = true ->
  SF64mul SFtwo (S754_finite false mm em) = S754_finite false mx ex ->
  fill_width_SF (S754_finite false mm em) (S754_finite false mm em) = SFtwo.
Proof.
  intros Hv Hmul.
  destruct (double_exact mm em Hv) as (K & E & HX & HK & HV).
  rewrite Hmul in HX.
  assert (HK0 : (0 <= K)%Z) by lia.
  destruct (rounded_cases K E HK0)
    as [[HKz _] | [(mx' & ex' & HR & V) | [_ HR]]]; [lia | | congruence].
  rewrite <- HX in HR. injection HR as <- <-.
  unfold fill_width_SF. rewrite Hmul. unfold SF64div, SFdiv. simpl xorb.
  pose proof (SFdiv_core_located mx ex mm em) as Hd.
  destruct (SFdiv_core_binary prec emax (Z.pos mx) ex (Z.pos mm) em)
    as [[q e'] l]. cbv zeta in Hd. destruct Hd as (Hq & Hl & Hf).
  assert (HY : 0 < IZR (Z.pos mm) * bpow em).
  { apply Rmult_lt_0_compat; [apply IZR_lt; lia | apply bpow_gt_0]. }
  assert (Hr : IZR (Z.pos mx) * bpow ex / (IZR (Z.pos mm) * bpow em) = 2).
  { rewrite V, HV. set (Y := IZR (Z.pos mm) * bpow em) in *. field. lra. }
  rewrite Hr in Hl.
  assert (H2 : 0 <= 2) by lra.
  destruct (binary_round_aux_char false 2 q e' l H2 Hq Hl Hf)
    as (M' & E' & Hc & Hn & ->).
  apply cexp_two in Hc. subst E'.
  rewrite <- bpow_m51 in Hn. apply rne_at_exact in Hn. now subst M'.
Qed.

End FullHealth.

Lemma positive_SF (m : number) :
  (0 <? m)%float = true ->
  Prim2SF m = S754_infinity false
  \/ exists mm em, Prim2SF m = S754_finite false mm em.
Proof.
  rewrite ltb_spec. change (Prim2SF 0) with (S754_zero false).
  destruct (Prim2SF m) as [[] | [] | | [] mm em]; try discriminate; eauto.
Qed.

(** A positive number whose double is finite is finite. *)
Lemma finite_of_double (m : number) :
  (0 <? m)%float = true -> is_finite (HEALTH_BAR_WIDTH * m) = true ->
  is_finite m = true.
Proof.
  intros Hpos Hfin. apply is_finite_SF in Hfin. rewrite mul_spec in Hfin.
  change (Prim2SF HEALTH_BAR_WIDTH) with SFtwo in Hfin.
  destruct (positive_SF m Hpos) as [E | (mm & em & E)]; rewrite E in Hfin.
  - destruct Hfin as [[s H] | (s & m' & e' & H)]; discriminate.
  - unfold is_finite, is_infinity.
    assert (Hnan : is_nan m = false).
    { destruct (is_nan m) eqn:Hn; [| reflexivity].
      apply is_nan_SF in Hn. congruence. }
    now rewrite Hnan, FloatAxioms.eqb_spec, abs_spec, E.
Qed.

(** At full health the fill is as wide as the outline. *)
Lemma fill_width_full (m : number) :
  (0 <? m)%float = true -> is_finite (HEALTH_BAR_WIDTH * m) = true ->
  (HEALTH_BAR_WIDTH * m / m)%float = HEALTH_BAR_WIDTH.
Proof.
  intros Hpos Hfin. apply Prim2SF_inj. rewrite div_spec, mul_spec.
  apply is_finite_SF in Hfin. rewrite mul_spec in Hfin.
  change (Prim2SF HEALTH_BAR_WIDTH) with SFtwo in *.
  pose proof (Prim2SF_valid m) as Hv.
  destruct (positive_SF m Hpos) as [E | (mm & em & E)];
    rewrite E in Hfin, Hv |- *.
  - destruct Hfin as [[s H] | (s & m' & e' & H)]; discriminate.
  - destruct (double_nonzero false mm em Hv) as [H | (mx & ex & H)].
    + rewrite H in Hfin.
      destruct Hfin as [[s H'] | (s & m' & e' & H')]; discriminate.
    + now apply (fill_width_SF_full mm em mx ex).
Qed.

(** X19. For a positive maximum health whose double is finite, the fill
    is empty at health 0, exactly as wide as the outline at full health,
    and in between it stays within the outline. *)
Theorem health_bar_fill_within_outline (x y health : number) (type : Z)
    (bodyType : Metadata.BodyTypeMetadata) :
  healthBars this = true ->
  Metadata.types (metadata this) !! type = Some bodyType ->
  let maxHealth := Metadata.maxHealth bodyType in
  let width h := (HEALTH_BAR_WIDTH * h / maxHealth)%float in
  (0 <? maxHealth)%float = true ->
  is_finite (HEALTH_BAR_WIDTH * maxHealth) = true ->
  calls (drawHealthBar x y health (Some type)) !! 1%nat
  = Some (FillRect x y (width health) HEALTH_BAR_HEIGHT)
  /\ calls (drawHealthBar x y health (Some type)) !! 4%nat
     = Some (StrokeRect x y HEALTH_BAR_WIDTH HEALTH_BAR_HEIGHT)
  /\ width 0%float = 0%float
  /\ width maxHealth = HEALTH_BAR_WIDTH
  /\ ((0 <=? health)%float = true -> (health <=? maxHealth)%float = true ->
      (0 <=? width health)%float = true
      /\ (width health <=? HEALTH_BAR_WIDTH)%float = true).
Proof.
  intros Hon Hmeta. cbv zeta. intros Hpos Hdouble.
  pose proof (finite_of_double _ Hpos Hdouble) as Hfin.
  pose proof (fill_width_of_zero _ Hpos Hfin) as Hzero.
  pose proof (fill_width_full _ Hpos Hdouble) as Hfull.
  assert (Hcalls : calls (drawHealthBar x y health (Some type))
                   = [SetFillStyle (StyleString "green");
                      FillRect x y
                        (HEALTH_BAR_WIDTH * health
                         / Metadata.maxHealth bodyType)
                        HEALTH_BAR_HEIGHT;
                      SetStrokeStyle (StyleString "black");
                      SetLineWidth 0.1;
                      StrokeRect x y HEALTH_BAR_WIDTH HEALTH_BAR_HEIGHT]).
  { unfold drawHealthBar. rewrite Hon. simpl. now rewrite Hmeta. }
  rewrite Hcalls.
  split; [reflexivity | split; [reflexivity |]].
  split; [exact Hzero | split; [exact Hfull |]].
  intros Hlow Hhigh. split.
  - rewrite <- Hzero at 1. now apply fill_width_monotone.
  - rewrite <- Hfull at 2. now apply fill_width_monotone.
Qed.

(** ** The colours of the health bar *)

(** X17. Where the browser takes "green" and "black" as colours, a health
    bar is painted as a rectangle filled in green and then a rectangle
    stroked in black with a line width of 0.1, both under the
    transformation in force; the three attributes stay set after the
    call. *)
Theorem health_bar_is_green_in_black (c : Ctx) (x y health : number)
    (type : Z) (bodyType : Metadata.BodyTypeMetadata) :
  healthBars this = true ->
  Metadata.types (metadata this) !! type = Some bodyType ->
  valid_color "green" = true -> valid_color "black" = true ->
  let c' := ctx_run c (calls (drawHealthBar x y health (Some type))) in
  let filling :=
    {| transform := transform (state c);
       fillStyle := StyleString "green";
       strokeStyle := strokeStyle (state c);
       lineWidth := lineWidth (state c) |} in
  let stroking :=
    {| transform := transform (state c);
       fillStyle := StyleString "green";
       strokeStyle := StyleString "black";
       lineWidth := 0.1 |} in
  painted c'
  = painted c
    ++ [(filling,
         FillRect x y (HEALTH_BAR_WIDTH * health / Metadata.maxHealth bodyType)
                  HEALTH_BAR_HEIGHT);
        (stroking, StrokeRect x y HEALTH_BAR_WIDTH HEALTH_BAR_HEIGHT)]
  /\ state c' = stroking
  /\ stack c' = stack c.
Proof.
  intros Hon Hmeta Hgreen Hblack. cbv zeta.
  unfold drawHealthBar. rewrite Hon. simpl. rewrite Hmeta.
  unfold calls, ctx_run. simpl. rewrite Hgreen. simpl. rewrite Hblack.
  change (is_finite 0.1 && (0 <? 0.1)%float) with true. simpl.
  rewrite <- app_assoc. now split.
Qed.

(** ** The order of the bodies *)

(** X18. When the bundle has a sprite for every body, the body loop
    returns having drawn the bodies in index order, each by its sprite
    followed by its health bar: a later body is painted over an earlier
    body's bar. *)
Theorem body_loop_draws_in_index_order (world : GameWorld.t) :
  let bodies := GameWorld.bodies world in
  (forall i, (i < Bodies.length bodies)%nat -> body_sprite world i <> None) ->
  renderBodies world
  = (concat (map (fun i => calls (renderBodies_iter world i))
                 (seq 0 (Bodies.length bodies))),
     Returned tt)
  /\ forall i, (i < Bodies.length bodies)%nat ->
       let x := num_at (Bodies.x bodies) i in
       let y := num_at (Bodies.y bodies) i in
       let radius := num_at (Bodies.radius bodies) i in
       exists img,
         body_sprite world i = Some img
         /\ calls (renderBodies_iter world i)
            = DrawImage img (x - radius) (y - radius)
                        (radius * 2) (radius * 2)
              :: calls (drawHealthBar (x - HEALTH_BAR_WIDTH_HALF) (y + radius)
                                      (num_at (Bodies.health bodies) i)
                                      (Bodies.type bodies !! i)).
Proof.
  cbv zeta. intros Hsprite. split.
  - unfold renderBodies, for_upto. apply for_range_returns.
    intros i Hi. rewrite renderBodies_iter_result.
    specialize (Hsprite i ltac:(lia)).
    now destruct (body_sprite world i).
  - intros i Hi. specialize (Hsprite i Hi).
    rewrite renderBodies_iter_sprite. cbv zeta.
    destruct (body_sprite world i) as [img |]; [| congruence].
    exists img. split; [reflexivity |].
    now rewrite calls_bind.
Qed.

End Rendering.

(** * The health-bar option *)

Section Options.

Context {image : Type}.

Variable schema : Schema.BodyType.
Variable this : Renderer image.

(** A loop each of whose iterations issues the selected calls of another
    loop's iteration, and finishes the same way, issues the selected calls
    of that loop. *)
Lemma for_range_filter (P : CtxCall image -> bool)
    (body body' : nat -> Draw image unit) n : forall from,
  (forall i, body' i = (List.filter P (calls (body i)), result (body i))) ->
  for_range from n body'
  = (List.filter P (calls (for_range from n body)),
     result (for_range from n body)).
Proof.
  induction n as [| n IH]; intros from H; simpl for_range.
  - reflexivity.
  - rewrite (Draw_eta (bind (body' from) _)).
    rewrite !calls_bind, !result_bind, H. unfold calls at 1, result at 1 3.
    simpl fst; simpl snd.
    destruct (snd (body from)) as [[] | e] eqn:E.
    + rewrite (IH (S from) H), List.filter_app.
      unfold calls at 2, result at 1. simpl fst; simpl snd.
      unfold result. rewrite E. reflexivity.
    + unfold result. rewrite E. now rewrite !app_nil_r.
Qed.

Lemma drawHealthBar_no_image (r : Renderer image) x y health type :
  List.filter is_draw_image (calls (drawHealthBar r x y health type)) = [].
Proof.
  unfold drawHealthBar.
  destruct (negb (healthBars r)); [reflexivity |].
  destruct (type ≫= _); reflexivity.
Qed.

Lemma sprite_then_bar_off img x y w h hx hy health type :
  healthBars this = true ->
  bind (drawImage img x y w h)
       (fun _ => drawHealthBar (toggleHealthBars this) hx hy health type)
  = (List.filter is_draw_image
       (calls (bind (drawImage img x y w h)
                    (fun _ => drawHealthBar this hx hy health type))),
     result (bind (drawImage img x y w h)
                  (fun _ => drawHealthBar this hx hy health type))).
Proof.
  intros Hon. rewrite calls_bind, result_bind.
  destruct img as [im |]; simpl.
  - rewrite drawHealthBar_no_image, drawHealthBar_returns.
    unfold drawHealthBar. simpl. now rewrite Hon.
  - reflexivity.
Qed.

(** X1. Turning the health bars off removes the health bars and nothing
    else: with the option off, each body loop issues exactly the
    [drawImage] calls it issues with the option on, in the same order, and
    finishes the same way. *)
Theorem health_bars_off_draws_sprites_only (world : GameWorld.t)
    (nextStep : NextStep.t) (t : number) :
  healthBars this = true ->
  renderBodies schema (toggleHealthBars this) world
  = (List.filter is_draw_image (calls (renderBodies schema this world)),
     result (renderBodies schema this world))
  /\ renderBodiesInterpolated schema (toggleHealthBars this) world nextStep t
     = (List.filter is_draw_image
          (calls (renderBodiesInterpolated schema this world nextStep t)),
        result (renderBodiesInterpolated schema this world nextStep t)).
Proof.
  intros Hon. split.
  - unfold renderBodies, for_upto. apply for_range_filter. intros i.
    apply sprite_then_bar_off, Hon.
  - unfold renderBodiesInterpolated, for_upto. apply for_range_filter.
    intros i. apply sprite_then_bar_off, Hon.
Qed.

(** X2. Toggling the health bars twice gives back the renderer, and so
    every frame it draws. *)
Theorem toggleHealthBars_twice :
  toggleHealthBars (toggleHealthBars this) = this
  /\ forall world viewMin viewWidth nextStep lerpAmount,
       render schema (toggleHealthBars (toggleHealthBars this))
              world viewMin viewWidth nextStep lerpAmount
       = render schema this world viewMin viewWidth nextStep lerpAmount.
Proof.
  assert (E : toggleHealthBars (toggleHealthBars this) = this).
  { destruct this as [w im md bg hb]. unfold toggleHealthBars. simpl.
    now rewrite negb_involutive. }
  split; [exact E | intros; now rewrite E].
Qed.

End Options.


(** * The properties on the sample data *)

(** C1, on the sample world: the soldier moves by a finite displacement. *)
Lemma interpolation_at_zero_sample :
  same_drawing
    (renderBodiesInterpolated sample_schema sample_renderer sample_world
       sample_next 0)
    (renderBodies sample_schema sample_renderer sample_world).
Proof.
  apply (interpolation_at_zero_is_identity sample_schema sample_renderer
           sample_world sample_next).
  intros i Hi. simpl in Hi.
  destruct i as [| [| i]]; [split; reflexivity | split; reflexivity | lia].
Defined.

(** C1 as stated fails when a next-step coordinate is not finite: with the
    soldier's next [x] at [Infinity] the two collections still match index
    by index, yet the interpolated loop with factor 0 draws the soldier at
    [x = NaN] while the plain loop draws it at [x = -1]. *)
Lemma interpolation_at_zero_not_identity :
  List.length (NextStep.bodies_x runaway_next)
  = Bodies.length (GameWorld.bodies sample_world)
  /\ calls (renderBodiesInterpolated sample_schema sample_renderer
              sample_world runaway_next 0) !! 0%nat
     = Some (DrawImage "soldier_b"%string nan (-1) 2 2)
  /\ calls (renderBodies sample_schema sample_renderer sample_world) !! 0%nat
     = Some (DrawImage "soldier_b"%string (-1) (-1) 2 2)
  /\ ~ same_drawing
         (renderBodiesInterpolated sample_schema sample_renderer
            sample_world runaway_next 0)
         (renderBodies sample_schema sample_renderer sample_world).
Proof.
  split; [reflexivity | split; [reflexivity | split; [reflexivity |]]].
  intros [H _]. vm_compute in H.
  inversion H as [| c d l l' Hcd _]; subst.
  destruct Hcd as (_ & Hx & _). discriminate Hx.
Qed.

(** C2, on the sample world: the soldier halfway between [(0,0)] and
    [(10,0)] is drawn around [(5,0)]. *)
Lemma interpolated_draw_position_sample :
  calls (renderBodiesInterpolated sample_schema sample_renderer sample_world
           sample_next 0.5) !! 0%nat
  = Some (DrawImage "soldier_b"%string (5 - 1) (0 - 1) 2 2)
  /\ lerp_position sample_world sample_next 0.5 0 = (5%float, 0%float).
Proof.
  destruct (interpolated_draw_position sample_schema sample_renderer
              sample_world sample_next 0.5) as (Hcalls & _ & _ & Hexample).
  split; [rewrite Hcalls; reflexivity | apply Hexample; reflexivity].
Defined.

(** C3, on the sample world: the projectile spawned at [(1,1)]. *)
Lemma projectile_draw_position_sample :
  calls (renderBullets sample_renderer sample_world 0) !! 0%nat
  = Some (DrawImage "bullet_fast"%string
            (1 + 6 - BULLET_SIZE_HALF) (1 - BULLET_SIZE_HALF)
            BULLET_SIZE BULLET_SIZE).
Proof.
  destruct (projectile_draw_position sample_renderer sample_world 0 0)
    as (_ & _ & H).
  - simpl. lia.
  - destruct H as (_ & _ & H); [reflexivity .. |]. exact H.
Defined.

(** C4, on two projectiles of velocities [(2,0)] and [(1.999,0)], drawn at
    the time they are spawned. *)
Lemma projectile_sprite_tier_sample :
  calls (renderBullets sample_renderer paced_world 0) !! 0%nat
  = Some (DrawImage "bullet_fast"%string
            (1 - BULLET_SIZE_HALF) (1 - BULLET_SIZE_HALF)
            BULLET_SIZE BULLET_SIZE)
  /\ calls (renderBullets sample_renderer paced_world 0) !! 1%nat
     = Some (DrawImage "bullet_medium"%string
               (2 - BULLET_SIZE_HALF) (2 - BULLET_SIZE_HALF)
               BULLET_SIZE BULLET_SIZE).
Proof.
  split.
  - destruct (projectile_sprite_tier sample_renderer paced_world 0 0)
      as (_ & _ & _ & _ & H & _); [simpl; lia |].
    apply H. reflexivity.
  - destruct (projectile_sprite_tier sample_renderer paced_world 0 1)
      as (_ & _ & _ & _ & _ & H & _); [simpl; lia |].
    apply H. reflexivity.
Defined.

(** C5, on the sample renderer: code 42 has no metadata. *)
Lemma drawHealthBar_without_metadata_sample :
  drawHealthBar sample_renderer 0 0 10 (Some 42) = ([], Returned tt).
Proof.
  apply (drawHealthBar_without_metadata sample_renderer
           (fun _ => true) 0 0 10 42).
  reflexivity.
Defined.

(** C6, on the sample world: the body of code 42 is drawn after the
    soldier and its health bar. *)
Lemma unrecognized_type_sample :
  calls (renderBodies sample_schema sample_renderer sample_world) !! 6%nat
  = Some (DrawImage "unknown"%string (3 - 2) (4 - 2) (2 * 2) (2 * 2))
  /\ calls (renderBodiesInterpolated sample_schema sample_renderer
              sample_world sample_next 0.5) !! 6%nat
     = Some (DrawImage "unknown"%string (3 - 2) (4 - 2) (2 * 2) (2 * 2))
  /\ result (renderBodies sample_schema sample_renderer sample_world)
     = Returned tt.
Proof.
  destruct (unrecognized_type_draws_placeholder sample_schema sample_renderer
              sample_world sample_next 0.5 1 42) as (_ & Hdraw & Hret).
  - simpl. lia.
  - reflexivity.
  - unfold recognized_codes. simpl. intros H.
    repeat destruct H as [H | H]; try discriminate H. exact H.
  - destruct Hdraw as [Hplain Hlerp].
    { intros j Hj. destruct j as [| j]; [discriminate | lia]. }
    destruct Hret as [Hreturned _].
    { intros j Hj Hne. simpl in Hj.
      destruct j as [| [| j]]; [discriminate | congruence | lia]. }
    rewrite Hplain, Hlerp.
    split; [reflexivity | split; [reflexivity | exact Hreturned]].
Defined.

(** C6 as stated fails for a body that the loop does not reach: in a world
    whose first body is a soldier of team 5, which has no sprite, the body
    of code 42 that follows is drawn by neither loop; both throw before
    any call. *)
Lemma unrecognized_body_not_drawn :
  Bodies.type (GameWorld.bodies blocked_world) !! 1%nat = Some 42
  /\ ~ In 42 (recognized_codes sample_schema)
  /\ renderBodies sample_schema sample_renderer blocked_world
     = ([], Threw TypeError)
  /\ renderBodiesInterpolated sample_schema sample_renderer blocked_world
       sample_next 0.5
     = ([], Threw TypeError).
Proof.
  split; [reflexivity | split; [| split; reflexivity]].
  unfold recognized_codes. simpl. intros H.
  repeat destruct H as [H | H]; try discriminate H. exact H.
Qed.

(** C7, on the sample world, starting from the initial context. *)
Lemma render_restores_sample :
  let frame :=
    calls (render sample_schema sample_renderer sample_world sample_view 40
             (Some sample_next) (Some 0.5%float)) in
  state (ctx_run sample_valid_color sample_ctx frame) = state sample_ctx
  /\ stack (ctx_run sample_valid_color sample_ctx frame) = stack sample_ctx.
Proof.
  destruct (render_restores_drawing_state sample_schema sample_renderer
              sample_valid_color sample_ctx sample_world sample_view 40
              (Some sample_next) (Some 0.5%float))
    as (_ & Hstate & Hstack & _).
  - reflexivity.
  - split; assumption.
Defined.

(** C9 as stated fails: in a world with one indicator dot and one indicator
    line the overlay pass issues its one [lineWidth] assignment and nothing
    else, so no circle and no segment is drawn. *)
Lemma overlay_pass_ignores_indicators :
  Dots.length (GameWorld.indicatorDots annotated_world) = 1%nat
  /\ Lines.length (GameWorld.indicatorLines annotated_world) = 1%nat
  /\ calls (renderIndicatorStrings (image := string) annotated_world)
     = [SetLineWidth INDICATOR_LINE_WIDTH]
  /\ ~ exists what,
         In what (calls (renderIndicatorStrings (image := string)
                           annotated_world))
         /\ (is_path_call what = true \/ is_paint_call what = true).
Proof.
  split; [reflexivity | split; [reflexivity | split; [reflexivity |]]].
  intros (what & Hin & Hdraw). simpl in Hin.
  destruct Hin as [<- | []]. destruct Hdraw; discriminate.
Qed.

(** C10, on the sample renderer: a soldier (maximum health 100) whose
    health is 150. *)
Lemma health_bar_fill_sample :
  drawHealthBar sample_renderer 0 0 150 (Some 4)
  = ([SetFillStyle (StyleString "green");
      FillRect 0 0 (HEALTH_BAR_WIDTH * 150 / 100) HEALTH_BAR_HEIGHT;
      SetStrokeStyle (StyleString "black");
      SetLineWidth 0.1;
      StrokeRect 0 0 HEALTH_BAR_WIDTH HEALTH_BAR_HEIGHT],
     Returned tt)
  /\ (HEALTH_BAR_WIDTH <? HEALTH_BAR_WIDTH * 150 / 100)%float = true.
Proof.
  destruct (health_bar_fill_is_unclamped sample_renderer 0 0 150 4
              {| Metadata.maxHealth := 100 |}) as [Hcalls Hwidth].
  - reflexivity.
  - reflexivity.
  - split; [exact Hcalls |].
    destruct Hwidth as (_ & Hwider & _); [reflexivity | reflexivity |].
    apply Hwider. reflexivity.
Defined.

(** C10 as stated fails.  The healths 7 and 7.000000000000001 of a soldier
    (maximum health 100) are distinct numbers, yet both fill a width of
    0.14, so the width is not strictly increasing; the smallest negative
    health gives a width of [-0], which is not negative; and with a maximum
    health of -100 a health of 150, which is greater, gives a width of -3,
    which is not wider than the outline. *)
Lemma health_bar_fill_not_strictly_increasing :
  (7 <? 7.000000000000001)%float = true
  /\ calls (drawHealthBar sample_renderer 0 0 7 (Some 4)) !! 1%nat
     = Some (FillRect 0 0 0.14 HEALTH_BAR_HEIGHT)
  /\ calls (drawHealthBar sample_renderer 0 0 7.000000000000001 (Some 4))
       !! 1%nat
     = Some (FillRect 0 0 0.14 HEALTH_BAR_HEIGHT)
  /\ (-5e-324 <? 0)%float = true
  /\ calls (drawHealthBar sample_renderer 0 0 (-5e-324) (Some 4)) !! 1%nat
     = Some (FillRect 0 0 (-0) HEALTH_BAR_HEIGHT)
  /\ (-0 <? 0)%float = false
  /\ (-100 <? 150)%float = true
  /\ calls (drawHealthBar inverted_renderer 0 0 150 (Some 4)) !! 1%nat
     = Some (FillRect 0 0 (-3) HEALTH_BAR_HEIGHT)
  /\ (HEALTH_BAR_WIDTH <? -3)%float = false.
Proof. repeat split; reflexivity. Qed.


(** * The further properties on the sample data *)

(** X1, on the sample world: with the health bars off, the soldier and the
    body of unknown kind are each drawn by one [drawImage]. *)
Lemma health_bars_off_sample :
  renderBodies sample_schema (toggleHealthBars sample_renderer) sample_world
  = (List.filter is_draw_image
       (calls (renderBodies sample_schema sample_renderer sample_world)),
     result (renderBodies sample_schema sample_renderer sample_world))
  /\ calls (renderBodies sample_schema (toggleHealthBars sample_renderer)
              sample_world)
     = [DrawImage "soldier_b"%string (-1) (-1) 2 2;
        DrawImage "unknown"%string 1 2 4 4].
Proof.
  destruct (health_bars_off_draws_sprites_only sample_schema sample_renderer
              sample_world sample_next 0.5) as [H _].
  - reflexivity.
  - split; [exact H | reflexivity].
Defined.

(** X4, on the sample world: the soldier moves by a finite displacement. *)
Lemma render_lerp_zero_sample :
  same_drawing
    (render sample_schema sample_renderer sample_world sample_view 40
       (Some sample_next) (Some 0%float))
    (render sample_schema sample_renderer sample_world sample_view 40
       None None).
Proof.
  apply (render_lerp_zero_same_frame sample_schema sample_renderer
           sample_world sample_view 40 sample_next).
  intros i Hi. simpl in Hi.
  destruct i as [| [| i]]; [split; reflexivity | split; reflexivity | lia].
Defined.

(** X5, on the stray world: the first soldier is drawn with its health
    bar, then the soldier of team 5 stops the loop; the archon is never
    drawn. *)
Lemma body_loop_stops_sample :
  renderBodies sample_schema sample_renderer stray_world
  = (concat (map (fun i =>
                    calls (renderBodies_iter sample_schema sample_renderer
                             stray_world i))
                 (seq 0 1)),
     Threw TypeError)
  /\ renderBodiesInterpolated sample_schema sample_renderer stray_world
       sample_next 0.5
     = (concat (map (fun i =>
                       calls (renderBodiesInterpolated_iter sample_schema
                                sample_renderer stray_world sample_next 0.5 i))
                    (seq 0 1)),
        Threw TypeError).
Proof.
  apply (body_loop_stops_at_missing_sprite sample_schema sample_renderer
           stray_world sample_next 0.5 1).
  - simpl. lia.
  - intros i Hi. destruct i as [| i]; [discriminate | lia].
  - reflexivity.
Defined.

(** X7, on the sample world: two teams, two sprites in every table. *)
Lemma render_returns_sample :
  result (render sample_schema sample_renderer sample_world sample_view 40
            (Some sample_next) (Some 0.5%float))
  = Returned tt.
Proof.
  apply (render_returns_with_team_sprites sample_schema sample_renderer 2
           sample_world sample_view 40 (Some sample_next) (Some 0.5%float)).
  - repeat constructor; simpl; lia.
  - intros i ty Hi Hty Hin Htree. simpl in Hi.
    destruct i as [| [| i]]; [| | lia].
    + exists 1. split; [reflexivity | lia].
    + exists 0. split; [reflexivity | lia].
Defined.

(** X8, on the stray world, starting from the initial context. *)
Lemma render_throw_sample :
  let frame :=
    calls (render sample_schema sample_renderer stray_world sample_view 40
             None None) in
  stack (ctx_run sample_valid_color sample_ctx frame) = [state sample_ctx]
  /\ transform (state (ctx_run sample_valid_color sample_ctx frame))
     = [TScale 20 20; TTranslate (-0) (-0)].
Proof.
  apply (render_throw_leaves_view_in_force sample_schema sample_renderer
           sample_valid_color sample_ctx stray_world sample_view 40
           None None TypeError).
  reflexivity.
Defined.

(** X11, on the hollow world: the announced projectile has no velocity. *)
Lemma projectile_without_velocity_sample :
  calls (renderBullets sample_renderer hollow_world 0) !! 0%nat
  = Some (DrawImage "bullet_slow"%string nan nan BULLET_SIZE BULLET_SIZE).
Proof.
  destruct (projectile_without_velocity_is_slow sample_renderer hollow_world
              0 0) as [_ H].
  - simpl. lia.
  - left. reflexivity.
  - exact H.
Defined.

(** X12, on the sample world at turn 3, the turn its projectile is
    spawned. *)
Lemma projectile_at_spawn_time_sample :
  calls (renderBullets sample_renderer spawning_world 0) !! 0%nat
  = Some (DrawImage "bullet_fast"%string
            (1 - BULLET_SIZE_HALF) (1 - BULLET_SIZE_HALF)
            BULLET_SIZE BULLET_SIZE).
Proof.
  destruct (projectile_at_spawn_time sample_renderer spawning_world 0 0)
    as [_ H];
    [simpl; lia | reflexivity | reflexivity | reflexivity | reflexivity |].
  exact H.
Defined.

(** X13, on the volley: squared speeds 1 and 4. *)
Lemma faster_projectile_sample :
  calls (renderBullets_iter sample_renderer volley_world 0 0)
  = [DrawImage "bullet_slow"%string
       (1 + 1 * 3 - BULLET_SIZE_HALF) (1 + 0 * 3 - BULLET_SIZE_HALF)
       BULLET_SIZE BULLET_SIZE]
  /\ calls (renderBullets_iter sample_renderer volley_world 0 1)
     = [DrawImage "bullet_fast"%string
          (2 + 0 * 2 - BULLET_SIZE_HALF) (2 + 2 * 2 - BULLET_SIZE_HALF)
          BULLET_SIZE BULLET_SIZE].
Proof.
  destruct (faster_projectile_sprite_not_slower sample_renderer volley_world
              0 0 1) as (Hi & Hj & _).
  - reflexivity.
  - rewrite Hi, Hj. split; reflexivity.
Defined.

(** X14, on the sample world: no body moves, the factor is a half. *)
Lemma stationary_bodies_sample :
  same_drawing
    (renderBodiesInterpolated sample_schema sample_renderer sample_world
       still_next 0.5)
    (renderBodies sample_schema sample_renderer sample_world).
Proof.
  apply (stationary_bodies_are_drawn_in_place sample_schema sample_renderer
           sample_world still_next 0.5).
  - reflexivity.
  - intros i Hi. simpl in Hi.
    destruct i as [| [| i]]; [repeat split .. | lia].
Defined.

(** X15, on a soldier of health 50 whose maximum health is 0. *)
Lemma health_bar_zero_maxHealth_sample :
  calls (drawHealthBar fragile_renderer 0 0 50 (Some 4)) !! 1%nat
  = Some (FillRect 0 0 infinity HEALTH_BAR_HEIGHT)
  /\ is_infinity (HEALTH_BAR_WIDTH * 50 / 0) = true.
Proof.
  destruct (health_bar_fill_with_zero_maxHealth fragile_renderer 0 0 50 4
              {| Metadata.maxHealth := 0 |}) as (Hcall & _ & Hinf).
  - reflexivity.
  - reflexivity.
  - reflexivity.
  - split; [exact Hcall | apply Hinf; left; reflexivity].
Defined.

(** X16, on the hollow world: the announced body has no entry in any
    array. *)
Lemma body_beyond_arrays_sample :
  calls (renderBodies sample_schema sample_renderer hollow_world)
  = [DrawImage "unknown"%string nan nan nan nan].
Proof.
  destruct (body_beyond_arrays_is_unknown sample_schema sample_renderer
              hollow_world 0) as [_ H].
  - simpl. lia.
  - reflexivity.
  - intros j Hj. lia.
  - rewrite H; reflexivity.
Defined.

(** X17, on the sample renderer and the initial context. *)
Lemma health_bar_colours_sample :
  map snd
    (painted (ctx_run sample_valid_color sample_ctx
                (calls (drawHealthBar sample_renderer 0 0 50 (Some 4)))))
  = [FillRect 0 0 1 HEALTH_BAR_HEIGHT;
     StrokeRect 0 0 HEALTH_BAR_WIDTH HEALTH_BAR_HEIGHT]
  /\ strokeStyle
       (state (ctx_run sample_valid_color sample_ctx
                 (calls (drawHealthBar sample_renderer 0 0 50 (Some 4)))))
     = StyleString "black".
Proof.
  destruct (health_bar_is_green_in_black sample_renderer sample_valid_color
              sample_ctx 0 0 50 4 {| Metadata.maxHealth := 100 |})
    as (Hpainted & Hstate & _); try reflexivity.
  rewrite Hpainted, Hstate. split; reflexivity.
Defined.

(** X18, on the sample world. *)
Lemma body_loop_order_sample :
  calls (renderBodies sample_schema sample_renderer sample_world) !! 0%nat
  = Some (DrawImage "soldier_b"%string (-1) (-1) 2 2)
  /\ result (renderBodies sample_schema sample_renderer sample_world)
     = Returned tt.
Proof.
  destruct (body_loop_draws_in_index_order sample_schema sample_renderer
              sample_world) as [H _].
  - intros i Hi. simpl in Hi.
    destruct i as [| [| i]]; [discriminate | discriminate | lia].
  - rewrite H. split; reflexivity.
Defined.

(** X19, on the sample renderer: a soldier at half its health. *)
Lemma health_bar_within_outline_sample :
  (0 <=? HEALTH_BAR_WIDTH * 50 / 100)%float = true
  /\ (HEALTH_BAR_WIDTH * 50 / 100 <=? HEALTH_BAR_WIDTH)%float = true.
Proof.
  destruct (health_bar_fill_within_outline sample_renderer 0 0 50 4
              {| Metadata.maxHealth := 100 |}) as (_ & _ & _ & _ & H);
    try reflexivity.
  apply H; reflexivity.
Defined.
